(** * StrangeNames: the word-space projection and selection engine

    A shallow embedding of [src/embeddings.js], [src/projection.js], the
    level-of-detail pass of [src/wordcloud.js] and the launch handler of
    [src/main.js], followed by the properties of the specification that
    were checked against it.

    JavaScript numbers are IEEE 754 binary64 values.  The code is embedded
    once, over an interface of the arithmetic it uses, and read at two
    instances: Rocq's primitive binary64 floats (the numbers the program
    runs on: every concrete evaluation below is done there) and the real
    numbers (the same code with every operation exact, for the statements
    that only hold up to rounding on floats).  Strings are strings of
    bytes; what [trim] and [toLowerCase] make of the value of an input
    field is the browser's business, and the launch handler is read for
    any two such functions. *)

From Stdlib Require Import Reals Lra Floats ZArith Uint63 Ascii String.
From stdpp Require Import gmap strings list sorting.

Set Warnings "-inexact-float,-abstract-large-number".

(** ** Numbers *)

Declare Scope num_scope.
Delimit Scope num_scope with num.

(** The operations of a JavaScript number that the sources use. *)
Class Number (num : Type) : Type := {
  ofZ : Z → num;                (* an integer literal, or an array length *)
  nan : num;                    (* what [undefined] is in arithmetic *)
  nadd : num → num → num;
  nsub : num → num → num;
  nmul : num → num → num;
  ndiv : num → num → num;
  nsqrt : num → num;            (* Math.sqrt *)
  nltb : num → num → bool;      (* a < b *)
  neqb : num → num → bool;      (* a === b *)
  isInteger : num → bool;       (* Number.isInteger *)
  toLength : num → nat;         (* a non-negative integral number, as a count *)
  fround : num → num;           (* the value kept by a Float32Array store *)
}.

Notation "x + y" := (nadd x y) : num_scope.
Notation "x - y" := (nsub x y) : num_scope.
Notation "x * y" := (nmul x y) : num_scope.
Notation "x / y" := (ndiv x y) : num_scope.
Notation "x <? y" := (nltb x y) : num_scope.
Notation "x >? y" := (nltb y x) : num_scope.
Notation "x =? y" := (neqb x y) : num_scope.

(** *** The binary64 instance *)

Definition Z2F (z : Z) : float :=
  match z with
  | Z0 => 0%float
  | Zpos _ => PrimFloat.of_uint63 (Uint63.of_Z z)
  | Zneg p => PrimFloat.opp (PrimFloat.of_uint63 (Uint63.of_Z (Zpos p)))
  end.

(** [Number.isInteger]: finite, and no bit below the unit. *)
Definition SF_isInteger (x : spec_float) : bool :=
  match x with
  | S754_zero _ => true
  | S754_finite _ m e =>
      match e with
      | Zneg k => Z.eqb (Z.land (Zpos m) (Z.ones (Zpos k))) 0
      | _ => true
      end
  | _ => false
  end.

Definition F_isInteger (x : float) : bool := SF_isInteger (Prim2SF x).

Definition SF_toLength (x : spec_float) : nat :=
  match x with
  | S754_finite false m e => Z.to_nat (Z.shiftl (Zpos m) e)
  | _ => 0
  end.

Definition F_toLength (x : float) : nat := SF_toLength (Prim2SF x).

(** Rounding to binary32 (24 bits of precision, exponents to 128), to
    nearest, ties to even: what [Float32Array] keeps of a number. *)
Definition F_fround (x : float) : float :=
  match Prim2SF x with
  | S754_finite s m e => SF2Prim (binary_normalize 24 128 (cond_Zopp s (Zpos m)) e s)
  | _ => x
  end.

#[export] Instance float_number : Number float := {|
  ofZ := Z2F;
  nan := PrimFloat.nan;
  nadd := PrimFloat.add;
  nsub := PrimFloat.sub;
  nmul := PrimFloat.mul;
  ndiv := PrimFloat.div;
  nsqrt := PrimFloat.sqrt;
  nltb := PrimFloat.ltb;
  neqb := PrimFloat.eqb;
  isInteger := F_isInteger;
  toLength := F_toLength;
  fround := F_fround;
|}.

(** *** The exact instance

    The real numbers have no NaN and no infinity; [nan] is read as 0 and a
    division by 0 gives 0 there.  The statements made at this instance
    assume what keeps the code away from both. *)

Definition R_ltb (a b : R) : bool := if Rlt_dec a b then true else false.
Definition R_eqb (a b : R) : bool := if Req_dec_T a b then true else false.
Definition R_isInteger (r : R) : bool := R_eqb r (IZR (Int_part r)).

#[export] Instance real_number : Number R := {|
  ofZ := IZR;
  nan := 0%R;
  nadd := Rplus;
  nsub := Rminus;
  nmul := Rmult;
  ndiv := Rdiv;
  nsqrt := R_sqrt.sqrt;
  nltb := R_ltb;
  neqb := R_eqb;
  isInteger := R_isInteger;
  toLength := λ r, Z.to_nat (Int_part r);
  fround := λ r, r;
|}.

(** ** Strings *)

(** [WORD_RE = /^[a-z]{3,15}$/]: a pattern of the one shape the sources
    use, a character range repeated between [rmin] and [rmax] times,
    anchored at both ends. *)
Record RangeRepeat := {
  rlo : ascii;
  rhi : ascii;
  rmin : nat;
  rmax : nat;
}.

Definition inRange (lo hi c : ascii) : bool :=
  (nat_of_ascii lo <=? nat_of_ascii c)%nat && (nat_of_ascii c <=? nat_of_ascii hi)%nat.

(** Consumes the characters of the range, at most [budget] of them, and
    returns how many it took and what is left. *)
Fixpoint matchRange (lo hi : ascii) (budget : nat) (s : string) : nat * string :=
  match budget, s with
  | S k, String c s' =>
      if inRange lo hi c
      then let '(n, rest) := matchRange lo hi k s' in (S n, rest)
      else (0%nat, s)
  | _, _ => (0%nat, s)
  end.

(** [re.test(s)]: the greedy repetition must reach the end of the input
    ([$] without the [m] flag) having taken at least [rmin] characters. *)
Definition regexTest (re : RangeRepeat) (s : string) : bool :=
  let '(n, rest) := matchRange (rlo re) (rhi re) (rmax re) s in
  (rmin re <=? n)%nat && bool_decide (rest = EmptyString).

Definition WORD_RE : RangeRepeat := {| rlo := "a"; rhi := "z"; rmin := 3; rmax := 15 |}.

Definition isQualityWord (word : string) : bool := regexTest WORD_RE word.

(** [String.prototype.trim] and [toLowerCase] on ASCII text, where the
    white space is the characters 9 to 13 and 32 and the letters with a
    lower case are A to Z.  They are applied to ASCII text only: the
    word list the scripts write, and the concrete inputs below.  The
    launch handler, whose fields may hold any character, takes the two
    methods as parameters. *)
Definition isWhiteSpace (c : ascii) : bool :=
  let n := nat_of_ascii c in ((9 <=? n)%nat && (n <=? 13)%nat) || (n =? 32)%nat.

Fixpoint trimStart (s : string) : string :=
  match s with
  | String c s' => if isWhiteSpace c then trimStart s' else s
  | EmptyString => EmptyString
  end.

Fixpoint trimEnd (s : string) : string :=
  match s with
  | String c s' =>
      match trimEnd s' with
      | EmptyString => if isWhiteSpace c then EmptyString else String c EmptyString
      | t => String c t
      end
  | EmptyString => EmptyString
  end.

Definition trim (s : string) : string := trimEnd (trimStart s).

Definition lowerChar (c : ascii) : ascii :=
  if inRange "A" "Z" c then ascii_of_nat (nat_of_ascii c + 32) else c.

Fixpoint toLowerCase (s : string) : string :=
  match s with
  | String c s' => String (lowerChar c) (toLowerCase s')
  | EmptyString => EmptyString
  end.

(** ** Data *)

(** The object both [axes] (the six words) and [axisVectors] (their
    embeddings) are: one entry per axis role. *)
Record SixAxes (A : Type) := {
  xPos : A;
  xNeg : A;
  yPos : A;
  yNeg : A;
  zPos : A;
  zNeg : A;
}.
Arguments xPos {A} _.
Arguments xNeg {A} _.
Arguments yPos {A} _.
Arguments yNeg {A} _.
Arguments zPos {A} _.
Arguments zNeg {A} _.

(** [{ words, vectors, dims }]: [vectors] is the flat row-major
    [Float32Array], [dims] the integer [loadVocabulary] stored. *)
Record VocabData (num : Type) := {
  words : list string;
  vectors : list num;
  dims : nat;
}.
Arguments words {num} _.
Arguments vectors {num} _.
Arguments dims {num} _.

(** What [selectWordsForAxes] returns. *)
Record Selection (num : Type) := {
  indices : list nat;
  magnitudes : list num;
}.
Arguments indices {num} _.
Arguments magnitudes {num} _.

Module RawWord.
Record t (num : Type) := mk {
  word : option string;       (* [words[idx]], [undefined] out of range *)
  x : num;
  y : num;
  z : num;
}.
Arguments mk {num} _ _ _ _.
Arguments word {num} _.
Arguments x {num} _.
Arguments y {num} _.
Arguments z {num} _.
End RawWord.

Module ProjectedWord.
Record t (num : Type) := mk {
  word : option string;
  x : num;
  y : num;
  z : num;
  magnitude : num;
}.
Arguments mk {num} _ _ _ _ _.
Arguments word {num} _.
Arguments x {num} _.
Arguments y {num} _.
Arguments z {num} _.
Arguments magnitude {num} _.
End ProjectedWord.

Module Beacon.
Record t (num : Type) := mk {
  word : string;
  x : num;
  y : num;
  z : num;
  axis : string;
}.
Arguments mk {num} _ _ _ _ _.
Arguments word {num} _.
Arguments x {num} _.
Arguments y {num} _.
Arguments z {num} _.
Arguments axis {num} _.
End Beacon.

(** The running extremes of [getBeaconPositions]. *)
Record Extent (num : Type) := {
  maxX : num;
  minX : num;
  maxY : num;
  minY : num;
  maxZ : num;
  minZ : num;
}.
Arguments maxX {num} _.
Arguments minX {num} _.
Arguments maxY {num} _.
Arguments minY {num} _.
Arguments maxZ {num} _.
Arguments minZ {num} _.

(** The three sums of [cosineSimilarity]'s loop. *)
Record CosSums (num : Type) := {
  dot : num;
  magA : num;
  magB : num;
}.
Arguments dot {num} _.
Arguments magA {num} _.
Arguments magB {num} _.

(** [loadVocabulary] either returns the vocabulary or throws one of three
    errors. *)
Inductive LoadError :=
  | VocabMissing                          (* 'Could not load vocab.json. ...' *)
  | EmbeddingsMissing                     (* 'Could not load embeddings.bin. ...' *)
  | DimensionMismatch (floats nwords : nat). (* 'Dimension mismatch: ...' *)

(** A fetched response: its [ok] flag and its body. *)
Record Response (A : Type) := {
  ok : bool;
  body : A;
}.
Arguments ok {A} _.
Arguments body {A} _.

(** ** embeddings.js and projection.js *)

Section Engine.
Context {num : Type} {N : Number num}.
Local Open Scope num_scope.

Definition num0 : num := ofZ 0.
Definition num1 : num := ofZ 1.

(** A decimal literal [n/d]: the number nearest to the quotient (a
    division of two integers is correctly rounded), e.g. [1.2] is
    [decimal 12 10]. *)
Definition decimal (n d : Z) : num := ofZ n / ofZ d.

(** [x || d] on numbers: [0], [-0] and NaN are falsy. *)
Definition truthy (x : num) : bool := negb (x =? num0) && (x =? x).
Definition orElse (x d : num) : num := if truthy x then x else d.

(** [x ** 2]. *)
Definition square (x : num) : num := x * x.

(** [v[i]] in arithmetic: an index past the end reads [undefined]. *)
Definition read (v : list num) (i : nat) : num := default nan (v !! i).

(** *** embeddings.js *)

(** [loadVocabulary], given the two responses. *)
Definition loadVocabulary (vocabResp : Response (list string))
    (binResp : Response (list num)) : LoadError + VocabData num :=
  if negb (ok vocabResp) then inl VocabMissing else
  let words := body vocabResp in
  if negb (ok binResp) then inl EmbeddingsMissing else
  let vectors := body binResp in
  let dims := ofZ (Z.of_nat (length vectors)) / ofZ (Z.of_nat (length words)) in
  if negb (isInteger dims)
  then inl (DimensionMismatch (length vectors) (length words))
  else inr {| words := words; vectors := vectors; dims := toLength dims |}.

Definition cosineStep (a b : list num) (s : CosSums num) (i : nat) : CosSums num :=
  {| dot := dot s + read a i * read b i;
     magA := magA s + read a i * read a i;
     magB := magB s + read b i * read b i |}.

Definition cosineSums (a b : list num) : CosSums num :=
  foldl (cosineStep a b) {| dot := num0; magA := num0; magB := num0 |}
        (seq 0 (length a)).

Definition cosineSimilarity (a b : list num) : num :=
  let s := cosineSums a b in
  let magA := nsqrt (magA s) in
  let magB := nsqrt (magB s) in
  if (magA =? num0) || (magB =? num0) then num0
  else dot s / (magA * magB).

(** [vectors.subarray(start, start + dims)]: clamped to the buffer. *)
Definition getVector (index : nat) (vectors : list num) (dims : nat) : list num :=
  let start := (index * dims)%nat in
  take dims (drop start vectors).

(** *** projection.js *)

(** One coordinate: [cos(w, pos) - cos(w, neg)]. *)
Definition axisDiff (vec pos neg : list num) : num :=
  cosineSimilarity vec pos - cosineSimilarity vec neg.

(** The body of the scoring loop of [selectWordsForAxes] for the word
    [w] at index [i]: the value stored in [mags[i]]. *)
Definition relevance (vocabData : VocabData num) (axisVectors : SixAxes (list num))
    (axisWords : gset string) (i : nat) (w : string) : num :=
  if bool_decide (w ∈ axisWords) || negb (isQualityWord w)
  then fround (ofZ (-1))
  else
    let vec := getVector i (vectors vocabData) (dims vocabData) in
    let dx := axisDiff vec (xPos axisVectors) (xNeg axisVectors) in
    let dy := axisDiff vec (yPos axisVectors) (yNeg axisVectors) in
    let dz := axisDiff vec (zPos axisVectors) (zNeg axisVectors) in
    fround (nsqrt (dx * dx + dy * dy + dz * dz)).

(** [Array.prototype.sort] with a comparator: [a] goes before [b] when
    the comparator's value is negative (NaN counts as 0), and the sort
    is stable.  Each element is put after those already placed that it
    does not go before. *)
Fixpoint insertBy {A : Type} (cmp : A → A → num) (a : A) (l : list A) : list A :=
  match l with
  | [] => [a]
  | b :: l' => if cmp a b <? num0 then a :: b :: l' else b :: insertBy cmp a l'
  end.

Definition sortBy {A : Type} (cmp : A → A → num) (l : list A) : list A :=
  foldl (λ sorted a, insertBy cmp a sorted) [] l.

(** The loop that takes the top K: it stops at the end of [indices] or
    once [selected] holds [topK] entries, and skips every index whose
    stored magnitude is not positive. *)
Fixpoint takeTop (mags : list num) (topK : nat) (indices selected : list nat) : list nat :=
  match indices with
  | [] => selected
  | i :: rest =>
      if (length selected <? topK)%nat
      then (if read mags i >? num0
            then takeTop mags topK rest (selected ++ [i])
            else takeTop mags topK rest selected)
      else selected
  end.

Definition selectWordsForAxes (vocabData : VocabData num)
    (axisVectors : SixAxes (list num)) (axisWords : gset string) (topK : nat)
    : Selection num :=
  let n := length (words vocabData) in
  let mags := imap (relevance vocabData axisVectors axisWords) (words vocabData) in
  let indices := sortBy (λ a b, read mags b - read mags a) (seq 0 n) in
  let selected := takeTop mags topK indices [] in
  {| indices := selected; magnitudes := mags |}.

Definition defaultTopK : nat := 7000.

(** First pass of [projectWords]: the raw position of one index. *)
Definition rawPosition (vocabData : VocabData num) (axisVectors : SixAxes (list num))
    (idx : nat) : RawWord.t num :=
  let vec := getVector idx (vectors vocabData) (dims vocabData) in
  let x := axisDiff vec (xPos axisVectors) (xNeg axisVectors) in
  let y := axisDiff vec (yPos axisVectors) (yNeg axisVectors) in
  let z := axisDiff vec (zPos axisVectors) (zNeg axisVectors) in
  RawWord.mk (words vocabData !! idx) x y z.

(** [values.length] as a number. *)
Definition count (values : list num) : num := ofZ (Z.of_nat (length values)).

Definition mean (values : list num) : num :=
  foldl (λ a b, a + b) num0 values / count values.

Definition variance (values : list num) : num :=
  let mean := mean values in
  foldl (λ a v, a + square (v - mean)) num0 values / count values.

(** The inner [stddev] of [projectWords]. *)
Definition stddev (values : list num) : num :=
  orElse (nsqrt (variance values)) num1.

(** Second pass of [projectWords]. *)
Definition normalize (sdX sdY sdZ scale : num) (w : RawWord.t num) : ProjectedWord.t num :=
  let nx := (RawWord.x w / sdX) * scale in
  let ny := (RawWord.y w / sdY) * scale in
  let nz := (RawWord.z w / sdZ) * scale in
  let mag := nsqrt (square (RawWord.x w / sdX) + square (RawWord.y w / sdY)
                    + square (RawWord.z w / sdZ)) in
  ProjectedWord.mk (RawWord.word w) nx ny nz mag.

Definition projectWords (vocabData : VocabData num) (axisVectors : SixAxes (list num))
    (selectedIndices : list nat) (scale : num) : list (ProjectedWord.t num) :=
  let raw := map (rawPosition vocabData axisVectors) selectedIndices in
  let sdX := stddev (map RawWord.x raw) in
  let sdY := stddev (map RawWord.y raw) in
  let sdZ := stddev (map RawWord.z raw) in
  map (normalize sdX sdY sdZ scale) raw.

Definition defaultScale : num := ofZ 50.

(** One turn of the loop of [getBeaconPositions]. *)
Definition extend (e : Extent num) (w : ProjectedWord.t num) : Extent num :=
  let maxX := if ProjectedWord.x w >? maxX e then ProjectedWord.x w else maxX e in
  let minX := if ProjectedWord.x w <? minX e then ProjectedWord.x w else minX e in
  let maxY := if ProjectedWord.y w >? maxY e then ProjectedWord.y w else maxY e in
  let minY := if ProjectedWord.y w <? minY e then ProjectedWord.y w else minY e in
  let maxZ := if ProjectedWord.z w >? maxZ e then ProjectedWord.z w else maxZ e in
  let minZ := if ProjectedWord.z w <? minZ e then ProjectedWord.z w else minZ e in
  {| maxX := maxX; minX := minX; maxY := maxY; minY := minY; maxZ := maxZ; minZ := minZ |}.

Definition extent (projectedWords : list (ProjectedWord.t num)) : Extent num :=
  foldl extend
    {| maxX := num0; minX := num0; maxY := num0; minY := num0; maxZ := num0; minZ := num0 |}
    projectedWords.

Definition pad : num := decimal 12 10.

Definition getBeaconPositions (axes : SixAxes string)
    (projectedWords : list (ProjectedWord.t num)) : list (Beacon.t num) :=
  let e := extent projectedWords in
  [ Beacon.mk (xNeg axes) (minX e * pad) num0 num0 "x-";
    Beacon.mk (xPos axes) (maxX e * pad) num0 num0 "x+";
    Beacon.mk (yPos axes) num0 (maxY e * pad) num0 "y+";
    Beacon.mk (yNeg axes) num0 (minY e * pad) num0 "y-";
    Beacon.mk (zPos axes) num0 num0 (maxZ e * pad) "z+";
    Beacon.mk (zNeg axes) num0 num0 (minZ e * pad) "z-" ].

End Engine.

(** ** wordcloud.js: the level-of-detail pass *)

(** three.js's [Vector3], with the one method the pass calls. *)
Record Vector3 (num : Type) := {
  vx : num;
  vy : num;
  vz : num;
}.
Arguments vx {num} _.
Arguments vy {num} _.
Arguments vz {num} _.

(** What the pass reads and writes of a sprite: [sprite.position],
    [sprite.visible], [sprite.material.opacity] and [sprite.userData]. *)
Module Sprite.
Record t (num : Type) := mk {
  position : Vector3 num;
  visible : bool;
  opacity : num;
  word : string;
  baseOpacity : num;
}.
Arguments mk {num} _ _ _ _ _.
Arguments position {num} _.
Arguments visible {num} _.
Arguments opacity {num} _.
Arguments word {num} _.
Arguments baseOpacity {num} _.
End Sprite.

(** The four thresholds of [updateWordVisibility]. *)
Record LodOptions (num : Type) := {
  innerFade : num;
  nearDistance : num;
  farDistance : num;
  cullDistance : num;
}.
Arguments innerFade {num} _.
Arguments nearDistance {num} _.
Arguments farDistance {num} _.
Arguments cullDistance {num} _.

Section WordCloud.
Context {num : Type} {N : Number num}.
Local Open Scope num_scope.

Definition distanceTo (p v : Vector3 num) : num :=
  let dx := vx p - vx v in
  let dy := vy p - vy v in
  let dz := vz p - vz v in
  nsqrt (dx * dx + dy * dy + dz * dz).

(** [createWordSprite]: a new sprite is visible, its material has
    opacity 0.8 and its [userData] is [{ word, baseOpacity: 0.8 }]. *)
Definition createWordSprite (word : string) (x y z : num) : Sprite.t num :=
  Sprite.mk {| vx := x; vy := y; vz := z |} true (decimal 8 10) word (decimal 8 10).

Definition defaultLod : LodOptions num :=
  {| innerFade := ofZ 5; nearDistance := ofZ 15;
     farDistance := ofZ 150; cullDistance := ofZ 250 |}.

Definition setVisible (v : bool) (s : Sprite.t num) : Sprite.t num :=
  Sprite.mk (Sprite.position s) v (Sprite.opacity s) (Sprite.word s) (Sprite.baseOpacity s).

Definition setOpacity (o : num) (s : Sprite.t num) : Sprite.t num :=
  Sprite.mk (Sprite.position s) (Sprite.visible s) o (Sprite.word s) (Sprite.baseOpacity s).

(** The body of the loop of [updateWordVisibility], for a sprite at
    distance [dist] from the camera. *)
Definition classify (o : LodOptions num) (dist : num) (sprite : Sprite.t num) : Sprite.t num :=
  let baseOpacity := orElse (Sprite.baseOpacity sprite) (decimal 5 10) in
  if dist >? cullDistance o then
    setVisible false sprite
  else if dist >? farDistance o then
    let fade := num1 - (dist - farDistance o) / (cullDistance o - farDistance o) in
    setOpacity (baseOpacity * fade) (setVisible true sprite)
  else if dist <? innerFade o then
    setOpacity (baseOpacity * (dist / innerFade o) * decimal 5 10) (setVisible true sprite)
  else if dist <? nearDistance o then
    let fade := (dist - innerFade o) / (nearDistance o - innerFade o) in
    setOpacity (baseOpacity * (decimal 5 10 + fade * decimal 5 10)) (setVisible true sprite)
  else
    setOpacity baseOpacity (setVisible true sprite).

Definition updateWordVisibility (wordGroup : list (Sprite.t num))
    (cameraPosition : Vector3 num) (o : LodOptions num) : list (Sprite.t num) :=
  map (λ sprite, classify o (distanceTo (Sprite.position sprite) cameraPosition) sprite)
      wordGroup.

End WordCloud.

(** ** main.js: the launch handler *)

(** The texts the handler can put in the error element. *)
Inductive Message :=
  | StillLoading                 (* 'Still loading ... please wait...' *)
  | FillAllWords                 (* 'Please fill in all 6 words.' *)
  | LaunchError (message : string). (* `Error: ${err.message}` *)

(** What the handler does, in order. *)
Inductive Event :=
  | ShowError (m : Message)      (* a text put in the error element *)
  | Embed (word : string)        (* the model run on one axis word *)
  | Select (selected : nat)      (* [selectWordsForAxes] returned that many indices *)
  | Project (projected : nat).   (* [projectWords] returned that many words *)

(** The values of the six input fields, by element id. *)
Module Inputs.
Record t := mk {
  left : string;
  right : string;
  up : string;
  down : string;
  forward : string;
  backward : string;
}.
End Inputs.

(** What [startScene] is given and computes before it renders. *)
Record Scene (num : Type) := {
  axes : SixAxes string;
  axisVectors : SixAxes (list num);
  selectedIndices : list nat;
  projected : list (ProjectedWord.t num);
  beacons : list (Beacon.t num);
}.
Arguments axes {num} _.
Arguments axisVectors {num} _.
Arguments selectedIndices {num} _.
Arguments projected {num} _.
Arguments beacons {num} _.

(** The module state the handler reads: [vocabData], and the loaded
    feature-extraction pipeline ([modelReady] is set when it is).  The
    pipeline maps a word to its embedding, or throws. *)
Record App (num : Type) := {
  vocabData : option (VocabData num);
  pipeline : option (string → string + list num);
}.
Arguments vocabData {num} _.
Arguments pipeline {num} _.

Section Main.
Context {num : Type} {N : Number num}.

(** [embedWords]: one call of the pipeline per word, in order; the
    first that throws ends it. *)
Fixpoint embedWords (model : string → string + list num) (ws : list string)
    : list Event * (string + list (list num)) :=
  match ws with
  | [] => ([], inr [])
  | w :: rest =>
      match model w with
      | inl err => ([Embed w], inl err)
      | inr v =>
          let '(log, r) := embedWords model rest in
          (Embed w :: log,
           match r with inl err => inl err | inr vs => inr (v :: vs) end)
      end
  end.

Definition SCALE : num := ofZ 80.

(** The [Object.entries] of [axes], in the order the object is written. *)
Definition axisEntries (axes : SixAxes string) : list string :=
  [xNeg axes; xPos axes; yPos axes; yNeg axes; zPos axes; zNeg axes].

(** [String.prototype.trim] and [String.prototype.toLowerCase] as the
    browser computes them on the value of a field, whatever characters
    it holds: the white space and the letter cases of Unicode are the
    library's, not this program's.  The handler is read for any two such
    functions. *)
Variable jsTrim : string → string.
Variable jsToLowerCase : string → string.

(** The [axes] object the handler reads from the six fields. *)
Definition readAxes (inputs : Inputs.t) : SixAxes string :=
  {| xNeg := jsToLowerCase (jsTrim (Inputs.left inputs));
     xPos := jsToLowerCase (jsTrim (Inputs.right inputs));
     yPos := jsToLowerCase (jsTrim (Inputs.up inputs));
     yNeg := jsToLowerCase (jsTrim (Inputs.down inputs));
     zPos := jsToLowerCase (jsTrim (Inputs.forward inputs));
     zNeg := jsToLowerCase (jsTrim (Inputs.backward inputs)) |}.

(** What [startScene] computes before it renders. *)
Definition startScene (vocab : VocabData num) (axes : SixAxes string)
    (axisVectors : SixAxes (list num)) (selectedIndices : list nat) : Scene num :=
  let projected := projectWords vocab axisVectors selectedIndices SCALE in
  let beacons := getBeaconPositions axes projected in
  {| axes := axes; axisVectors := axisVectors; selectedIndices := selectedIndices;
     projected := projected; beacons := beacons |}.

(** The click handler of the launch button: the events it causes and
    the scene it starts, if it gets that far. *)
Definition launch (app : App num) (inputs : Inputs.t) : list Event * option (Scene num) :=
  match vocabData app, pipeline app with
  | Some vocab, Some model =>
      let axes := readAxes inputs in
      if existsb (λ word, bool_decide (word = EmptyString)) (axisEntries axes)
      then ([ShowError FillAllWords], None)
      else
        let axisWordList :=
          [xPos axes; xNeg axes; yPos axes; yNeg axes; zPos axes; zNeg axes] in
        match embedWords model axisWordList with
        | (log, inr [e0; e1; e2; e3; e4; e5]) =>
            let axisVectors := {| xPos := e0; xNeg := e1; yPos := e2;
                                  yNeg := e3; zPos := e4; zNeg := e5 |} in
            let axisWords : gset string := list_to_set (axisEntries axes) in
            let selectedIndices :=
              indices (selectWordsForAxes vocab axisVectors axisWords defaultTopK) in
            let scene := startScene vocab axes axisVectors selectedIndices in
            (log ++ [Select (length selectedIndices); Project (length (projected scene))],
             Some scene)
        | (log, inl err) => (log ++ [ShowError (LaunchError err)], None)
        | (log, inr _) => (log, None)   (* six words give six embeddings *)
        end
  | _, _ => ([ShowError StillLoading], None)
  end.

End Main.

(** ** The notions of the statements *)

Section Notions.
Context {num : Type} {N : Number num}.
Local Open Scope num_scope.

(** A stored magnitude the top-K loop accepts. *)
Definition isPositive (m : num) : Prop := (m >? num0) = true.

#[export] Instance isPositive_dec (m : num) : Decision (isPositive m).
Proof. unfold isPositive. apply _. Defined.

Definition positiveAt (mags : list num) (i : nat) : Prop := isPositive (read mags i).

#[export] Instance positiveAt_dec (mags : list num) (i : nat) :
  Decision (positiveAt mags i).
Proof. unfold positiveAt. apply _. Defined.

(** How many of the stored magnitudes are strictly positive. *)
Definition positiveCount (mags : list num) : nat := length (filter isPositive mags).

(** A vector all of whose components are zero. *)
Definition zeroVector (v : list num) : Prop := ∀ x, x ∈ v → (x =? num0) = true.

(** The greatest of 0 and the values [xs]: it is 0 or one of them, nothing
    exceeds it, and it is 0 when none of them exceeds 0. *)
Definition greatestFromZero (m : num) (xs : list num) : Prop :=
  (m = num0 ∨ m ∈ xs)
  ∧ (num0 >? m) = false
  ∧ (∀ v, v ∈ xs → (v >? m) = false)
  ∧ ((∀ v, v ∈ xs → (v >? num0) = false) → m = num0).

Definition leastFromZero (m : num) (xs : list num) : Prop :=
  (m = num0 ∨ m ∈ xs)
  ∧ (num0 <? m) = false
  ∧ (∀ v, v ∈ xs → (v <? m) = false)
  ∧ ((∀ v, v ∈ xs → (v <? num0) = false) → m = num0).

(** One component of [extent], run on the coordinates of one axis. *)
Definition runningMax (m : num) (xs : list num) : num :=
  foldl (λ m v, if v >? m then v else m) m xs.

Definition runningMin (m : num) (xs : list num) : num :=
  foldl (λ m v, if v <? m then v else m) m xs.

(** The sum of a list, added from the left, and its average. *)
Definition sumOf (values : list num) : num := foldl (λ a b, a + b) num0 values.

Definition average (values : list num) : num :=
  sumOf values / ofZ (Z.of_nat (length values)).

(** The population standard deviation of a list: the square root of the
    average of the squares of the deviations from the average. *)
Definition populationStdDev (values : list num) : num :=
  nsqrt (average (map (λ v, square (v - average values)) values)).

(** The raw coordinate of the word at [idx] on the axis from [neg] to
    [pos]: the difference of the cosine similarities of its vector to the
    two ends. *)
Definition rawCoordinate (vocabData : VocabData num) (pos neg : list num) (idx : nat)
    : num :=
  let vec := getVector idx (vectors vocabData) (dims vocabData) in
  cosineSimilarity vec pos - cosineSimilarity vec neg.

(** The axis ratio of a selected word: its raw coordinate in units of the
    standard deviation of that coordinate over the selection, the unit
    being 1 when that deviation is 0. *)
Definition axisRatio (vocabData : VocabData num) (pos neg : list num)
    (selectedIndices : list nat) (idx : nat) : num :=
  rawCoordinate vocabData pos neg idx
  / orElse (populationStdDev (map (rawCoordinate vocabData pos neg) selectedIndices)) num1.

Definition euclideanNorm (x y z : num) : num :=
  nsqrt (square x + square y + square z).


(** The coordinates of one axis after the normalization and before the
    scale factor: the ratios [w.x / sdX] of the second pass. *)
Definition normalized (raw : list num) : list num :=
  map (λ v, v / stddev raw) raw.


(** [sprite.userData.baseOpacity || 0.5]. *)
Definition effectiveBase (sprite : Sprite.t num) : num :=
  orElse (Sprite.baseOpacity sprite) (decimal 5 10).

(** The opacity and the visibility the pass leaves a sprite with, at a
    distance from the camera. *)
Definition opacityAt (o : LodOptions num) (sprite : Sprite.t num) (dist : num) : num :=
  Sprite.opacity (classify o dist sprite).

Definition visibleAt (o : LodOptions num) (sprite : Sprite.t num) (dist : num) : bool :=
  Sprite.visible (classify o dist sprite).

End Notions.

(** A word the selection may keep: not an axis word, and of quality. *)
Definition eligible (axisWords : gset string) (w : string) : Prop :=
  (w ∉ axisWords) ∧ (isQualityWord w = true).

#[export] Instance eligible_dec (axisWords : gset string) (w : string) :
  Decision (eligible axisWords w).
Proof. unfold eligible. apply _. Defined.

Definition eligibleCount {num : Type} (vocabData : VocabData num)
    (axisWords : gset string) : nat :=
  length (filter (eligible axisWords) (words vocabData)).

Definition lowercaseLetter (c : ascii) : Prop := (97 ≤ nat_of_ascii c ≤ 122)%nat.

(** A field whose word, as the handler reads it (trimmed, then in lower
    case), is empty: what [!word] tests. *)
Definition blank (jsTrim jsToLowerCase : string → string) (s : string) : Prop :=
  jsToLowerCase (jsTrim s) = EmptyString.

Definition anyBlank (jsTrim jsToLowerCase : string → string) (i : Inputs.t) : Prop :=
  let blank := blank jsTrim jsToLowerCase in
  blank (Inputs.left i) ∨ blank (Inputs.right i) ∨ blank (Inputs.up i) ∨ blank (Inputs.down i)
  ∨ blank (Inputs.forward i) ∨ blank (Inputs.backward i).

(** The six words in the order the handler embeds them. *)
Definition axisWordList (axes : SixAxes string) : list string :=
  [xPos axes; xNeg axes; yPos axes; yNeg axes; zPos axes; zNeg axes].

(** An event that is work of the pipeline, not an error shown. *)
Definition isWork (e : Event) : Prop :=
  match e with ShowError _ => False | _ => True end.

(** The result of a rounding to 53 digits: the mantissa [m] at the
    exponent [e], put back on 53 digits when the rounding carried to
    2^53. *)
Definition normal (s : bool) (m e : Z) : spec_float :=
  if (m =? 2 ^ 53)%Z then S754_finite s (2 ^ 52)%positive (e + 1)%Z
  else match m with Zpos p => S754_finite s p e | _ => S754_nan end.

(** ** embeddings.js: the model and its pipeline *)

(** The two models [loadModel] tries, in order. *)
Definition MODELS : list string :=
  ["Xenova/all-mpnet-base-v2"; "Xenova/all-MiniLM-L6-v2"].

(** What [loadModel] does, in order. *)
Inductive ModelEvent :=
  | Request (modelName : string)   (* [pipeline('feature-extraction', modelName, ...)] *)
  | Loaded (modelName : string)    (* 'Model loaded: ...', then [progressCallback(1)] *)
  | Warn (modelName : string).     (* [console.warn('Failed to load ...', err)] *)

(** 'Could not load any transformer model. Tried: ... ' *)
Inductive ModelError :=
  | NoModel (tried : list string).

(** What a run of [loadModel] leaves: its events, the module variable
    [_pipeline], and the error thrown if any. *)
Record ModelLoad (P : Type) := {
  events : list ModelEvent;
  _pipeline : option P;
  thrown : option ModelError;
}.
Arguments events {P} _.
Arguments _pipeline {P} _.
Arguments thrown {P} _.

Section Model.
Context {P : Type}.

(** [pipeline(...)] of Transformers.js: the loaded pipeline, or the
    message of the error it throws. *)
Variable factory : string → string + P.

(** The loop of [loadModel] over what is left of [models]. *)
Fixpoint tryModels (models rest : list string) (current : option P) : ModelLoad P :=
  match rest with
  | [] => {| events := []; _pipeline := current; thrown := None |}
  | modelName :: rest' =>
      match factory modelName with
      | inr p =>
          {| events := [Request modelName; Loaded modelName];
             _pipeline := Some p; thrown := None |}
      | inl _ =>
          if bool_decide (Some modelName = last models)
          then {| events := [Request modelName; Warn modelName];
                  _pipeline := current; thrown := Some (NoModel models) |}
          else
            let r := tryModels models rest' current in
            {| events := Request modelName :: Warn modelName :: events r;
               _pipeline := _pipeline r; thrown := thrown r |}
      end
  end.

Definition loadModel (current : option P) : ModelLoad P :=
  tryModels MODELS MODELS current.

End Model.

(** A model the factory can load. *)
Definition loads {P : Type} (factory : string → string + P) (modelName : string) : Prop :=
  ∃ p, factory modelName = inr p.

(** The six values of an [axes] or [axisVectors] object. *)
Definition axisList {A : Type} (a : SixAxes A) : list A :=
  [xPos a; xNeg a; yPos a; yNeg a; zPos a; zNeg a].

(** [embedWords] of embeddings.js, from the module variable: it throws
    before any call when no pipeline is loaded. *)
Definition embedWordsWith {num : Type} (current : option (string → string + list num))
    (ws : list string) : list Event * (string + list (list num)) :=
  match current with
  | None => ([], inl "Model not loaded. Call loadModel() first."%string)
  | Some model => embedWords model ws
  end.

(** ** wordcloud.js: the nearest words *)

(** An entry of [distances]. *)
Module Nearby.
Record t (num : Type) := mk {
  word : string;
  distance : num;
}.
Arguments mk {num} _ _.
Arguments word {num} _.
Arguments distance {num} _.
End Nearby.

Section Nearest.
Context {num : Type} {N : Number num}.
Local Open Scope num_scope.

Definition findNearbyWords (wordGroup : list (Sprite.t num)) (position : Vector3 num)
    (count : nat) : list (Nearby.t num) :=
  let distances :=
    map (λ sprite, Nearby.mk (Sprite.word sprite)
                     (distanceTo (Sprite.position sprite) position))
        (filter (λ sprite, Sprite.visible sprite = true) wordGroup) in
  take count (sortBy (λ a b, Nearby.distance a - Nearby.distance b) distances).

(** A sprite the pass has left visible, its entry in [distances], and a
    sprite that is not beyond the cull distance from the camera. *)
Definition shown (sprite : Sprite.t num) : Prop := Sprite.visible sprite = true.

#[export] Instance shown_dec (sprite : Sprite.t num) : Decision (shown sprite).
Proof. unfold shown. apply _. Defined.

Definition entry (position : Vector3 num) (sprite : Sprite.t num) : Nearby.t num :=
  Nearby.mk (Sprite.word sprite) (distanceTo (Sprite.position sprite) position).

Definition withinCull (o : LodOptions num) (cameraPosition : Vector3 num)
    (sprite : Sprite.t num) : Prop :=
  (distanceTo (Sprite.position sprite) cameraPosition >? cullDistance o) = false.

#[export] Instance withinCull_dec o cameraPosition sprite :
  Decision (withinCull o cameraPosition sprite).
Proof. unfold withinCull. apply _. Defined.

End Nearest.

(** ** axisgauge.js *)

(** What [update] writes for one row: the smoothed position it keeps in
    [currentT], the position of the dot in percent, the parameter at
    which the two end colours are blended ([lerpColor]), and the
    opacities of the two labels. *)
Module GaugeRow.
Record t (num : Type) := mk {
  currentT : num;
  dotLeft : num;
  blend : num;
  leftOpacity : num;
  rightOpacity : num;
}.
Arguments mk {num} _ _ _ _ _.
Arguments currentT {num} _.
Arguments dotLeft {num} _.
Arguments blend {num} _.
Arguments leftOpacity {num} _.
Arguments rightOpacity {num} _.
End GaugeRow.

Module Gauge.
Section Gauge.
Context {num : Type} {N : Number num}.
Local Open Scope num_scope.

Definition clamp (v lo hi : num) : num :=
  if v <? lo then lo else if v >? hi then hi else v.

(** The [invert] flags of [AXIS_CONFIG], by row. *)
Definition AXIS_INVERT : list bool := [false; false; true].

(** The position the dot of one row moves to: the camera's coordinate
    relative to the bounds of the axis. *)
Definition target (val min max : num) (invert : bool) : num :=
  let range := max - min in
  let t := if range =? num0 then decimal 5 10 else (val - min) / range in
  let t := if invert then num1 - t else t in
  clamp t num0 num1.

(** One turn of the loop of [update], for the row whose smoothed
    position is [current]. *)
Definition updateRow (current val min max : num) (invert : bool) : GaugeRow.t num :=
  let t := target val min max invert in
  let current := current + (t - current) * decimal 15 100 in
  let smoothT := clamp current num0 num1 in
  let leftProximity := num1 - smoothT in
  let rightProximity := smoothT in
  GaugeRow.mk current (smoothT * ofZ 100) smoothT
    (decimal 35 100 + leftProximity * decimal 65 100)
    (decimal 35 100 + rightProximity * decimal 65 100).

(** [update(cameraPosition)], from the three values of [currentT]. *)
Definition update (currentT : list num) (bounds : Extent num)
    (cameraPosition : Vector3 num) : list (GaugeRow.t num) :=
  let components :=
    [ (vx cameraPosition, minX bounds, maxX bounds);
      (vy cameraPosition, minY bounds, maxY bounds);
      (vz cameraPosition, minZ bounds, maxZ bounds) ] in
  zip_with (λ '(cur, invert) '(val, min, max), updateRow cur val min max invert)
           (zip currentT AXIS_INVERT) components.

(** The bounds and the smoothed positions a new gauge starts with. *)
Definition initialBounds : Extent num :=
  {| maxX := ofZ 100; minX := ofZ (-100); maxY := ofZ 100; minY := ofZ (-100);
     maxZ := ofZ 100; minZ := ofZ (-100) |}.

Definition initialT : list num := [decimal 5 10; decimal 5 10; decimal 5 10].

(** The smoothed position of one row after a number of frames, for a
    camera at rest. *)
Definition settle (val min max : num) (invert : bool) (frames : nat) (current : num) : num :=
  Nat.iter frames
    (λ current, GaugeRow.currentT (updateRow current val min max invert)) current.

End Gauge.
End Gauge.

(** ** flight.js *)

(** three.js's [Vector3]: the methods [FlightController] calls. *)
Section Vectors.
Context {num : Type} {N : Number num}.
Local Open Scope num_scope.

Definition vec (x y z : num) : Vector3 num := {| vx := x; vy := y; vz := z |}.

Definition addVectors (a b : Vector3 num) : Vector3 num :=
  vec (vx a + vx b) (vy a + vy b) (vz a + vz b).

Definition subVectors (a b : Vector3 num) : Vector3 num :=
  vec (vx a - vx b) (vy a - vy b) (vz a - vz b).

Definition multiplyScalar (v : Vector3 num) (s : num) : Vector3 num :=
  vec (vx v * s) (vy v * s) (vz v * s).

Definition divideScalar (v : Vector3 num) (s : num) : Vector3 num :=
  multiplyScalar v (num1 / s).

Definition vlength (v : Vector3 num) : num :=
  nsqrt (vx v * vx v + vy v * vy v + vz v * vz v).

(** [divideScalar(this.length() || 1)]. *)
Definition vnormalize (v : Vector3 num) : Vector3 num :=
  divideScalar v (orElse (vlength v) num1).

Definition addScaledVector (a v : Vector3 num) (s : num) : Vector3 num :=
  vec (vx a + vx v * s) (vy a + vy v * s) (vz a + vz v * s).

Definition lerpVectors (v1 v2 : Vector3 num) (alpha : num) : Vector3 num :=
  vec (vx v1 + (vx v2 - vx v1) * alpha)
      (vy v1 + (vy v2 - vy v1) * alpha)
      (vz v1 + (vz v2 - vz v1) * alpha).

Definition crossVectors (a b : Vector3 num) : Vector3 num :=
  vec (vy a * vz b - vz a * vy b)
      (vz a * vx b - vx a * vz b)
      (vx a * vy b - vy a * vx b).

(** [-x]: the sign is flipped, as by a product with -1. *)
Definition neg (x : num) : num := ofZ (-1) * x.

(** [x >= y]: false when either is NaN. *)
Definition geb (x y : num) : bool := negb (x <? y) && (x =? x) && (y =? y).

End Vectors.

(** [this.keys]. *)
Module Keys.
Record t := mk {
  forward : bool;
  backward : bool;
  left : bool;
  right : bool;
  up : bool;
  down : bool;
  boost : bool;
}.
End Keys.

(** The state of a [FlightController] and of the camera it moves.
    [_heldDigits] is a [Set]: its elements without repetition, in the
    order they were added. *)
Module Flight.
Record t (num Quat : Type) := mk {
  position : Vector3 num;           (* [camera.position] *)
  quaternion : Quat;                (* [camera.quaternion] *)
  isLocked : bool;                  (* [controls.isLocked] *)
  velocity : Vector3 num;
  _orientTarget : option Quat;
  _orientProgress : num;
  _orientStart : option Quat;
  _teleportTarget : option (Vector3 num);
  _teleportStart : option (Vector3 num);
  _teleportProgress : num;
  _heldDigits : list nat;
  beacons : list (Beacon.t num);
  keys : Keys.t;
}.
Arguments mk {num Quat} _ _ _ _ _ _ _ _ _ _ _ _ _.
Arguments position {num Quat} _.
Arguments quaternion {num Quat} _.
Arguments isLocked {num Quat} _.
Arguments velocity {num Quat} _.
Arguments _orientTarget {num Quat} _.
Arguments _orientProgress {num Quat} _.
Arguments _orientStart {num Quat} _.
Arguments _teleportTarget {num Quat} _.
Arguments _teleportStart {num Quat} _.
Arguments _teleportProgress {num Quat} _.
Arguments _heldDigits {num Quat} _.
Arguments beacons {num Quat} _.
Arguments keys {num Quat} _.
End Flight.

(** A handler either returns or throws a [TypeError], reading a property
    of [undefined] or of [null]. *)
Inductive Outcome (A : Type) :=
  | Returns (a : A)
  | TypeError.
Arguments Returns {A} _.
Arguments TypeError {A}.

Section FlightController.
Context {num : Type} {N : Number num} {Quat : Type}.
Local Open Scope num_scope.

(** What three.js computes on quaternions: the rotation that looks from
    a position at a target ([Matrix4.lookAt] with the up vector (0, 1, 0),
    then [setFromRotationMatrix]), [slerpQuaternions], the direction a
    camera with a given rotation looks in ([getWorldDirection]), and the
    rotation read as YXZ Euler angles and set again. *)
Variable lookQuat : Vector3 num → Vector3 num → Quat.
Variable slerpQuaternions : Quat → Quat → num → Quat.
Variable getWorldDirection : Quat → Vector3 num.
Variable syncEuler : Quat → Quat.

Local Abbreviation State := (Flight.t num Quat).

(** The tuning of the constructor. *)
Definition acceleration : num := decimal 12 10.
Definition damping : num := decimal 94 100.
Definition boostMultiplier : num := ofZ 3.
Definition maxSpeed : num := ofZ 6.
Definition _orientDuration : num := decimal 8 10.
Definition _teleportDuration : num := decimal 6 10.

(** [camera.up], which nothing changes. *)
Definition cameraUp : Vector3 num := vec num0 num1 num0.

Definition noKeys : Keys.t := Keys.mk false false false false false false false.

(** The controller the constructor makes for a camera. *)
Definition create (position : Vector3 num) (quaternion : Quat) : State :=
  Flight.mk position quaternion false (vec num0 num0 num0)
            None num0 None None None num0 [] [] noKeys.

Definition withKeys (k : Keys.t) (f : State) : State :=
  Flight.mk (Flight.position f) (Flight.quaternion f) (Flight.isLocked f)
    (Flight.velocity f) (Flight._orientTarget f) (Flight._orientProgress f)
    (Flight._orientStart f) (Flight._teleportTarget f) (Flight._teleportStart f)
    (Flight._teleportProgress f) (Flight._heldDigits f) (Flight.beacons f) k.

Definition withHeldDigits (ds : list nat) (f : State) : State :=
  Flight.mk (Flight.position f) (Flight.quaternion f) (Flight.isLocked f)
    (Flight.velocity f) (Flight._orientTarget f) (Flight._orientProgress f)
    (Flight._orientStart f) (Flight._teleportTarget f) (Flight._teleportStart f)
    (Flight._teleportProgress f) ds (Flight.beacons f) (Flight.keys f).

Definition withOrient (target : option Quat) (progress : num) (start : option Quat)
    (f : State) : State :=
  Flight.mk (Flight.position f) (Flight.quaternion f) (Flight.isLocked f)
    (Flight.velocity f) target progress start
    (Flight._teleportTarget f) (Flight._teleportStart f)
    (Flight._teleportProgress f) (Flight._heldDigits f) (Flight.beacons f) (Flight.keys f).

Definition withTeleport (target : option (Vector3 num)) (start : option (Vector3 num))
    (progress : num) (f : State) : State :=
  Flight.mk (Flight.position f) (Flight.quaternion f) (Flight.isLocked f)
    (Flight.velocity f) (Flight._orientTarget f) (Flight._orientProgress f)
    (Flight._orientStart f) target start progress
    (Flight._heldDigits f) (Flight.beacons f) (Flight.keys f).

Definition withVelocity (v : Vector3 num) (f : State) : State :=
  Flight.mk (Flight.position f) (Flight.quaternion f) (Flight.isLocked f)
    v (Flight._orientTarget f) (Flight._orientProgress f)
    (Flight._orientStart f) (Flight._teleportTarget f) (Flight._teleportStart f)
    (Flight._teleportProgress f) (Flight._heldDigits f) (Flight.beacons f) (Flight.keys f).

Definition withPosition (p : Vector3 num) (f : State) : State :=
  Flight.mk p (Flight.quaternion f) (Flight.isLocked f)
    (Flight.velocity f) (Flight._orientTarget f) (Flight._orientProgress f)
    (Flight._orientStart f) (Flight._teleportTarget f) (Flight._teleportStart f)
    (Flight._teleportProgress f) (Flight._heldDigits f) (Flight.beacons f) (Flight.keys f).

Definition withQuaternion (q : Quat) (f : State) : State :=
  Flight.mk (Flight.position f) q (Flight.isLocked f)
    (Flight.velocity f) (Flight._orientTarget f) (Flight._orientProgress f)
    (Flight._orientStart f) (Flight._teleportTarget f) (Flight._teleportStart f)
    (Flight._teleportProgress f) (Flight._heldDigits f) (Flight.beacons f) (Flight.keys f).

Definition setBeacons (beacons : list (Beacon.t num)) (f : State) : State :=
  Flight.mk (Flight.position f) (Flight.quaternion f) (Flight.isLocked f)
    (Flight.velocity f) (Flight._orientTarget f) (Flight._orientProgress f)
    (Flight._orientStart f) (Flight._teleportTarget f) (Flight._teleportStart f)
    (Flight._teleportProgress f) (Flight._heldDigits f) beacons (Flight.keys f).

Definition orientToward (targetPos : Vector3 num) (f : State) : State :=
  let targetQuat := lookQuat (Flight.position f) targetPos in
  withOrient (Some targetQuat) num0 (Some (Flight.quaternion f)) f.

Definition teleportTo (targetPos : Vector3 num) (f : State) : State :=
  let f := withOrient None (Flight._orientProgress f) (Flight._orientStart f) f in
  let f := withVelocity (vec num0 num0 num0) f in
  let offset :=
    multiplyScalar (vnormalize (subVectors (Flight.position f) targetPos)) (ofZ 20) in
  let arrivalPos := addVectors targetPos offset in
  let f := withTeleport (Some arrivalPos) (Some (Flight.position f)) num0 f in
  orientToward targetPos f.

Definition _getDigitIndex (code : string) : Z :=
  if bool_decide (code = "Digit1") then 0
  else if bool_decide (code = "Digit2") then 1
  else if bool_decide (code = "Digit3") then 2
  else if bool_decide (code = "Digit4") then 3
  else if bool_decide (code = "Digit5") then 4
  else if bool_decide (code = "Digit6") then 5
  else -1.

(** The movement keys of the two [switch] statements, set to [v]. *)
Definition setMoveKey (code : string) (v : bool) (k : Keys.t) : Keys.t :=
  if bool_decide (code = "KeyW") || bool_decide (code = "ArrowUp")
  then Keys.mk v (Keys.backward k) (Keys.left k) (Keys.right k) (Keys.up k) (Keys.down k) (Keys.boost k)
  else if bool_decide (code = "KeyS") || bool_decide (code = "ArrowDown")
  then Keys.mk (Keys.forward k) v (Keys.left k) (Keys.right k) (Keys.up k) (Keys.down k) (Keys.boost k)
  else if bool_decide (code = "KeyA") || bool_decide (code = "ArrowLeft")
  then Keys.mk (Keys.forward k) (Keys.backward k) v (Keys.right k) (Keys.up k) (Keys.down k) (Keys.boost k)
  else if bool_decide (code = "KeyD") || bool_decide (code = "ArrowRight")
  then Keys.mk (Keys.forward k) (Keys.backward k) (Keys.left k) v (Keys.up k) (Keys.down k) (Keys.boost k)
  else if bool_decide (code = "Space")
  then Keys.mk (Keys.forward k) (Keys.backward k) (Keys.left k) (Keys.right k) v (Keys.down k) (Keys.boost k)
  else if bool_decide (code = "KeyC")
  then Keys.mk (Keys.forward k) (Keys.backward k) (Keys.left k) (Keys.right k) (Keys.up k) v (Keys.boost k)
  else k.

Definition setBoost (v : bool) (k : Keys.t) : Keys.t :=
  Keys.mk (Keys.forward k) (Keys.backward k) (Keys.left k) (Keys.right k)
          (Keys.up k) (Keys.down k) v.

Definition isShift (code : string) : bool :=
  bool_decide (code = "ShiftLeft") || bool_decide (code = "ShiftRight").

(** [Set.prototype.add]. *)
Definition setAdd (i : nat) (s : list nat) : list nat :=
  if bool_decide (i ∈ s) then s else s ++ [i].

Definition beaconPosition (b : Beacon.t num) : Vector3 num :=
  vec (Beacon.x b) (Beacon.y b) (Beacon.z b).

Definition _onKeyDown (code : string) (f : State) : State :=
  let f :=
    if isShift code
    then withHeldDigits [] (withKeys (setBoost true (Flight.keys f)) f)
    else withKeys (setMoveKey code true (Flight.keys f)) f in
  let idx := _getDigitIndex code in
  if (0 <=? idx)%Z then
    match Flight.beacons f !! Z.to_nat idx with
    | Some b =>
        if Keys.boost (Flight.keys f)
        then withHeldDigits (setAdd (Z.to_nat idx) (Flight._heldDigits f)) f
        else orientToward (beaconPosition b) f
    | None => f
    end
  else f.

(** The loop that adds up the beacons of the held digits. *)
Fixpoint sumBeacons (beacons : list (Beacon.t num)) (held : list nat)
    (target : Vector3 num) : Outcome (Vector3 num) :=
  match held with
  | [] => Returns target
  | i :: rest =>
      match beacons !! i with
      | Some b =>
          sumBeacons beacons rest
            (vec (vx target + Beacon.x b) (vy target + Beacon.y b) (vz target + Beacon.z b))
      | None => TypeError
      end
  end.

Definition _onKeyUp (code : string) (f : State) : Outcome State :=
  if isShift code then
    let f := withKeys (setBoost false (Flight.keys f)) f in
    if (0 <? length (Flight._heldDigits f))%nat then
      match sumBeacons (Flight.beacons f) (Flight._heldDigits f) (vec num0 num0 num0) with
      | Returns target =>
          let target :=
            divideScalar target (ofZ (Z.of_nat (length (Flight._heldDigits f)))) in
          Returns (withHeldDigits [] (teleportTo target f))
      | TypeError => TypeError
      end
    else Returns f
  else Returns (withKeys (setMoveKey code false (Flight.keys f)) f).

Definition _easeInOut (t : num) : num :=
  if t <? decimal 5 10 then ofZ 2 * t * t
  else num1 - square (ofZ (-2) * t + ofZ 2) / ofZ 2.

(** The first part of [update]: the smooth turn. *)
Definition stepOrient (delta : num) (f : State) : Outcome State :=
  match Flight._orientTarget f with
  | Some target =>
      let progress := Flight._orientProgress f + delta / _orientDuration in
      if geb progress num1 then
        Returns (withOrient None progress None (withQuaternion (syncEuler target) f))
      else
        match Flight._orientStart f with
        | Some start =>
            let t := _easeInOut progress in
            Returns (withOrient (Some target) progress (Some start)
                       (withQuaternion (slerpQuaternions start target t) f))
        | None => TypeError
        end
  | None => Returns f
  end.

(** The second part: the smooth teleport. *)
Definition stepTeleport (delta : num) (f : State) : Outcome State :=
  match Flight._teleportTarget f with
  | Some target =>
      let progress := Flight._teleportProgress f + delta / _teleportDuration in
      if geb progress num1 then
        Returns (withTeleport None None progress (withPosition target f))
      else
        match Flight._teleportStart f with
        | Some start =>
            let t := _easeInOut progress in
            Returns (withTeleport (Some target) (Some start) progress
                       (withPosition (lerpVectors start target t) f))
        | None => TypeError
        end
  | None => Returns f
  end.

Definition pushIf (b : bool) (direction : Vector3 num) (s : num) (v : Vector3 num)
    : Vector3 num :=
  if b then addScaledVector v direction s else v.

(** The last part: forces, the speed limit, damping and the move. *)
Definition stepMove (delta : num) (f : State) : State :=
  let k := Flight.keys f in
  let accel := acceleration * (if Keys.boost k then boostMultiplier else num1) in
  let forward := getWorldDirection (Flight.quaternion f) in
  let right := vnormalize (crossVectors forward cameraUp) in
  let up := vec num0 num1 num0 in
  let v := Flight.velocity f in
  let v := pushIf (Keys.forward k) forward (accel * delta) v in
  let v := pushIf (Keys.backward k) forward (neg accel * delta) v in
  let v := pushIf (Keys.left k) right (neg accel * delta) v in
  let v := pushIf (Keys.right k) right (accel * delta) v in
  let v := pushIf (Keys.up k) up (accel * delta) v in
  let v := pushIf (Keys.down k) up (neg accel * delta) v in
  let speed := vlength v in
  let v :=
    if speed >? maxSpeed * (if Keys.boost k then boostMultiplier else num1)
    then multiplyScalar v (maxSpeed / speed) else v in
  let v := multiplyScalar v damping in
  withPosition (addScaledVector (Flight.position f) v (delta * ofZ 60))
               (withVelocity v f).

Definition update (delta : num) (f : State) : Outcome State :=
  if negb (Flight.isLocked f) then Returns f else
  match stepOrient delta f with
  | Returns f =>
      match stepTeleport delta f with
      | Returns f => Returns (stepMove delta f)
      | TypeError => TypeError
      end
  | TypeError => TypeError
  end.

(** What the handlers rely on: every held digit is the index of a
    beacon, no digit is held twice, and a turn or a teleport under way
    has its start recorded. *)
Definition consistent (f : Flight.t num Quat) : Prop :=
  NoDup (Flight._heldDigits f)
  ∧ Forall (λ i, (i < length (Flight.beacons f))%nat) (Flight._heldDigits f)
  ∧ (is_Some (Flight._orientTarget f) → is_Some (Flight._orientStart f))
  ∧ (is_Some (Flight._teleportTarget f) → is_Some (Flight._teleportStart f)).

(** What happens to a controller: a key goes down or up, or a frame is
    drawn; the pointer is locked or released. *)
Inductive Input :=
  | KeyDown (code : string)
  | KeyUp (code : string)
  | Frame (delta : num)
  | Lock (locked : bool).

Definition setLocked (locked : bool) (f : Flight.t num Quat) : Flight.t num Quat :=
  Flight.mk (Flight.position f) (Flight.quaternion f) locked
    (Flight.velocity f) (Flight._orientTarget f) (Flight._orientProgress f)
    (Flight._orientStart f) (Flight._teleportTarget f) (Flight._teleportStart f)
    (Flight._teleportProgress f) (Flight._heldDigits f) (Flight.beacons f) (Flight.keys f).

Definition handle (i : Input) (f : Flight.t num Quat) : Outcome (Flight.t num Quat) :=
  match i with
  | KeyDown code => Returns (_onKeyDown code f)
  | KeyUp code => _onKeyUp code f
  | Frame delta => update delta f
  | Lock locked => Returns (setLocked locked f)
  end.

Fixpoint run (inputs : list Input) (f : Flight.t num Quat) : Outcome (Flight.t num Quat) :=
  match inputs with
  | [] => Returns f
  | i :: rest =>
      match handle i f with
      | Returns f => run rest f
      | TypeError => TypeError
      end
  end.

End FlightController.

(** The codes of the six digit keys, in order. *)
Definition DIGITS : list string :=
  ["Digit1"; "Digit2"; "Digit3"; "Digit4"; "Digit5"; "Digit6"]%string.

(** The beacons of the held digits, in the order the digits were pressed. *)
Definition chosen {num : Type} (beacons : list (Beacon.t num)) (held : list nat)
    : list (Beacon.t num) :=
  omap (λ i, beacons !! i) held.

(** The sum of a list of reals. *)
Definition total (xs : list R) : R := foldr Rplus 0%R xs.

(** The speed a frame can leave, by the state of the boost key. *)
Definition speedLimit {num : Type} {N : Number num} (k : Keys.t) : num :=
  (damping * (maxSpeed * (if Keys.boost k then boostMultiplier else num1)))%num.

(** ** scripts: the word list and the embedding file *)

(** A class of characters, [[...]] or [[^...]], as a list of ranges. *)
Record CharClass := {
  negated : bool;
  ranges : list (ascii * ascii);
}.

Definition inClass (k : CharClass) (c : ascii) : bool :=
  xorb (negated k) (existsb (λ r, inRange r.1 r.2 c) (ranges k)).

(** [/k/.test(s)], for a pattern that is one class: some character is
    in it. *)
Definition testSome (k : CharClass) (s : string) : bool :=
  existsb (inClass k) (list_ascii_of_string s).

(** [/^k+$/.test(s)]: [s] is not empty and all its characters are in
    the class. *)
Definition testAll (k : CharClass) (s : string) : bool :=
  negb (bool_decide (s = EmptyString)) && forallb (inClass k) (list_ascii_of_string s).

Definition digit : CharClass := {| negated := false; ranges := [("0"%char, "9"%char)] |}.
Definition notPrintable : CharClass := {| negated := true; ranges := [(" "%char, "~"%char)] |}.
Definition letter : CharClass := {| negated := false; ranges := [("a"%char, "z"%char); ("A"%char, "Z"%char)] |}.
Definition notLower : CharClass := {| negated := true; ranges := [("a"%char, "z"%char)] |}.
Definition notWordChar : CharClass :=
  {| negated := true; ranges := [("a"%char, "z"%char); ("'"%char, "'"%char); ("-"%char, "-"%char)] |}.

(** The characters the filters tell apart. *)
Definition between (lo hi : ascii) (c : ascii) : Prop :=
  (nat_of_ascii lo ≤ nat_of_ascii c ≤ nat_of_ascii hi)%nat.

Definition printable (c : ascii) : Prop := between " " "~" c.
Definition isLetter (c : ascii) : Prop := between "a" "z" c ∨ between "A" "Z" c.
Definition isDigit (c : ascii) : Prop := between "0" "9" c.
Definition wordChar (c : ascii) : Prop :=
  lowercaseLetter c ∨ c = "'"%char ∨ c = "-"%char.

(** [isCleanWord] of curate-wordlist.js. *)
Definition isCleanWord (word : string) : bool :=
  if (String.length word <=? 1)%nat then false
  else if testAll digit word then false
  else if testSome notPrintable word then false
  else if negb (testSome letter word) then false
  else true.

(** [isGoodWord] of process-glove.js. *)
Definition isGoodWord (word : string) : bool :=
  if (String.length word <? 2)%nat then false
  else if testAll digit word then false
  else if testAll notLower word then false
  else if testSome notWordChar word then false
  else true.

(** [s.indexOf(c)], -1 when [c] does not occur. *)
Fixpoint indexOf (c : ascii) (s : string) : Z :=
  match s with
  | EmptyString => -1
  | String d s' =>
      if bool_decide (d = c) then 0
      else let i := indexOf c s' in if (i =? -1)%Z then -1 else (i + 1)%Z
  end.

(** The first token of a line. *)
Definition firstToken (line : string) : string :=
  let spaceIdx := indexOf " " line in
  if (spaceIdx =? -1)%Z then line else substring 0 (Z.to_nat spaceIdx) line.

Definition TARGET_COUNT : nat := 50000.

Definition clean (word : string) : Prop := isCleanWord word = true.

#[export] Instance clean_dec (word : string) : Decision (clean word).
Proof. unfold clean. apply _. Defined.

(** A word that is not empty and has no white space. *)
Definition solid (word : string) : Prop :=
  word ≠ EmptyString
  ∧ Forall (λ c, isWhiteSpace c = false) (list_ascii_of_string word).

(** The reading loop of curate-wordlist.js, on the lines of the file:
    the words collected and the lines read. *)
Fixpoint collect (target : nat) (lines : list string) (words : list string)
    (linesRead : nat) : list string * nat :=
  match lines with
  | [] => (words, linesRead)
  | line :: rest =>
      let linesRead := S linesRead in
      let word := firstToken line in
      if isCleanWord word then
        let words := words ++ [word] in
        if (target <=? length words)%nat then (words, linesRead)
        else collect target rest words linesRead
      else collect target rest words linesRead
  end.

Definition curate (lines : list string) : list string * nat :=
  collect TARGET_COUNT lines [] 0.

(** [words.join(sep)]. *)
Fixpoint join (sep : string) (words : list string) : string :=
  match words with
  | [] => EmptyString
  | [w] => w
  | w :: rest => w ++ sep ++ join sep rest
  end.

(** [s.split(c)], for a separator of one character. *)
Fixpoint split (c : ascii) (s : string) : list string :=
  match s with
  | EmptyString => [EmptyString]
  | String d s' =>
      if bool_decide (d = c) then EmptyString :: split c s'
      else match split c s' with
           | piece :: pieces => String d piece :: pieces
           | [] => [String d EmptyString]
           end
  end.

Definition newline : ascii := ascii_of_nat 10.

(** What curate-wordlist.js writes to the word list. *)
Definition wordlistText (words : list string) : string :=
  join (String newline EmptyString) words ++ String newline EmptyString.

(** What build-embeddings.js reads of it. *)
Definition readWordlist (raw : string) : list string := split newline (trim raw).

(** What ends build-embeddings.js early. *)
Inductive BuildError :=
  | ExtractorError (message : string)
  | RangeError.                          (* 'offset is out of bounds' *)

Section BuildEmbeddings.
Context {num : Type} {N : Number num}.

(** The feature extractor: [output.data] for a word, or the message of
    the error it throws. *)
Variable extractor : string → string + list num.

Definition BATCH_SIZE : nat := 64.

(** [embeddings.set(vec, offset)] on a [Float32Array]. *)
Definition typedSet (embeddings vec : list num) (offset : nat) : option (list num) :=
  if (offset + length vec <=? length embeddings)%nat
  then Some (take offset embeddings ++ map fround vec
             ++ drop (offset + length vec) embeddings)
  else None.

(** The inner loop, over the words of one batch. *)
Fixpoint embedBatch (dims i : nat) (batch : list string) (j : nat)
    (embeddings : list num) : BuildError + list num :=
  match batch with
  | [] => inr embeddings
  | w :: rest =>
      let wordIdx := (i + j)%nat in
      match extractor w with
      | inl message => inl (ExtractorError message)
      | inr vec =>
          match typedSet embeddings vec (wordIdx * dims) with
          | Some embeddings => embedBatch dims i rest (S j) embeddings
          | None => inl RangeError
          end
      end
  end.

(** The outer loop, from the index [i]; it makes at most [turns] turns. *)
Fixpoint embedFrom (turns : nat) (dims : nat) (words : list string) (i : nat)
    (embeddings : list num) : BuildError + list num :=
  match turns with
  | O => inr embeddings
  | S turns =>
      if (i <? length words)%nat then
        let batch := take BATCH_SIZE (drop i words) in
        match embedBatch dims i batch 0 embeddings with
        | inr embeddings => embedFrom turns dims words (i + BATCH_SIZE) embeddings
        | inl e => inl e
        end
      else inr embeddings
  end.

(** The buffer build-embeddings.js writes to embeddings.bin. *)
Definition buildEmbeddings (dims : nat) (words : list string) : BuildError + list num :=
  let totalFloats := (length words * dims)%nat in
  embedFrom (length words) dims words 0 (replicate totalFloats num0).

(** The row of a word in the file, and the buffer once the first [k]
    words are embedded. *)
Definition row (w : string) : list num :=
  match extractor w with
  | inr v => map fround v
  | inl _ => []
  end.

Definition partial (dims : nat) (words : list string) (k : nat) : list num :=
  concat (map row (take k words)) ++ replicate ((length words - k) * dims) num0.

End BuildEmbeddings.

(** ** minimap.js *)

(** three.js's [Color]: its three channels. *)
Module Color.
Record t (num : Type) := mk {
  r : num;
  g : num;
  b : num;
}.
Arguments mk {num} _ _ _.
Arguments r {num} _.
Arguments g {num} _.
Arguments b {num} _.
End Color.

Section Math.
Context {num : Type} {N : Number num}.
Local Open Scope num_scope.

(** [-0], which [=== 0] does not tell from [0]: its inverse is negative. *)
Definition isNegativeZero (x : num) : bool := (x =? num0) && (num1 / x <? num0).

(** [Math.max(a, b)] and [Math.min(a, b)]: NaN if either is, and [-0]
    below [0]. *)
Definition Math_max (a b : num) : num :=
  if negb (a =? a) then a
  else if negb (b =? b) then b
  else if a <? b then b
  else if b <? a then a
  else if isNegativeZero a then b else a.

Definition Math_min (a b : num) : num :=
  if negb (a =? a) then a
  else if negb (b =? b) then b
  else if a <? b then a
  else if b <? a then b
  else if isNegativeZero a then a else b.

(** [Vector3.dot] and [Vector3.clampScalar]. *)
Definition vdot (a b : Vector3 num) : num :=
  vx a * vx b + vy a * vy b + vz a * vz b.

Definition clampScalar (v : Vector3 num) (minVal maxVal : num) : Vector3 num :=
  vec (Math_max minVal (Math_min maxVal (vx v)))
      (Math_max minVal (Math_min maxVal (vy v)))
      (Math_max minVal (Math_min maxVal (vz v))).

End Math.

Module Minimap.
Section Minimap.
Context {num : Type} {N : Number num}.
Local Open Scope num_scope.

(** [new THREE.Color(AXIS_COLORS[key])], by axis. *)
Variable axisColor : SixAxes (Color.t num).

(** The bounds a new minimap starts with. *)
Definition initialMin : Vector3 num := vec (ofZ (-100)) (ofZ (-100)) (ofZ (-100)).
Definition initialMax : Vector3 num := vec (ofZ 100) (ofZ 100) (ofZ 100).

Definition worldToMinimap (boundsMin boundsMax worldPos : Vector3 num) : Vector3 num :=
  let x := ((vx worldPos - vx boundsMin) / (vx boundsMax - vx boundsMin)) * ofZ 2 - num1 in
  let y := ((vy worldPos - vy boundsMin) / (vy boundsMax - vy boundsMin)) * ofZ 2 - num1 in
  let z := ((vz worldPos - vz boundsMin) / (vz boundsMax - vz boundsMin)) * ofZ 2 - num1 in
  vec x y z.

(** [colorEntries]: the direction and the colour of each axis. *)
Definition colorEntries : list (Vector3 num * Color.t num) :=
  [ (vec num1 num0 num0, xPos axisColor);
    (vec (ofZ (-1)) num0 num0, xNeg axisColor);
    (vec num0 num1 num0, yPos axisColor);
    (vec num0 (ofZ (-1)) num0, yNeg axisColor);
    (vec num0 num0 num1, zPos axisColor);
    (vec num0 num0 (ofZ (-1)), zNeg axisColor) ].

(** The sums of the loop of [getDotColor]. *)
Definition blendStep (minimapPos : Vector3 num) (acc : Color.t num * num)
    (entry : Vector3 num * Color.t num) : Color.t num * num :=
  let '(result, totalWeight) := acc in
  let '(dir, color) := entry in
  let weight := Math_max num0 (vdot minimapPos dir) in
  (Color.mk (Color.r result + Color.r color * weight)
            (Color.g result + Color.g color * weight)
            (Color.b result + Color.b color * weight),
   totalWeight + weight).

Definition getDotColor (minimapPos : Vector3 num) : Color.t num :=
  let '(result, totalWeight) :=
    foldl (blendStep minimapPos)
          (Color.mk num0 num0 num0, num0) colorEntries in
  if totalWeight >? num0
  then Color.mk (Color.r result / totalWeight) (Color.g result / totalWeight)
                (Color.b result / totalWeight)
  else Color.mk num1 num1 num1.

(** [update(cameraPosition)]: where the dot is put and its colour. *)
Definition update (boundsMin boundsMax cameraPosition : Vector3 num)
    : Vector3 num * Color.t num :=
  let mapped := worldToMinimap boundsMin boundsMax cameraPosition in
  let mapped := clampScalar mapped (ofZ (-1)) num1 in
  (mapped, getDotColor mapped).

End Minimap.
End Minimap.

(** A position within bounds, axis by axis. *)
Definition inside (lo hi p : Vector3 R) : Prop :=
  (vx lo <= vx p <= vx hi ∧ vy lo <= vy p <= vy hi ∧ vz lo <= vz p <= vz hi)%R.

Definition white : Color.t R := Color.mk 1%R 1%R 1%R.

(** The weights of the six axes, in the order of [colorEntries]. *)
Definition weights (p : Vector3 R) : list R :=
  [Rmax 0 (vx p); Rmax 0 (- vx p); Rmax 0 (vy p); Rmax 0 (- vy p);
   Rmax 0 (vz p); Rmax 0 (- vz p)]%R.

Definition weighted (channel : Color.t R → R) (cs : list (Color.t R)) (ws : list R) : R :=
  foldr Rplus 0%R (zip_with (λ c w, channel c * w)%R cs ws).

(** A colour with its three channels between 0 and 1. *)
Definition unitColor (c : Color.t R) : Prop :=
  (0 <= Color.r c <= 1 ∧ 0 <= Color.g c <= 1 ∧ 0 <= Color.b c <= 1)%R.

(** ** Sorted lists, in exact arithmetic *)

Definition ascending {A : Type} (key : A → R) : list A → Prop :=
  StronglySorted (λ a b, (key a <= key b)%R).

(** The three sums of [cosineSimilarity] after [n] turns of its loop. *)
Definition sums (a b : list R) (n : nat) : CosSums R :=
  foldl (cosineStep a b) {| dot := 0%R; magA := 0%R; magB := 0%R |} (seq 0 n).

(** ** Concrete inputs *)

(** Two words on the plane; "cat" is orthogonal to every axis below. *)
Definition twoWords : VocabData float :=
  {| words := ["cat"; "dog"]; vectors := [1; 0; 0; 1]%float; dims := 2 |}.

Definition upDown : SixAxes (list float) :=
  {| xPos := [0; 1]%float; xNeg := [0; -1]%float;
     yPos := [0; 1]%float; yNeg := [0; 1]%float;
     zPos := [0; 1]%float; zNeg := [0; 1]%float |}.

(** The vocabulary of the end-to-end scenario of the specification. *)
Definition toyVocab : VocabData float :=
  {| words := ["love"; "hate"; "big"; "small"; "cat"];
     vectors := [1; 0;  -1; 0;  0; 1;  0; -1;  1; 2]%float;
     dims := 2 |}.

(** A stand-in for the feature-extraction model; it embeds "void" as the
    zero vector. *)
Definition toyEmbedding (w : string) : list float :=
  (if bool_decide (w = "big") then [0; 1]
   else if bool_decide (w = "small") then [0; -1]
   else if bool_decide (w = "love") then [1; 0]
   else if bool_decide (w = "hate") then [-1; 0]
   else if bool_decide (w = "void") then [0; 0]
   else [1; 1])%float.

Definition toyModel (w : string) : string + list float := inr (toyEmbedding w).

Definition toyApp : App float :=
  {| vocabData := Some toyVocab; pipeline := Some toyModel |}.

Definition voidInputs : Inputs.t :=
  {| Inputs.left := "small"; Inputs.right := "big"; Inputs.up := "love"; Inputs.down := "hate";
     Inputs.forward := "near"; Inputs.backward := "void" |}.

(** Six entries, four distinct words. *)
Definition repeatedInputs : Inputs.t :=
  {| Inputs.left := "small"; Inputs.right := "big"; Inputs.up := "love"; Inputs.down := "hate";
     Inputs.forward := " Big"; Inputs.backward := "small" |}.

Definition blankInputs : Inputs.t :=
  {| Inputs.left := "small"; Inputs.right := "big"; Inputs.up := "love"; Inputs.down := "hate";
     Inputs.forward := "  "; Inputs.backward := "void" |}.



(** Two opposite words on a line, in exact arithmetic; the second and
    third axes are degenerate. *)
Definition lineVocab : VocabData R :=
  {| words := ["up"; "down"]; vectors := [1; -1]%R; dims := 1 |}.

Definition lineAxes : SixAxes (list R) :=
  {| xPos := [1]%R; xNeg := [-1]%R; yPos := [1]%R; yNeg := [1]%R;
     zPos := [1]%R; zNeg := [1]%R |}.

(** Axis vectors of one component, shorter than the rows of [toyVocab]. *)
Definition shortAxes : SixAxes (list float) :=
  {| xPos := [1]%float; xNeg := [-1]%float; yPos := [1]%float; yNeg := [1]%float;
     zPos := [1]%float; zNeg := [1]%float |}.

(** A controller at the origin with the beacons of [voidInputs], before
    any word is projected; rotations are not told apart. *)
Definition parkedFlight : Flight.t float unit :=
  setBeacons (getBeaconPositions (readAxes trim toLowerCase voidInputs) [])
             (create (vec 0%float 0%float 0%float) tt).

(** The same in exact arithmetic: with the pointer locked, and with the
    digit of the first beacon held. *)
Definition lockedFlight : Flight.t R unit :=
  setLocked true (create (vec 0%R 0%R 0%R) tt).

Definition heldFlight : Flight.t R unit :=
  withHeldDigits [0%nat]
    (setBeacons (getBeaconPositions (readAxes trim toLowerCase voidInputs) [])
                (create (vec 0%R 0%R 0%R) tt)).

(** * Properties *)

(** ** The number helpers, on examples *)

Example fround_examples :
  map (fround (num := float)) [0.1; 1e-50; 1e40; -1; 16777217; 0.5]%float
  = [0.10000000149011612; 0; infinity; -1; 16777216; 0.5]%float.
Proof. reflexivity. Qed.

Example isInteger_examples :
  map (isInteger (num := float)) [3; 2.5; 0; -0; 1e300; 0.5; infinity; PrimFloat.nan]%float
  = [true; false; true; true; true; false; false; false].
Proof. reflexivity. Qed.

Example decimal_examples :
  (decimal 12 10, decimal 5 10, decimal 8 10) = (1.2, 0.5, 0.8)%float.
Proof. reflexivity. Qed.

Example trim_examples :
  (trim "  Big ", toLowerCase (trim "  Big "), trim "   ") = ("Big", "big", "")%string.
Proof. reflexivity. Qed.

(** The filter on the example of the specification. *)
Example isQualityWord_examples :
  map isQualityWord ["ok"; "don't"; "PARIS"; "run"; "a-b"; "abc1"; "abcdefghijklmnop"]
  = [false; false; false; true; false; false; false].
Proof. reflexivity. Qed.

(** ** Sorting and the top-K loop, at any instance *)

Section Selection.
Context {num : Type} {N : Number num}.
Local Open Scope num_scope.

Lemma insertBy_perm {A : Type} (cmp : A → A → num) (a : A) (l : list A) :
  insertBy cmp a l ≡ₚ a :: l.
Proof.
  induction l as [|b l IH]; simpl; [done|].
  destruct (cmp a b <? num0); [done|].
  rewrite IH. apply Permutation_swap.
Qed.

(** The sort rearranges, whatever the comparator answers. *)
Lemma sortBy_perm {A : Type} (cmp : A → A → num) (l : list A) :
  sortBy cmp l ≡ₚ l.
Proof.
  unfold sortBy.
  cut (∀ acc, foldl (λ sorted a, insertBy cmp a sorted) acc l ≡ₚ acc ++ l).
  { intros H. apply (H []). }
  induction l as [|a l IH]; intros acc; simpl.
  - by rewrite app_nil_r.
  - rewrite IH, insertBy_perm. simpl. apply Permutation_middle.
Qed.

(** The loop appends the first positive entries, up to the cap. *)
Lemma takeTop_spec (mags : list num) (topK : nat) (indices selected : list nat) :
  takeTop mags topK indices selected
  = selected ++ take (topK - length selected) (filter (positiveAt mags) indices).
Proof.
  revert selected. induction indices as [|i rest IH]; intros selected; simpl.
  - by rewrite filter_nil, take_nil, app_nil_r.
  - destruct (Nat.ltb_spec (length selected) topK) as [Hlt|Hge].
    + rewrite filter_cons. destruct (decide (positiveAt mags i)) as [Hpos|Hpos].
      * unfold positiveAt, isPositive in Hpos. rewrite Hpos, IH, length_app. simpl.
        replace (topK - length selected)%nat with (S (topK - (length selected + 1))) by lia.
        simpl. by rewrite <- app_assoc.
      * unfold positiveAt, isPositive in Hpos. apply not_true_is_false in Hpos.
        rewrite Hpos. apply IH.
    + replace (topK - length selected)%nat with 0%nat by lia.
      by rewrite take_0, app_nil_r.
Qed.

Lemma read_seq (mags : list num) :
  map (read mags) (seq 0 (length mags)) = mags.
Proof.
  apply list_eq. intros i. rewrite list_lookup_fmap.
  destruct (decide (i < length mags)%nat) as [Hi|Hi].
  - rewrite lookup_seq_lt by done. simpl. unfold read.
    destruct (lookup_lt_is_Some_2 mags i Hi) as [x Hx]. by rewrite Hx.
  - rewrite lookup_seq_ge by lia. simpl. symmetry. apply lookup_ge_None. lia.
Qed.

Lemma length_filter_map {A B : Type} (f : A → B) (P : B → Prop)
    `{!∀ x, Decision (P x)} (l : list A) :
  length (filter P (map f l)) = length (filter (λ a, P (f a)) l).
Proof.
  induction l as [|a l IH]; simpl; [done|].
  rewrite !filter_cons. destruct (decide (P (f a))); simpl; by rewrite IH.
Qed.

Lemma positive_seq_count (mags : list num) :
  length (filter (positiveAt mags) (seq 0 (length mags))) = positiveCount mags.
Proof.
  unfold positiveCount.
  etrans; [|apply (f_equal (λ l, length (filter isPositive l)) (read_seq mags))].
  symmetry. exact (length_filter_map (read mags) isPositive _).
Qed.

(** What [selectWordsForAxes] returns: the first [topK] positive entries
    of a rearrangement of all indices. *)
Lemma selected_spec vocabData axisVectors axisWords topK :
  let r := selectWordsForAxes vocabData axisVectors axisWords topK in
  ∃ sorted, sorted ≡ₚ seq 0 (length (words vocabData)) ∧
    indices r = take topK (filter (positiveAt (magnitudes r)) sorted).
Proof.
  simpl. eexists. split; [apply sortBy_perm|].
  rewrite takeTop_spec. simpl. by rewrite Nat.sub_0_r.
Qed.

Lemma selected_length vocabData axisVectors axisWords topK :
  let r := selectWordsForAxes vocabData axisVectors axisWords topK in
  length (indices r) = topK `min` positiveCount (magnitudes r).
Proof.
  intros r. destruct (selected_spec vocabData axisVectors axisWords topK) as (sorted & Hperm & Hsel).
  fold r in Hsel. rewrite Hsel, length_take. f_equal.
  rewrite Hperm.
  replace (length (words vocabData)) with (length (magnitudes r))
    by (subst r; simpl; apply length_imap).
  apply positive_seq_count.
Qed.

Lemma selected_NoDup vocabData axisVectors axisWords topK :
  NoDup (indices (selectWordsForAxes vocabData axisVectors axisWords topK)).
Proof.
  destruct (selected_spec vocabData axisVectors axisWords topK) as (sorted & Hperm & Hsel).
  rewrite Hsel. eapply sublist_NoDup; [|apply sublist_take].
  apply NoDup_filter. rewrite Hperm. apply NoDup_seq.
Qed.

(** Under the cap, every positive entry is returned. *)
Lemma selected_all vocabData axisVectors axisWords topK :
  let r := selectWordsForAxes vocabData axisVectors axisWords topK in
  positiveCount (magnitudes r) ≤ topK →
  indices r ≡ₚ filter (positiveAt (magnitudes r)) (seq 0 (length (words vocabData))).
Proof.
  intros r Hle.
  destruct (selected_spec vocabData axisVectors axisWords topK) as (sorted & Hperm & Hsel).
  fold r in Hsel. rewrite Hsel, <- Hperm. rewrite take_ge; [done|].
  rewrite Hperm.
  replace (length (words vocabData)) with (length (magnitudes r))
    by (subst r; simpl; apply length_imap).
  by rewrite positive_seq_count.
Qed.

(** From here on, the sentinel of the filtered words is not positive. *)
Hypothesis sentinel_not_positive : (fround (ofZ (-1)) >? num0) = false.

Lemma relevance_sentinel vocabData axisVectors axisWords i w :
  ¬ eligible axisWords w →
  relevance vocabData axisVectors axisWords i w = fround (ofZ (-1)).
Proof.
  intros Hne. unfold relevance.
  destruct (bool_decide (w ∈ axisWords)) eqn:Hin; simpl; [done|].
  destruct (isQualityWord w) eqn:Hq; simpl; [|done].
  exfalso. apply Hne. split; [|done]. by apply bool_decide_eq_false in Hin.
Qed.

Lemma positive_eligible vocabData axisVectors axisWords i w :
  isPositive (relevance vocabData axisVectors axisWords i w) → eligible axisWords w.
Proof.
  intros Hpos. destruct (decide (eligible axisWords w)) as [|Hne]; [done|].
  rewrite (relevance_sentinel _ _ _ _ _ Hne) in Hpos.
  unfold isPositive in Hpos. congruence.
Qed.

Lemma selected_eligible vocabData axisVectors axisWords topK i :
  i ∈ indices (selectWordsForAxes vocabData axisVectors axisWords topK) →
  ∃ w, words vocabData !! i = Some w ∧ eligible axisWords w
       ∧ isPositive (relevance vocabData axisVectors axisWords i w).
Proof.
  destruct (selected_spec vocabData axisVectors axisWords topK) as (sorted & Hperm & Hsel).
  rewrite Hsel. intros Hi. apply elem_of_take in Hi as (k & Hi & _).
  apply list_elem_of_lookup_2 in Hi. apply list_elem_of_filter in Hi as [Hpos Hi].
  rewrite Hperm in Hi. apply elem_of_seq in Hi as [_ Hi]. simpl in Hi.
  destruct (lookup_lt_is_Some_2 (words vocabData) i Hi) as [w Hw].
  exists w. split; [done|].
  assert (isPositive (relevance vocabData axisVectors axisWords i w)) as Hp.
  { unfold positiveAt, read in Hpos. simpl in Hpos.
    by rewrite list_lookup_imap, Hw in Hpos. }
  split; [|done]. by eapply positive_eligible.
Qed.

End Selection.

(** Counting the positive magnitudes against the eligible words. *)
Lemma positive_le_eligible {num : Type} {N : Number num} (f : nat → string → num)
    (axisWords : gset string) (ws : list string) :
  (∀ i w, isPositive (f i w) → eligible axisWords w) →
  positiveCount (imap f ws) ≤ length (filter (eligible axisWords) ws).
Proof.
  unfold positiveCount. revert f. induction ws as [|w ws IH]; intros f Hf; simpl; [done|].
  rewrite !filter_cons. specialize (IH (f ∘ S) (λ i, Hf (S i))).
  destruct (decide (isPositive (f 0%nat w))) as [Hp|Hp].
  - rewrite decide_True by eauto. simpl. lia.
  - destruct (decide (eligible axisWords w)); simpl; lia.
Qed.

Lemma positive_eq_eligible {num : Type} {N : Number num} (f : nat → string → num)
    (axisWords : gset string) (ws : list string) :
  (∀ i w, isPositive (f i w) → eligible axisWords w) →
  (∀ i w, ws !! i = Some w → eligible axisWords w → isPositive (f i w)) →
  positiveCount (imap f ws) = length (filter (eligible axisWords) ws).
Proof.
  unfold positiveCount. revert f. induction ws as [|w ws IH]; intros f Hf Hall; simpl; [done|].
  rewrite !filter_cons.
  specialize (IH (f ∘ S) (λ i, Hf (S i)) (λ i, Hall (S i))).
  destruct (decide (eligible axisWords w)) as [He|He].
  - rewrite decide_True by (by apply (Hall 0%nat)). simpl. by rewrite IH.
  - rewrite decide_False by (intros Hp; apply He; eauto). done.
Qed.
(** ** The quality filter *)

Lemma inRange_spec lo hi c :
  inRange lo hi c = true ↔ (nat_of_ascii lo ≤ nat_of_ascii c ≤ nat_of_ascii hi)%nat.
Proof.
  unfold inRange. rewrite andb_true_iff, !Nat.leb_le. tauto.
Qed.

Lemma matchRange_all lo hi budget s n :
  matchRange lo hi budget s = (n, EmptyString) ↔
  (n = String.length s ∧ String.length s ≤ budget
   ∧ Forall (λ c, inRange lo hi c = true) (list_ascii_of_string s))%nat.
Proof.
  revert budget n. induction s as [|c s IH]; intros budget n; simpl.
  - destruct budget; simpl; split.
    + intros [= <-]. split_and!; [done|lia|constructor].
    + by intros (-> & _).
    + intros [= <-]. split_and!; [done|lia|constructor].
    + by intros (-> & _).
  - destruct budget as [|k]; simpl.
    + split; [intros [=]|intros (_ & ? & _); lia].
    + destruct (inRange lo hi c) eqn:Hc.
      * destruct (matchRange lo hi k s) as [m rest] eqn:Hm. split.
        -- intros [= <- ->]. apply IH in Hm as (-> & ? & ?).
           split_and!; [done|lia|by constructor].
        -- intros (-> & Hlen & Hall). apply Forall_cons in Hall as [_ Hall].
           assert (matchRange lo hi k s = (String.length s, EmptyString)) as Hm'.
           { apply IH. split_and!; [done|lia|done]. }
           rewrite Hm in Hm'. by injection Hm' as -> ->.
      * split; [intros [=]|].
        intros (_ & _ & Hall). apply Forall_cons in Hall as [Hc' _]. congruence.
Qed.

Lemma isQualityWord_spec w :
  isQualityWord w = true ↔
  (3 ≤ String.length w ≤ 15)%nat ∧ Forall lowercaseLetter (list_ascii_of_string w).
Proof.
  unfold isQualityWord, regexTest, WORD_RE. cbn [rlo rhi rmin rmax].
  destruct (matchRange "a" "z" 15 w) as [n rest] eqn:Hm.
  rewrite andb_true_iff, Nat.leb_le, bool_decide_eq_true.
  assert (∀ l, Forall (λ c, inRange "a" "z" c = true) l ↔ Forall lowercaseLetter l) as Hall.
  { intros l. apply Forall_iff. intros c. apply inRange_spec. }
  split.
  - intros [Hn ->]. apply matchRange_all in Hm as (-> & ? & ?).
    split; [lia|]. by apply Hall.
  - intros [Hlen Hlow].
    assert (matchRange "a" "z" 15 w = (String.length w, EmptyString)) as Hm'.
    { apply matchRange_all. split_and!; [done|lia|by apply Hall]. }
    rewrite Hm in Hm'. injection Hm' as -> ->. split; [lia|done].
Qed.

Lemma sentinel_not_positive_float :
  (fround (ofZ (-1)) >? (num0 : float))%num = false.
Proof. reflexivity. Qed.

(** ** The selection of words *)

(** C2, as amended.  [selectWordsForAxes] returns at most [topK] indices,
    without duplicates, and exactly the smaller of [topK] and the number
    of strictly positive stored magnitudes; when that number is within the
    cap, every index with a positive magnitude is returned.  Only words
    that pass the quality filter and are not axis words have a positive
    magnitude, so that number is at most the eligible count, and it is the
    eligible count when every eligible word has a positive magnitude. *)
Theorem selectWordsForAxes_count (vocabData : VocabData float)
    (axisVectors : SixAxes (list float)) (axisWords : gset string) (topK : nat) :
  let r := selectWordsForAxes vocabData axisVectors axisWords topK in
  length (indices r) ≤ topK
  ∧ NoDup (indices r)
  ∧ length (indices r) = topK `min` positiveCount (magnitudes r)
  ∧ (positiveCount (magnitudes r) ≤ topK →
     indices r ≡ₚ filter (positiveAt (magnitudes r)) (seq 0 (length (words vocabData))))
  ∧ positiveCount (magnitudes r) ≤ eligibleCount vocabData axisWords
  ∧ ((∀ i w, words vocabData !! i = Some w → eligible axisWords w →
             isPositive (relevance vocabData axisVectors axisWords i w)) →
     length (indices r) = topK `min` eligibleCount vocabData axisWords).
Proof.
  intros r.
  pose proof (selected_length vocabData axisVectors axisWords topK) as Hlen.
  fold r in Hlen. cbv zeta in Hlen.
  assert (∀ i w, isPositive (relevance vocabData axisVectors axisWords i w) →
                 eligible axisWords w) as Hpe.
  { intros i w. apply positive_eligible, sentinel_not_positive_float. }
  split_and!.
  - lia.
  - apply selected_NoDup.
  - done.
  - apply selected_all.
  - apply positive_le_eligible, Hpe.
  - intros Hall. rewrite Hlen. f_equal. by apply positive_eq_eligible.
Qed.

(** C2, as stated, fails: both words pass the filter and neither is an
    axis word, so the eligible count is 2 and the cap of 7000 is not
    reached, yet one index is returned: "cat" is orthogonal to every axis
    vector, its magnitude is 0, and the loop only takes positive ones. *)
Lemma selectWordsForAxes_count_counterexample :
  let r := selectWordsForAxes twoWords upDown {["up"; "down"]} defaultTopK in
  eligibleCount twoWords {["up"; "down"]} = 2%nat
  ∧ indices r = [1%nat]
  ∧ magnitudes r = [0; 2]%float
  ∧ length (indices r) ≠ defaultTopK `min` eligibleCount twoWords {["up"; "down"]}.
Proof. vm_compute. split_and!; [done..|]. intros [=]. Qed.

(** C3.  A word passes the quality filter exactly when it is 3 to 15
    lowercase ASCII letters, and every index [selectWordsForAxes] returns
    is the index of a word that passes it and is not an axis word. *)
Theorem selected_words_are_eligible :
  (∀ w, isQualityWord w = true ↔
        (3 ≤ String.length w ≤ 15)%nat ∧ Forall lowercaseLetter (list_ascii_of_string w))
  ∧ ∀ (vocabData : VocabData float) (axisVectors : SixAxes (list float))
      (axisWords : gset string) (topK : nat),
      Forall (λ i, ∃ w, words vocabData !! i = Some w
                        ∧ (w ∉ axisWords) ∧ (isQualityWord w = true))
             (indices (selectWordsForAxes vocabData axisVectors axisWords topK)).
Proof.
  split; [apply isQualityWord_spec|].
  intros vocabData axisVectors axisWords topK. apply Forall_forall. intros i Hi.
  apply (selected_eligible sentinel_not_positive_float) in Hi as (w & Hw & [? ?] & _).
  by exists w.
Qed.

(** ** The order of binary64 numbers *)

Lemma SFltb_irrefl (a : spec_float) : SFltb a a = false.
Proof.
  destruct a as [[]|[]| |[] m e]; try reflexivity;
    unfold SFltb, SFcompare; rewrite Z.compare_refl;
    change (Pos.compare_cont Eq m m) with (Pos.compare m m);
    by rewrite Pos.compare_refl.
Qed.

Lemma SFltb_trans (a b c : spec_float) :
  SFltb a b = true → SFltb b c = true → SFltb a c = true.
Proof.
  unfold SFltb, SFcompare.
  destruct a as [[]|[]| |[] ma ea], b as [[]|[]| |[] mb eb], c as [[]|[]| |[] mc ec];
    try done;
    change (Pos.compare_cont Eq) with Pos.compare;
    destruct (Z.compare_spec ea eb), (Z.compare_spec eb ec), (Z.compare_spec ea ec);
    try done; try lia; subst;
    destruct (Pos.compare_spec ma mb), (Pos.compare_spec mb mc), (Pos.compare_spec ma mc);
    simpl; try done; lia.
Qed.

Lemma float_ltb_irrefl (x : float) : (x <? x)%num = false.
Proof. simpl. rewrite FloatAxioms.ltb_spec. apply SFltb_irrefl. Qed.

Lemma float_ltb_trans (x y z : float) :
  (x <? y)%num = true → (y <? z)%num = true → (x <? z)%num = true.
Proof. simpl. rewrite !FloatAxioms.ltb_spec. apply SFltb_trans. Qed.

(** ** The extent of the projected words *)

Section Extrema.
Context {num : Type} {N : Number num}.
Local Open Scope num_scope.
Hypothesis ltb_irrefl : ∀ x : num, (x <? x) = false.
Hypothesis ltb_trans : ∀ x y z : num, (x <? y) = true → (y <? z) = true → (x <? z) = true.

Lemma extent_runs (e : Extent num) (ws : list (ProjectedWord.t num)) :
  foldl extend e ws =
  {| maxX := runningMax (maxX e) (map ProjectedWord.x ws);
     minX := runningMin (minX e) (map ProjectedWord.x ws);
     maxY := runningMax (maxY e) (map ProjectedWord.y ws);
     minY := runningMin (minY e) (map ProjectedWord.y ws);
     maxZ := runningMax (maxZ e) (map ProjectedWord.z ws);
     minZ := runningMin (minZ e) (map ProjectedWord.z ws) |}.
Proof.
  revert e. induction ws as [|w ws IH]; intros e; simpl.
  - by destruct e.
  - by rewrite IH.
Qed.

Lemma not_gt_step (v m w : num) :
  (v >? m) = false → (v >? (if w >? m then w else m)) = false.
Proof.
  intros Hv. destruct (w >? m) eqn:Hw; [|done].
  destruct (v >? w) eqn:Hvw; [|done].
  by rewrite (ltb_trans _ _ _ Hw Hvw) in Hv.
Qed.

Lemma not_lt_step (v m w : num) :
  (v <? m) = false → (v <? (if w <? m then w else m)) = false.
Proof.
  intros Hv. destruct (w <? m) eqn:Hw; [|done].
  destruct (v <? w) eqn:Hvw; [|done].
  by rewrite (ltb_trans _ _ _ Hvw Hw) in Hv.
Qed.

Lemma runningMax_keeps (u m0 : num) (xs : list num) :
  (u >? m0) = false → (u >? runningMax m0 xs) = false.
Proof.
  revert m0. induction xs as [|w xs IH]; intros m0 Hu; simpl; [done|].
  by apply IH, not_gt_step.
Qed.

Lemma runningMin_keeps (u m0 : num) (xs : list num) :
  (u <? m0) = false → (u <? runningMin m0 xs) = false.
Proof.
  revert m0. induction xs as [|w xs IH]; intros m0 Hu; simpl; [done|].
  by apply IH, not_lt_step.
Qed.

Lemma runningMax_spec (xs : list num) : greatestFromZero (runningMax num0 xs) xs.
Proof.
  unfold greatestFromZero. generalize (num0 : num) as m0.
  induction xs as [|w xs IH]; intros m0; simpl.
  - split_and!; [by left|apply ltb_irrefl|by intros ? ?%elem_of_nil|done].
  - destruct (IH (if w >? m0 then w else m0)) as (Hin & Hle & Hub & Hzero).
    split_and!.
    + destruct Hin as [->|Hin]; [|right; by right].
      destruct (w >? m0); [right; by left|by left].
    + apply runningMax_keeps. destruct (w >? m0) eqn:Hw; [|apply ltb_irrefl].
      destruct (m0 >? w) eqn:Hm; [|done].
      pose proof (ltb_trans _ _ _ Hm Hw) as Hc. by rewrite ltb_irrefl in Hc.
    + intros v [->|Hv]%elem_of_cons; [|by apply Hub].
      apply runningMax_keeps. destruct (w >? m0) eqn:Hw; [apply ltb_irrefl|done].
    + intros Hall. rewrite Hzero.
      * by rewrite (Hall w) by (by left).
      * intros v Hv. rewrite (Hall w) by (by left). apply Hall. by right.
Qed.

Lemma runningMin_spec (xs : list num) : leastFromZero (runningMin num0 xs) xs.
Proof.
  unfold leastFromZero. generalize (num0 : num) as m0.
  induction xs as [|w xs IH]; intros m0; simpl.
  - split_and!; [by left|apply ltb_irrefl|by intros ? ?%elem_of_nil|done].
  - destruct (IH (if w <? m0 then w else m0)) as (Hin & Hle & Hub & Hzero).
    split_and!.
    + destruct Hin as [->|Hin]; [|right; by right].
      destruct (w <? m0); [right; by left|by left].
    + apply runningMin_keeps. destruct (w <? m0) eqn:Hw; [|apply ltb_irrefl].
      destruct (m0 <? w) eqn:Hm; [|done].
      pose proof (ltb_trans _ _ _ Hm Hw) as Hc. by rewrite ltb_irrefl in Hc.
    + intros v [->|Hv]%elem_of_cons; [|by apply Hub].
      apply runningMin_keeps. destruct (w <? m0) eqn:Hw; [apply ltb_irrefl|done].
    + intros Hall. rewrite Hzero.
      * by rewrite (Hall w) by (by left).
      * intros v Hv. rewrite (Hall w) by (by left). apply Hall. by right.
Qed.
End Extrema.

(** ** Beacons, magnitudes and the empty selection *)

Lemma pad_float : pad = 1.2%float.
Proof. reflexivity. Qed.

(** C6.  The six beacons, in the order of the source: each lies on its own
    axis, at 1.2 times the extreme of the projected words on that side,
    and at 0 on the other two axes.  The extreme is the greatest (least)
    of 0 and the words' coordinates, so it is 0 when no word lies beyond
    the origin on that side. *)
Theorem beacon_extent (axes : SixAxes string) (ws : list (ProjectedWord.t float)) :
  let e := extent ws in
  getBeaconPositions axes ws =
    [ Beacon.mk (xNeg axes) (minX e * 1.2) 0 0 "x-";
      Beacon.mk (xPos axes) (maxX e * 1.2) 0 0 "x+";
      Beacon.mk (yPos axes) 0 (maxY e * 1.2) 0 "y+";
      Beacon.mk (yNeg axes) 0 (minY e * 1.2) 0 "y-";
      Beacon.mk (zPos axes) 0 0 (maxZ e * 1.2) "z+";
      Beacon.mk (zNeg axes) 0 0 (minZ e * 1.2) "z-" ]%float
  ∧ greatestFromZero (maxX e) (map ProjectedWord.x ws)
  ∧ leastFromZero (minX e) (map ProjectedWord.x ws)
  ∧ greatestFromZero (maxY e) (map ProjectedWord.y ws)
  ∧ leastFromZero (minY e) (map ProjectedWord.y ws)
  ∧ greatestFromZero (maxZ e) (map ProjectedWord.z ws)
  ∧ leastFromZero (minZ e) (map ProjectedWord.z ws).
Proof.
  intros e. split; [reflexivity|].
  subst e. unfold extent. rewrite extent_runs. cbn [maxX minX maxY minY maxZ minZ].
  split_and!;
    first [ apply (runningMax_spec float_ltb_irrefl float_ltb_trans)
          | apply (runningMin_spec float_ltb_irrefl float_ltb_trans) ].
Qed.

Section Deviation.
Context {num : Type} {N : Number num}.
Local Open Scope num_scope.

Lemma foldl_map_sum {A : Type} (f : A → num) (l : list A) (a : num) :
  foldl (λ a b, a + b) a (map f l) = foldl (λ a v, a + f v) a l.
Proof. revert a. induction l as [|x l IH]; intros a; simpl; [done|apply IH]. Qed.

(** The inner [stddev] of [projectWords] computes the population standard
    deviation, and gives 1 in place of 0. *)
Lemma variance_average (values : list num) :
  variance values = average (map (λ v, square (v - average values)) values).
Proof.
  unfold variance, average, sumOf, mean, count.
  by rewrite foldl_map_sum, length_map.
Qed.


Lemma stddev_populationStdDev (values : list num) :
  stddev values = orElse (populationStdDev values) num1.
Proof. unfold stddev, populationStdDev. by rewrite variance_average. Qed.

Lemma rawPosition_coordinates (vocabData : VocabData num) (axisVectors : SixAxes (list num))
    (selectedIndices : list nat) :
  let raw := map (rawPosition vocabData axisVectors) selectedIndices in
  map RawWord.x raw
  = map (rawCoordinate vocabData (xPos axisVectors) (xNeg axisVectors)) selectedIndices
  ∧ map RawWord.y raw
    = map (rawCoordinate vocabData (yPos axisVectors) (yNeg axisVectors)) selectedIndices
  ∧ map RawWord.z raw
    = map (rawCoordinate vocabData (zPos axisVectors) (zNeg axisVectors)) selectedIndices.
Proof. cbv zeta. rewrite !map_map. done. Qed.
End Deviation.

(** C8.  The magnitude [projectWords] gives a word is the Euclidean norm of
    its three axis ratios: on each axis the raw coordinate of the word,
    the difference of the two cosine similarities, divided by the
    population standard deviation of that coordinate over the selected
    words (by 1 when that is 0).  The scale factor does not enter it, so
    two scale factors give the same magnitudes, while each of the
    coordinates x, y and z is the axis ratio times the scale factor. *)
Theorem magnitude_independent_of_scale (vocabData : VocabData float)
    (axisVectors : SixAxes (list float)) (selectedIndices : list nat) (s1 s2 : float) :
  let rx := axisRatio vocabData (xPos axisVectors) (xNeg axisVectors) selectedIndices in
  let ry := axisRatio vocabData (yPos axisVectors) (yNeg axisVectors) selectedIndices in
  let rz := axisRatio vocabData (zPos axisVectors) (zNeg axisVectors) selectedIndices in
  map ProjectedWord.magnitude (projectWords vocabData axisVectors selectedIndices s1)
  = map ProjectedWord.magnitude (projectWords vocabData axisVectors selectedIndices s2)
  ∧ (∀ scale,
       projectWords vocabData axisVectors selectedIndices scale
       = map (λ idx, ProjectedWord.mk (words vocabData !! idx)
                       (rx idx * scale) (ry idx * scale) (rz idx * scale)
                       (euclideanNorm (rx idx) (ry idx) (rz idx)))%num
             selectedIndices).
Proof.
  intros rx ry rz.
  assert (∀ scale,
            projectWords vocabData axisVectors selectedIndices scale
            = map (λ idx, ProjectedWord.mk (words vocabData !! idx)
                            (rx idx * scale) (ry idx * scale) (rz idx * scale)
                            (euclideanNorm (rx idx) (ry idx) (rz idx)))%num
                  selectedIndices) as Hall.
  { intros scale. unfold projectWords.
    destruct (rawPosition_coordinates vocabData axisVectors selectedIndices)
      as (-> & -> & ->).
    rewrite !stddev_populationStdDev, map_map. reflexivity. }
  split; [|exact Hall].
  rewrite (Hall s1), (Hall s2), !map_map. reflexivity.
Qed.

(** C10.  With no selected index, [projectWords] returns the empty list;
    the three standard deviations it computes on the way are 1, not NaN
    (the quotient 0/0 of the mean is absorbed by the fallback); and the
    six beacons placed from the empty list are at the origin. *)
Theorem empty_selection_is_safe (vocabData : VocabData float)
    (axisVectors : SixAxes (list float)) (axes : SixAxes string) (scale : float) :
  projectWords vocabData axisVectors [] scale = []
  ∧ stddev (map RawWord.x (map (rawPosition vocabData axisVectors) [])) = 1%float
  ∧ stddev (map RawWord.y (map (rawPosition vocabData axisVectors) [])) = 1%float
  ∧ stddev (map RawWord.z (map (rawPosition vocabData axisVectors) [])) = 1%float
  ∧ getBeaconPositions axes (projectWords vocabData axisVectors [] scale) =
    [ Beacon.mk (xNeg axes) 0 0 0 "x-";
      Beacon.mk (xPos axes) 0 0 0 "x+";
      Beacon.mk (yPos axes) 0 0 0 "y+";
      Beacon.mk (yNeg axes) 0 0 0 "y-";
      Beacon.mk (zPos axes) 0 0 0 "z+";
      Beacon.mk (zNeg axes) 0 0 0 "z-" ]%float.
Proof. split_and!; reflexivity. Qed.

(** On binary64 numbers too, a computed standard deviation of 0 (or -0,
    or NaN) is replaced by 1. *)
Lemma stddev_fallback_float (values : list float) :
  truthy (populationStdDev values) = false → stddev values = 1%float.
Proof. intros H. rewrite stddev_populationStdDev. unfold orElse. by rewrite H. Qed.


(** There the standard deviation of the normalized coordinates is 1 up to
    rounding: here within one unit in the last place. *)
Example normalized_spread_float :
  let spread := populationStdDev (normalized [0.1; 0.2; 0.4]%float) in
  (PrimFloat.abs (spread - 1) <=? 0x1p-52)%float = true.
Proof. reflexivity. Qed.

(** ** Cosine similarity against a zero vector *)

Lemma float_zero_cases (x : float) :
  (x =? num0)%num = true → x = 0%float ∨ x = (-0)%float.
Proof.
  simpl. rewrite FloatAxioms.eqb_spec. intros H.
  rewrite <- (SF2Prim_Prim2SF x).
  destruct (Prim2SF x) as [[]|[]| |[] m e]; try discriminate H.
  - by right.
  - by left.
Qed.

Lemma cosineSums_zero (a b : list float) (s : CosSums float) (k n : nat) :
  magB s = 0%float →
  (∀ i, k ≤ i < k + n → (read b i =? num0)%num = true) →
  magB (foldl (cosineStep a b) s (seq k n)) = 0%float.
Proof.
  revert s k. induction n as [|n IH]; intros s k Hs Hb; simpl; [done|].
  apply IH.
  - simpl. rewrite Hs.
    destruct (float_zero_cases (read b k)) as [->| ->]; [apply Hb; lia|done..].
  - intros i Hi. apply Hb. lia.
Qed.

Lemma cosineSimilarity_zero (a b : list float) :
  zeroVector b → length a ≤ length b → cosineSimilarity a b = 0%float.
Proof.
  intros Hb Hlen. unfold cosineSimilarity.
  assert (magB (cosineSums a b) = 0%float) as ->.
  { apply cosineSums_zero; [done|]. intros i Hi. unfold read.
    destruct (lookup_lt_is_Some_2 b i) as [x Hx]; [lia|].
    rewrite Hx. simpl. apply (Hb x). by eapply list_elem_of_lookup_2. }
  by rewrite orb_true_r.
Qed.

(** ** The launch handler *)

Section Launch.
Context {num : Type} {N : Number num}.
Variable jsTrim : string → string.
Variable jsToLowerCase : string → string.

Lemma embedWords_ok (model : string → string + list num) (f : string → list num)
    (ws : list string) :
  (∀ w, w ∈ ws → model w = inr (f w)) →
  embedWords model ws = (map Embed ws, inr (map f ws)).
Proof.
  induction ws as [|w ws IH]; intros Hok; simpl; [done|].
  rewrite (Hok w) by (by left). rewrite IH; [done|].
  intros w' Hw'. apply Hok. by right.
Qed.

(** [embedWords] logs calls of the model only, the first on the first
    word. *)
Lemma embedWords_log (model : string → string + list num) (ws : list string) :
  Forall (λ e, ∃ w, e = Embed w) (fst (embedWords model ws))
  ∧ ∀ w rest, ws = w :: rest → ∃ log, fst (embedWords model ws) = Embed w :: log.
Proof.
  induction ws as [|w ws [IH _]]; simpl; [split; [constructor|done]|].
  destruct (model w) as [err|v].
  - split; [repeat constructor; by eexists|]. intros w' rest [= <- _]. by eexists.
  - destruct (embedWords model ws) as [log r]. simpl in *.
    split; [constructor; [by eexists|done]|]. intros w' rest [= <- _]. by eexists.
Qed.

Lemma blank_entries (inputs : Inputs.t) :
  existsb (λ word, bool_decide (word = EmptyString))
          (axisEntries (readAxes jsTrim jsToLowerCase inputs)) = true
  ↔ anyBlank jsTrim jsToLowerCase inputs.
Proof.
  unfold axisEntries, readAxes, anyBlank, blank. cbn [xPos xNeg yPos yNeg zPos zNeg existsb].
  rewrite !orb_true_iff, !bool_decide_eq_true. intuition congruence.
Qed.

Lemma not_blank_entries (inputs : Inputs.t) :
  ¬ anyBlank jsTrim jsToLowerCase inputs →
  existsb (λ word, bool_decide (word = EmptyString))
          (axisEntries (readAxes jsTrim jsToLowerCase inputs)) = false.
Proof. intros Hnb. apply not_true_is_false. by rewrite blank_entries. Qed.

Lemma launch_ok (vocab : VocabData num) (model : string → string + list num)
    (f : string → list num) (inputs : Inputs.t) :
  let axes := readAxes jsTrim jsToLowerCase inputs in
  let app := {| vocabData := Some vocab; pipeline := Some model |} in
  ¬ anyBlank jsTrim jsToLowerCase inputs →
  (∀ w, w ∈ axisWordList axes → model w = inr (f w)) →
  ∃ scene,
    launch jsTrim jsToLowerCase app inputs
    = (map Embed (axisWordList axes)
         ++ [Select (length (selectedIndices scene)); Project (length (projected scene))],
       Some scene)
    ∧ axisVectors scene =
        {| xPos := f (xPos axes); xNeg := f (xNeg axes);
           yPos := f (yPos axes); yNeg := f (yNeg axes);
           zPos := f (zPos axes); zNeg := f (zNeg axes) |}.
Proof.
  intros axes app Hnb Hok. unfold launch. cbn [vocabData pipeline app].
  rewrite (not_blank_entries _ Hnb). fold axes. fold (axisWordList axes).
  rewrite (embedWords_ok model f _ Hok).
  cbn [axisWordList map].
  match goal with |- ∃ _, (_, Some ?s) = _ ∧ _ => exists s end.
  split; reflexivity.
Qed.

(** Once no word is empty the handler starts to embed: its first event
    is the call of the model on the first word, and it never asks to
    fill in the words. *)
Lemma launch_embeds (vocab : VocabData num) (model : string → string + list num)
    (inputs : Inputs.t) :
  let axes := readAxes jsTrim jsToLowerCase inputs in
  let app := {| vocabData := Some vocab; pipeline := Some model |} in
  ¬ anyBlank jsTrim jsToLowerCase inputs →
  (∃ rest, fst (launch jsTrim jsToLowerCase app inputs) = Embed (xPos axes) :: rest)
  ∧ (ShowError FillAllWords ∉ fst (launch jsTrim jsToLowerCase app inputs)).
Proof.
  intros axes app Hnb. unfold launch. cbn [vocabData pipeline app].
  rewrite (not_blank_entries _ Hnb). fold axes.
  destruct (embedWords_log model [xPos axes; xNeg axes; yPos axes; yNeg axes; zPos axes;
                                  zNeg axes]) as [Hall Hfirst].
  destruct (Hfirst _ _ eq_refl) as [log Hlog].
  destruct (embedWords model _) as [log' r]. simpl in Hlog, Hall. subst log'.
  assert (ShowError FillAllWords ∉ Embed (xPos axes) :: log) as Hno.
  { intros Hin. eapply Forall_forall in Hall; [|exact Hin]. by destruct Hall. }
  destruct r as [err|vs].
  - cbn [fst]. split; [by eexists|].
    intros [?|[=]%list_elem_of_singleton]%elem_of_app. done.
  - destruct vs as [|e0 [|e1 [|e2 [|e3 [|e4 [|e5 [|e6 vs]]]]]]]; cbn [fst];
      (split; [by eexists|]); try done.
    intros [?|Hin]%elem_of_app; [done|].
    apply elem_of_cons in Hin as [[=]|Hin]. by apply list_elem_of_singleton in Hin.
Qed.
End Launch.

(** C1, as amended.  A zero axis vector is not rejected.  The cosine
    similarity of any vector (no longer than it) to it is 0, the fallback
    of [cosineSimilarity]; and whatever embeddings the model returns for
    six words none of which is empty, the handler goes on to select and
    project without showing an error.  The handler is read with any
    [trim] and [toLowerCase]. *)
Theorem zero_axis_is_not_rejected (jsTrim jsToLowerCase : string → string)
    (a b : list float) (vocab : VocabData float)
    (model : string → string + list float) (f : string → list float) (inputs : Inputs.t) :
  let axes := readAxes jsTrim jsToLowerCase inputs in
  let app := {| vocabData := Some vocab; pipeline := Some model |} in
  zeroVector b →
  length a ≤ length b →
  ¬ anyBlank jsTrim jsToLowerCase inputs →
  (∀ w, model w = inr (f w)) →
  cosineSimilarity a b = 0%float
  ∧ ∃ scene,
      snd (launch jsTrim jsToLowerCase app inputs) = Some scene
      ∧ Forall isWork (fst (launch jsTrim jsToLowerCase app inputs))
      ∧ fst (launch jsTrim jsToLowerCase app inputs)
        = map Embed (axisWordList axes)
            ++ [Select (length (selectedIndices scene)); Project (length (projected scene))]
      ∧ axisVectors scene =
          {| xPos := f (xPos axes); xNeg := f (xNeg axes);
             yPos := f (yPos axes); yNeg := f (yNeg axes);
             zPos := f (zPos axes); zNeg := f (zNeg axes) |}.
Proof.
  intros axes app Hb Hlen Hnb Hok. split; [by apply cosineSimilarity_zero|].
  destruct (launch_ok jsTrim jsToLowerCase vocab model f inputs Hnb) as (scene & Hl & Hv);
    [intros; apply Hok|].
  fold axes app in Hl, Hv. exists scene. rewrite Hl. cbn [fst snd].
  split_and!; [done| |done|done].
  cbn [axisWordList map app]. repeat constructor.
Qed.

Lemma voidInputs_not_blank : ¬ anyBlank trim toLowerCase voidInputs.
Proof. unfold anyBlank, blank. vm_compute. intros [H|[H|[H|[H|[H|H]]]]]; discriminate H. Qed.

Lemma zeroVector_void : zeroVector (toyEmbedding "void").
Proof.
  intros x Hx. vm_compute in Hx.
  apply elem_of_cons in Hx as [->|Hx]; [done|].
  apply elem_of_cons in Hx as [->|Hx]; [done|].
  by apply elem_of_nil in Hx.
Qed.

Lemma zero_axis_is_not_rejected_witness :
  cosineSimilarity [1; 2]%float (toyEmbedding "void") = 0%float
  ∧ ∃ scene, snd (launch trim toLowerCase toyApp voidInputs) = Some scene
             ∧ Forall isWork (fst (launch trim toLowerCase toyApp voidInputs))
             ∧ zNeg (axisVectors scene) = toyEmbedding "void".
Proof.
  destruct (zero_axis_is_not_rejected trim toLowerCase [1; 2]%float (toyEmbedding "void")
              toyVocab toyModel toyEmbedding voidInputs)
    as (Hcos & scene & Hscene & Hwork & _ & Hvec).
  - apply zeroVector_void.
  - vm_compute. lia.
  - apply voidInputs_not_blank.
  - reflexivity.
  - split; [exact Hcos|]. exists scene. split; [exact Hscene|]. split; [exact Hwork|].
    rewrite Hvec. reflexivity.
Defined.

(** C1, as stated, fails: with the zero vector as the embedding of the
    sixth word, the handler shows no error; it selects the word "cat" and
    projects it. *)
Lemma zero_axis_is_not_rejected_counterexample :
  zeroVector (toyEmbedding "void")
  ∧ fst (launch trim toLowerCase toyApp voidInputs)
    = [Embed "big"; Embed "small"; Embed "love"; Embed "hate"; Embed "near"; Embed "void";
       Select 1; Project 1]
  ∧ ∃ scene, snd (launch trim toLowerCase toyApp voidInputs) = Some scene
             ∧ zNeg (axisVectors scene) = toyEmbedding "void"
             ∧ selectedIndices scene = [4%nat]
             ∧ map ProjectedWord.word (projected scene) = [Some "cat"].
Proof.
  split; [apply zeroVector_void|]. split; [by vm_compute|].
  eexists. split; [by vm_compute|]. by vm_compute.
Qed.

(** C9, as amended.  The handler reads a word from each field, the value
    trimmed and put in lower case, and tests nothing but that no word is
    empty.  When one is, it only shows an error: the request to fill in
    all six words or, while the resources are loading, the request to
    wait; it embeds, selects and projects nothing and starts no scene.
    When none is, whether the six words are distinct or not, it never
    asks to fill in the words and starts to embed, the first word first;
    and when the model embeds the six words, it embeds them in order,
    selects, projects and starts the scene.  The handler is read with
    any [trim] and [toLowerCase]. *)
Theorem blank_word_stops_launch (jsTrim jsToLowerCase : string → string)
    (app : App float) (inputs : Inputs.t) :
  let axes := readAxes jsTrim jsToLowerCase inputs in
  let run := launch jsTrim jsToLowerCase app inputs in
  (anyBlank jsTrim jsToLowerCase inputs ↔ EmptyString ∈ axisEntries axes)
  ∧ (anyBlank jsTrim jsToLowerCase inputs →
     run = ([ShowError (match vocabData app, pipeline app with
                        | Some _, Some _ => FillAllWords
                        | _, _ => StillLoading
                        end)], None))
  ∧ (¬ anyBlank jsTrim jsToLowerCase inputs →
     ∀ vocab model, vocabData app = Some vocab → pipeline app = Some model →
       (∃ rest, fst run = Embed (xPos axes) :: rest)
       ∧ (ShowError FillAllWords ∉ fst run)
       ∧ ∀ f, (∀ w, w ∈ axisWordList axes → model w = inr (f w)) →
           ∃ scene,
             run = (map Embed (axisWordList axes)
                      ++ [Select (length (selectedIndices scene));
                          Project (length (projected scene))],
                    Some scene)).
Proof.
  intros axes run. split_and!.
  - rewrite <- blank_entries. fold axes. rewrite existsb_exists. split.
    + intros (w & Hw%list_elem_of_In & ->%bool_decide_eq_true). done.
    + intros Hin. exists EmptyString. split; [by apply list_elem_of_In|done].
  - intros Hblank. apply blank_entries in Hblank. subst run. unfold launch.
    destruct (vocabData app) as [vocab|]; [|done].
    destruct (pipeline app) as [model|]; [|done].
    by rewrite Hblank.
  - intros Hnb vocab model Hv Hm.
    assert (app = {| vocabData := Some vocab; pipeline := Some model |}) as Happ
      by (destruct app; simpl in *; congruence).
    subst run. rewrite Happ.
    destruct (launch_embeds jsTrim jsToLowerCase vocab model inputs Hnb) as [Hfirst Hno].
    split_and!; [exact Hfirst|exact Hno|].
    intros f Hok.
    destruct (launch_ok jsTrim jsToLowerCase vocab model f inputs Hnb Hok) as (scene & Hl & _).
    by exists scene.
Qed.

Lemma blank_word_stops_launch_witness :
  anyBlank trim toLowerCase blankInputs
  ∧ launch trim toLowerCase toyApp blankInputs = ([ShowError FillAllWords], None).
Proof.
  assert (anyBlank trim toLowerCase blankInputs) as H.
  { unfold anyBlank, blank. do 4 right. left. reflexivity. }
  split; [exact H|].
  exact (proj1 (proj2 (blank_word_stops_launch trim toLowerCase toyApp blankInputs)) H).
Defined.

(** C9, as stated, fails: four distinct words in the six fields are
    accepted; the handler embeds all six entries, selects and projects. *)
Lemma blank_word_stops_launch_counterexample :
  size (list_to_set (axisEntries (readAxes trim toLowerCase repeatedInputs)) : gset string)
  = 4%nat
  ∧ fst (launch trim toLowerCase toyApp repeatedInputs)
    = [Embed "big"; Embed "small"; Embed "love"; Embed "hate"; Embed "big"; Embed "small";
       Select 1; Project 1]
  ∧ ∃ scene, snd (launch trim toLowerCase toyApp repeatedInputs) = Some scene
             ∧ selectedIndices scene = [4%nat].
Proof.
  split; [by vm_compute|]. split; [by vm_compute|].
  eexists. split; by vm_compute.
Qed.

(** ** Loading the vocabulary *)

(** Without a word, the quotient is NaN or an infinity on binary64
    numbers, and loading fails. *)
Lemma loadVocabulary_no_word (vs : list float) :
  loadVocabulary {| ok := true; body := [] |} {| ok := true; body := vs |}
  = inl (DimensionMismatch (length vs) 0).
Proof.
  unfold loadVocabulary. cbn [ok body negb length].
  assert (∀ x : float, isInteger (x / ofZ 0)%num = false) as ->; [|done].
  intros x. cbn [isInteger ndiv ofZ float_number Z2F]. unfold F_isInteger.
  rewrite FloatAxioms.div_spec. change (Prim2SF 0) with (S754_zero false).
  by destruct (Prim2SF x) as [[]|[]| |[] m e].
Qed.

(** On binary64 numbers the quotient of two small lengths is an integer
    exactly when the division is exact, as in exact arithmetic. *)
Lemma float_quotient_small :
  forallb (λ l, forallb (λ n,
      let q : float := (ofZ (Z.of_nat l) / ofZ (Z.of_nat n))%num in
      bool_decide (isInteger q = bool_decide (l `mod` n = 0)%nat)
      && (negb (isInteger q) || bool_decide (toLength q = l `div` n)%nat))
    (seq 1 64)) (seq 0 256) = true.
Proof. vm_compute. reflexivity. Qed.

(** The same at the sizes of the application: 50000 words of 384 or 768
    dimensions, and buffers one float off. *)
Lemma float_quotient_large :
  map (λ l, let q : float := (ofZ l / ofZ 50000)%num in
            (isInteger q, Z.of_nat (toLength q)))
      [19200000; 38400000; 38400001; 38399999; 38425000]%Z
  = [(true, 384); (true, 768); (false, 768); (false, 767); (false, 768)]%Z.
Proof. vm_compute. reflexivity. Qed.

(** ** The quotient of two lengths, on binary64 numbers *)

Section BinaryQuotient.

Local Open Scope Z_scope.

(** [digits2_pos p] is the number of binary digits of [p]. *)
Lemma digits2_pos_bounds (p : positive) :
  2 ^ (Zpos (digits2_pos p) - 1) <= Zpos p < 2 ^ Zpos (digits2_pos p).
Proof.
  induction p as [p IH|p IH|]; cbn [digits2_pos].
  - rewrite Pos2Z.inj_succ.
    replace (Z.succ (Zpos (digits2_pos p)) - 1) with (Z.succ (Zpos (digits2_pos p) - 1)) by lia.
    rewrite !Z.pow_succ_r by lia. lia.
  - rewrite Pos2Z.inj_succ.
    replace (Z.succ (Zpos (digits2_pos p)) - 1) with (Z.succ (Zpos (digits2_pos p) - 1)) by lia.
    rewrite !Z.pow_succ_r by lia. lia.
  - simpl. lia.
Qed.

Lemma digits2_pos_unique (p : positive) (d : Z) :
  2 ^ (d - 1) <= Zpos p < 2 ^ d → Zpos (digits2_pos p) = d.
Proof.
  intros [Hlo Hhi]. pose proof (digits2_pos_bounds p) as [Hlo' Hhi'].
  assert (0 < d) as Hd.
  { destruct (Z.lt_trichotomy d 0) as [H|[->|H]]; [|simpl in Hhi; lia|done].
    rewrite Z.pow_neg_r in Hhi by done. lia. }
  set (d' := Zpos (digits2_pos p)) in *.
  destruct (Z.lt_trichotomy d' d) as [H|[H|H]]; [|done|].
  - assert (2 ^ d' <= 2 ^ (d - 1)) by (apply Z.pow_le_mono_r; lia). lia.
  - assert (2 ^ d <= 2 ^ (d' - 1)) by (apply Z.pow_le_mono_r; lia). lia.
Qed.

(** Rounding a mantissa of 53 digits: no shift. *)
Lemma round_aux_53 (s : bool) (m : positive) (e : Z) (l : location) :
  2 ^ 52 <= Zpos m < 2 ^ 53 → -1074 <= e <= 900 →
  binary_round_aux prec emax s (Zpos m) e l
  = let m' := round_nearest_even (Zpos m) l in
    if (m' =? 2 ^ 53) then S754_finite s (2 ^ 52)%positive (e + 1)
    else match m' with Zpos p => S754_finite s p e | _ => S754_nan end.
Proof.
  intros Hm He. unfold binary_round_aux, shr_fexp.
  cbn [Zdigits2]. rewrite (digits2_pos_unique m 53) by done.
  unfold fexp, emin, prec, emax.
  replace (Z.max (53 + e - 53) (3 - 1024 - 53) - e) with 0 by lia.
  cbn [shr].
  assert (loc_of_shr_record (shr_record_of_loc (Zpos m) l) = l) as ->.
  { by destruct l as [|[]]. }
  assert (shr_m (shr_record_of_loc (Zpos m) l) = Zpos m) as ->.
  { by destruct l as [|[]]. }
  set (m' := round_nearest_even (Zpos m) l).
  assert (m' = Zpos m ∨ m' = Zpos m + 1) as Hm'.
  { subst m'. destruct l as [|[]]; cbn [round_nearest_even]; auto.
    destruct (Z.even (Zpos m)); auto. }
  cbv zeta.
  destruct (Z.eqb_spec m' (2 ^ 53)) as [Heq|Hne].
  - rewrite Heq. replace (Zdigits2 (2 ^ 53)) with 54 by reflexivity.
    replace (Z.max (54 + e - 53) (3 - 1024 - 53) - e) with 1 by lia.
    replace (shr (shr_record_of_loc (2 ^ 53) loc_Exact) e 1)
      with ({| shr_m := Zpos (2 ^ 52); shr_r := false; shr_s := false |}, e + 1)
      by reflexivity.
    cbn [shr_m]. destruct (Z.leb_spec (e + 1) (1024 - 53)); [done|lia].
  - destruct m' as [|p|p] eqn:Hp; [lia| |lia].
    cbn [Zdigits2]. rewrite (digits2_pos_unique p 53) by lia.
    replace (Z.max (53 + e - 53) (3 - 1024 - 53) - e) with 0 by lia.
    cbn [shr shr_record_of_loc shr_m].
    destruct (Z.leb_spec e (1024 - 53)); [done|lia].
Qed.

(** Rounding a mantissa of 54 digits: one shift. *)
Lemma round_aux_54 (s : bool) (m : positive) (e : Z) (l : location) :
  2 ^ 53 <= Zpos m < 2 ^ 54 → -1074 <= e <= 900 →
  binary_round_aux prec emax s (Zpos m) e l
  = let mrs := shr_1 (shr_record_of_loc (Zpos m) l) in
    let m' := round_nearest_even (shr_m mrs) (loc_of_shr_record mrs) in
    if (m' =? 2 ^ 53) then S754_finite s (2 ^ 52)%positive (e + 2)
    else match m' with Zpos p => S754_finite s p (e + 1) | _ => S754_nan end.
Proof.
  intros Hm He. unfold binary_round_aux, shr_fexp.
  cbn [Zdigits2]. rewrite (digits2_pos_unique m 54) by done.
  unfold fexp, emin, prec, emax.
  replace (Z.max (54 + e - 53) (3 - 1024 - 53) - e) with 1 by lia.
  cbn [shr SpecFloat.iter_pos]. cbv beta iota zeta.
  set (mrs := shr_1 (shr_record_of_loc (Zpos m) l)).
  assert (shr_m mrs = Zpos m / 2) as Hmrs.
  { subst mrs. destruct m as [p|p|].
    - replace (Zpos p~1 / 2) with (Zpos p); [by destruct l as [|[]]|].
      rewrite Pos2Z.inj_xI, (Z.mul_comm 2), Z.div_add_l by lia.
      change (1 / 2) with 0. lia.
    - replace (Zpos p~0 / 2) with (Zpos p); [by destruct l as [|[]]|].
      by rewrite Pos2Z.inj_xO, (Z.mul_comm 2), Z.div_mul by lia.
    - exfalso. assert (2 ^ 53 = 9007199254740992) by reflexivity. lia. }
  set (m' := round_nearest_even (shr_m mrs) (loc_of_shr_record mrs)).
  assert (m' = Zpos m / 2 ∨ m' = Zpos m / 2 + 1) as Hm'.
  { subst m'. rewrite <- Hmrs. destruct (loc_of_shr_record mrs) as [|[]];
      cbn [round_nearest_even]; auto. destruct (Z.even (shr_m mrs)); auto. }
  assert (2 ^ 52 <= Zpos m / 2 < 2 ^ 53) as Hhalf.
  { split; [apply Z.div_le_lower_bound; lia|apply Z.div_lt_upper_bound; lia]. }
  cbv zeta.
  destruct (Z.eqb_spec m' (2 ^ 53)) as [Heq|Hne].
  - rewrite Heq. replace (Zdigits2 (2 ^ 53)) with 54 by reflexivity.
    replace (Z.max (54 + (e + 1) - 53) (3 - 1024 - 53) - (e + 1)) with 1 by lia.
    replace (shr (shr_record_of_loc (2 ^ 53) loc_Exact) (e + 1) 1)
      with ({| shr_m := Zpos (2 ^ 52); shr_r := false; shr_s := false |}, e + 1 + 1)
      by reflexivity.
    cbn [shr_m]. replace (e + 1 + 1) with (e + 2) by lia.
    destruct (Z.leb_spec (e + 2) (1024 - 53)); [done|lia].
  - destruct m' as [|p|p] eqn:Hp; [lia| |lia].
    cbn [Zdigits2]. rewrite (digits2_pos_unique p 53) by lia.
    replace (Z.max (53 + (e + 1) - 53) (3 - 1024 - 53) - (e + 1)) with 0 by lia.
    cbn [shr shr_record_of_loc shr_m].
    destruct (Z.leb_spec (e + 1) (1024 - 53)); [done|lia].
Qed.

Lemma iter_xO_pow (p k : positive) : Zpos (Pos.iter xO p k) = Zpos p * 2 ^ Zpos k.
Proof.
  apply (Pos.iter_ind _ xO p (λ k q, Zpos q = Zpos p * 2 ^ Zpos k)).
  - rewrite Pos2Z.inj_xO. lia.
  - intros k' q IH. rewrite Pos2Z.inj_xO, IH, Pos2Z.inj_succ, Z.pow_succ_r by lia. lia.
Qed.

Lemma pow2_53 : 2 ^ 53 = 9007199254740992.
Proof. reflexivity. Qed.
Lemma pow2_52 : 2 ^ 52 = 4503599627370496.
Proof. reflexivity. Qed.

(** A positive integer below 2^53 is a binary64 number with a mantissa of
    53 digits: the integer, shifted left. *)
Lemma Z2F_finite (l : Z) :
  0 < l < 2 ^ 53 →
  ∃ (m : positive) (a : Z),
    Prim2SF (Z2F l) = S754_finite false m (- a)
    ∧ Zpos m = l * 2 ^ a ∧ 0 <= a <= 52 ∧ 2 ^ 52 <= Zpos m < 2 ^ 53.
Proof.
  intros Hl. destruct l as [|p|p]; [lia| |lia].
  unfold Z2F. rewrite of_uint63_spec, Uint63.of_Z_spec.
  rewrite Z.mod_small by (change wB with (2 ^ 63); split; [lia|];
    apply Z.lt_trans with (2 ^ 53); [lia|reflexivity]).
  cbn [binary_normalize]. unfold binary_round.
  pose proof (digits2_pos_bounds p) as Hd.
  set (d := Zpos (digits2_pos p)) in *.
  assert (1 <= d <= 53) as Hd53.
  { split; [subst d; lia|]. clearbody d.
    destruct (Z.le_gt_cases d 53) as [|Hgt]; [done|].
    assert (2 ^ 53 <= 2 ^ (d - 1)) by (apply Z.pow_le_mono_r; lia). lia. }
  clearbody d. unfold fexp, emin, prec, emax.
  replace (Z.max (d + 0 - 53) (3 - 1024 - 53)) with (d - 53) by lia.
  unfold shl_align.
  destruct (d - 53 - 0) as [|k|k] eqn:Hk; [|lia|].
  - exists p, 0. assert (d = 53) as Hd' by lia. rewrite Hd' in Hd.
    rewrite round_aux_53 by (change (53 - 1) with 52 in Hd; lia).
    cbn [round_nearest_even]. cbv zeta.
    destruct (Z.eqb_spec (Zpos p) (2 ^ 53)); [lia|].
    split_and!; [done|lia|lia|lia|change (53 - 1) with 52 in Hd; lia|lia].
  - set (mz := Pos.iter xO p k).
    assert (Zpos mz = Zpos p * 2 ^ (53 - d)) as Hmz.
    { subst mz. rewrite iter_xO_pow. f_equal. f_equal. lia. }
    assert (2 ^ 52 <= Zpos mz < 2 ^ 53) as Hb.
    { assert (2 ^ 52 = 2 ^ (d - 1) * 2 ^ (53 - d)) as H52
        by (rewrite <- Z.pow_add_r by lia; f_equal; lia).
      assert (2 ^ 53 = 2 ^ d * 2 ^ (53 - d)) as H53
        by (rewrite <- Z.pow_add_r by lia; f_equal; lia).
      assert (0 < 2 ^ (53 - d)) by (apply Z.pow_pos_nonneg; lia).
      rewrite Hmz, H52, H53.
      split; [apply Z.mul_le_mono_nonneg_r; lia|apply Z.mul_lt_mono_pos_r; lia]. }
    exists mz, (53 - d).
    rewrite round_aux_53 by (done || lia).
    cbn [round_nearest_even]. cbv zeta.
    destruct (Z.eqb_spec (Zpos mz) (2 ^ 53)); [lia|].
    split_and!; [f_equal; lia|done|lia|lia|lia|lia].
Qed.

Lemma pow2_divide (j k : Z) : 0 <= j → 0 <= k → (2 ^ j | 2 ^ k) ↔ j <= k.
Proof.
  intros Hj Hk. split.
  - intros Hdiv. destruct (Z.le_gt_cases j k) as [|Hgt]; [done|].
    apply Z.divide_pos_le in Hdiv; [|apply Z.pow_pos_nonneg; lia].
    assert (2 ^ k < 2 ^ j) by (apply Z.pow_lt_mono_r; lia). lia.
  - intros Hle. exists (2 ^ (k - j)). rewrite <- Z.pow_add_r by lia. f_equal. lia.
Qed.

Lemma finite_integral (s : bool) (m : positive) (e : Z) :
  e <= 0 → SF_isInteger (S754_finite s m e) = true ↔ (2 ^ (- e) | Zpos m).
Proof.
  intros He. cbn [SF_isInteger]. destruct e as [|k|k]; [|lia|].
  - split; [intros _; apply Z.divide_1_l|done].
  - change (- Zneg k) with (Zpos k). rewrite Z.land_ones by lia.
    rewrite Z.eqb_eq. rewrite Z.mod_divide; [done|].
    apply Z.pow_nonzero; lia.
Qed.

Lemma normal_integral (s : bool) (m e : Z) :
  2 ^ 52 <= m <= 2 ^ 53 → e <= 0 →
  SF_isInteger (normal s m e) = true ↔ (2 ^ (- e) | m).
Proof.
  intros Hm He. unfold normal. destruct (Z.eqb_spec m (2 ^ 53)) as [->|Hne].
  - destruct (Z.eq_dec e 0) as [->|He0].
    + split; [intros _; apply Z.divide_1_l|done].
    + rewrite finite_integral by lia.
      change (Zpos (2 ^ 52)) with (2 ^ 52).
      rewrite !pow2_divide by lia. lia.
  - destruct m as [|p|p]; [lia| |lia]. by apply finite_integral.
Qed.

Lemma normal_toLength (m e : Z) :
  2 ^ 52 <= m <= 2 ^ 53 → e <= 0 → (2 ^ (- e) | m) →
  SF_toLength (normal false m e) = Z.to_nat (m / 2 ^ (- e)).
Proof.
  intros Hm He Hdiv. unfold normal. destruct (Z.eqb_spec m (2 ^ 53)) as [->|Hne].
  - cbn [SF_toLength]. f_equal. change (Zpos (2 ^ 52)) with (2 ^ 52).
    destruct (Z.eq_dec e 0) as [->|He0]; [reflexivity|].
    rewrite Z.shiftl_div_pow2 by lia.
    replace (- (e + 1)) with (- e - 1) by lia.
    replace (2 ^ 53) with (2 ^ 52 * 2) by reflexivity.
    replace (2 ^ (- e)) with (2 ^ (- e - 1) * 2)
      by (rewrite Z.mul_comm, <- Z.pow_succ_r by lia; f_equal; lia).
    rewrite Z.div_mul_cancel_r; [done| |lia]. apply Z.pow_nonzero; lia.
  - destruct m as [|p|p]; [lia| |lia]. cbn [SF_toLength]. f_equal.
    by rewrite Z.shiftl_div_pow2 by lia.
Qed.

(** The location of the exact quotient is exact only without remainder. *)
Lemma new_location_exact (nb k : Z) : new_location nb k = loc_Exact ↔ k = 0.
Proof.
  unfold new_location, new_location_even, new_location_odd.
  destruct (Z.even nb), (Z.eqb_spec k 0); split; done.
Qed.

(** Rounding without a shift goes to the mantissa or the next one. *)
Lemma round_nearest_even_cases (m : Z) (l : location) :
  let m' := round_nearest_even m l in
  (m' = m ∨ m' = m + 1) ∧ (l = loc_Exact → m' = m).
Proof.
  cbv zeta. destruct l as [|[]]; cbn [round_nearest_even];
    try destruct (Z.even m); (split; [auto|done]).
Qed.

(** Rounding after a shift of one digit: the half goes up only when the
    digit shifted out is 1, and does so when more than that is lost. *)
Lemma shifted_round_cases (q : positive) (l : location) :
  let mrs := shr_1 (shr_record_of_loc (Zpos q) l) in
  let m' := round_nearest_even (shr_m mrs) (loc_of_shr_record mrs) in
  (m' = Zpos q / 2 ∨ (m' = Zpos q / 2 + 1 ∧ Zpos q mod 2 = 1))
  ∧ (Zpos q mod 2 = 1 → l ≠ loc_Exact → m' = Zpos q / 2 + 1)
  ∧ (Zpos q mod 2 = 0 → m' = Zpos q / 2).
Proof.
  destruct q as [p|p|].
  - assert (Zpos p~1 / 2 = Zpos p) as ->.
    { rewrite Pos2Z.inj_xI, (Z.mul_comm 2), Z.div_add_l by lia. change (1 / 2) with 0. lia. }
    assert (Zpos p~1 mod 2 = 1) as ->.
    { rewrite Pos2Z.inj_xI, (Z.mul_comm 2), Z.add_comm, Z.mod_add by lia. done. }
    destruct l as [|[]]; cbn [shr_record_of_loc shr_1 shr_m loc_of_shr_record orb round_nearest_even];
      try (destruct (Z.even (Zpos p))); split_and!; auto; try done; try lia.
  - assert (Zpos p~0 / 2 = Zpos p) as ->.
    { by rewrite Pos2Z.inj_xO, (Z.mul_comm 2), Z.div_mul by lia. }
    assert (Zpos p~0 mod 2 = 0) as ->.
    { by rewrite Pos2Z.inj_xO, (Z.mul_comm 2), Z.mod_mul by lia. }
    destruct l as [|[]]; cbn [shr_record_of_loc shr_1 shr_m loc_of_shr_record orb round_nearest_even];
      split_and!; auto; try done; try lia.
  - change (1 / 2) with 0. change (1 mod 2) with 1.
    destruct l as [|[]]; cbn [shr_record_of_loc shr_1 shr_m loc_of_shr_record orb round_nearest_even];
      split_and!; auto; try done; try lia.
Qed.

(** A multiple of [p] strictly between [-p] and [p] is 0. *)
Lemma small_multiple (p j : Z) : 0 < p → - p < p * j < p → j = 0.
Proof. intros Hp Hj. nia. Qed.

(** The exact arithmetic behind the two roundings.  [l * 2^t = q * n + r]
    is the division the quotient is computed by; [m] is the mantissa it
    is rounded to, at the exponent [-t] when [q] has 53 digits. *)
Lemma rounded_quotient_53 (l n t q r m : Z) :
  0 < n → 1 <= t → n < 2 ^ t →
  l * 2 ^ t = q * n + r → 0 <= r < n →
  (m = q ∨ m = q + 1) → (r = 0 → m = q) →
  ((2 ^ t | m) ↔ (n | l)) ∧ ((n | l) → m / 2 ^ t = l / n).
Proof.
  intros Hn Ht Hnt Hdiv Hr Hm Hexact.
  assert (0 < 2 ^ t) as Hp by (apply Z.pow_pos_nonneg; lia).
  set (P := 2 ^ t) in *. clearbody P.
  assert ((n | l) → r = 0 ∧ q = (l / n) * P ∧ l = (l / n) * n) as Hback.
  { intros [d ->]. rewrite Z.div_mul by lia.
    assert (d * P - q = 0) as Hz by (apply (small_multiple n); nia).
    split_and!; [nia|lia|done]. }
  split; [split|].
  - intros [k Hk]. destruct Hm as [->| ->].
    + exists k. assert (l - k * n = 0) by (apply (small_multiple P); nia). lia.
    + exfalso. assert (l - k * n = 0) as Hz by (apply (small_multiple P); nia). nia.
  - intros Hnl. destruct (Hback Hnl) as (Hr0 & Hq & _).
    rewrite (Hexact Hr0), Hq. by exists (l / n).
  - intros Hnl. destruct (Hback Hnl) as (Hr0 & Hq & _).
    rewrite (Hexact Hr0), Hq. apply Z.div_mul. lia.
Qed.

(** The same when [q] has 54 digits: [m] rounds the half of [q], at the
    exponent [1 - t]. *)
Lemma rounded_quotient_54 (l n t q r m : Z) :
  0 < n → 1 <= t → n < 2 ^ t →
  l * 2 ^ t = q * n + r → 0 <= r < n →
  (m = q / 2 ∨ (m = q / 2 + 1 ∧ q mod 2 = 1)) →
  (q mod 2 = 1 → r ≠ 0 → m = q / 2 + 1) →
  (q mod 2 = 0 → m = q / 2) →
  ((2 ^ (t - 1) | m) ↔ (n | l)) ∧ ((n | l) → m / 2 ^ (t - 1) = l / n).
Proof.
  intros Hn Ht Hnt Hdiv Hr Hm Hup Hdown.
  assert (0 < 2 ^ (t - 1)) as Hp by (apply Z.pow_pos_nonneg; lia).
  assert (2 ^ t = 2 * 2 ^ (t - 1)) as Hpow
    by (rewrite <- Z.pow_succ_r by lia; f_equal; lia).
  set (H := 2 ^ (t - 1)) in *. clearbody H. rewrite Hpow in *. clear Hpow.
  pose proof (Z.div_mod q 2 ltac:(lia)) as Hq.
  pose proof (Z.mod_pos_bound q 2 ltac:(lia)) as Hb.
  set (a := q / 2) in *. set (b := q mod 2) in *. clearbody a b.
  assert ((n | l) → r = 0 ∧ b = 0 ∧ a = (l / n) * H) as Hback.
  { intros [d ->]. rewrite Z.div_mul by lia.
    assert (d * (2 * H) - q = 0) as Hz by (apply (small_multiple n); nia).
    assert (b = 0) by lia. split_and!; [nia|done|lia]. }
  split; [split|].
  - intros [k Hk]. destruct Hm as [->|[-> Hb1]].
    + destruct (Z.eq_dec b 0) as [Hb0|Hb0].
      * exists k. assert (l - k * n = 0) by (apply (small_multiple (2 * H)); nia). lia.
      * exfalso. assert (b = 1) as Hb1 by lia.
        destruct (Z.eq_dec r 0) as [Hr0|Hr0].
        -- assert (l - k * n = 0) by (apply (small_multiple (2 * H)); nia). nia.
        -- specialize (Hup Hb1 Hr0). lia.
    + exfalso. assert (l - k * n = 0) by (apply (small_multiple (2 * H)); nia). nia.
  - intros Hnl. destruct (Hback Hnl) as (Hr0 & Hb0 & Ha).
    rewrite (Hdown Hb0), Ha. by exists (l / n).
  - intros Hnl. destruct (Hback Hnl) as (Hr0 & Hb0 & Ha).
    rewrite (Hdown Hb0), Ha. apply Z.div_mul. lia.
Qed.

(** The division of two mantissas of 53 digits: the dividend is shifted by
    53 digits and divided. *)
Lemma div_core_53 (m1 m2 : positive) (a1 a2 : Z) :
  2 ^ 52 <= Zpos m1 < 2 ^ 53 → 2 ^ 52 <= Zpos m2 < 2 ^ 53 →
  0 <= a1 <= 52 → 0 <= a2 <= 52 →
  SFdiv prec emax (S754_finite false m1 (- a1)) (S754_finite false m2 (- a2))
  = binary_round_aux prec emax false
      (Zpos m1 * 2 ^ 53 / Zpos m2) (a2 - a1 - 53)
      (new_location (Zpos m2) ((Zpos m1 * 2 ^ 53) mod Zpos m2)).
Proof.
  intros H1 H2 Ha1 Ha2. unfold SFdiv, SFdiv_core_binary.
  cbn [Zdigits2]. rewrite (digits2_pos_unique m1 53), (digits2_pos_unique m2 53) by done.
  unfold fexp, emin, prec, emax.
  replace (Z.min (Z.max (53 + - a1 - (53 + - a2) - 53) (3 - 1024 - 53)) (- a1 - - a2))
    with (a2 - a1 - 53) by lia.
  replace (- a1 - - a2 - (a2 - a1 - 53)) with 53 by lia.
  rewrite Z.shiftl_mul_pow2 by lia.
  unfold Z.div, Z.modulo.
  by destruct (Z.div_eucl (Zpos m1 * 2 ^ 53) (Zpos m2)).
Qed.

Lemma SF_isInteger_spec (x : float) : F_isInteger x = SF_isInteger (Prim2SF x).
Proof. reflexivity. Qed.

Lemma SF_toLength_spec (x : float) : F_toLength x = SF_toLength (Prim2SF x).
Proof. reflexivity. Qed.

(** The quotient of two lengths, on binary64 numbers: it is an integer
    exactly when the division is exact, and then it is the quotient. *)
Lemma SF_quotient (l n : Z) :
  0 < l < 2 ^ 53 → 0 < n < 2 ^ 53 →
  let x := SFdiv prec emax (Prim2SF (Z2F l)) (Prim2SF (Z2F n)) in
  (SF_isInteger x = true ↔ (n | l))
  ∧ ((n | l) → SF_toLength x = Z.to_nat (l / n)).
Proof.
  intros Hl Hn.
  destruct (Z2F_finite l Hl) as (m1 & a1 & -> & Hm1 & Ha1 & Hb1).
  destruct (Z2F_finite n Hn) as (m2 & a2 & -> & Hm2 & Ha2 & Hb2).
  cbv zeta. rewrite div_core_53 by done.
  set (t := 53 + a1 - a2).
  assert (1 <= t) as Ht by lia.
  assert (0 < 2 ^ a2) as Hp2 by (apply Z.pow_pos_nonneg; lia).
  assert (0 < 2 ^ a1) as Hp1 by (apply Z.pow_pos_nonneg; lia).
  assert (Zpos m1 * 2 ^ 53 = l * 2 ^ t * 2 ^ a2) as Hnum.
  { rewrite Hm1, <- !Z.mul_assoc, <- !Z.pow_add_r by lia. do 2 f_equal. lia. }
  rewrite Hnum, Hm2.
  rewrite Z.div_mul_cancel_r by lia.
  rewrite Z.mul_mod_distr_r by lia.
  set (q := l * 2 ^ t / n). set (r := (l * 2 ^ t) mod n).
  assert (l * 2 ^ t = q * n + r) as Hdiv.
  { subst q r. rewrite (Z.mul_comm _ n). apply Z.div_mod. lia. }
  assert (0 <= r < n) as Hr by (apply Z.mod_pos_bound; lia).
  assert (n < 2 ^ t) as Hnt.
  { assert (2 ^ 53 <= 2 ^ t * 2 ^ a2) as Hle.
    { rewrite <- Z.pow_add_r by lia. apply Z.pow_le_mono_r; lia. }
    assert (0 < 2 ^ t) by (apply Z.pow_pos_nonneg; lia). nia. }
  assert (2 ^ 52 <= q < 2 ^ 54) as Hq.
  { assert (q = Zpos m1 * 2 ^ 53 / Zpos m2) as ->.
    { subst q. rewrite Hnum, Hm2. by rewrite Z.div_mul_cancel_r by lia. }
    rewrite pow2_53 in *. rewrite pow2_52 in *.
    replace (2 ^ 54) with 18014398509481984 by reflexivity.
    split; [apply Z.div_le_lower_bound; nia|apply Z.div_lt_upper_bound; nia]. }
  assert (r * 2 ^ a2 = 0 ↔ r = 0) as Hr0 by nia.
  assert (new_location (n * 2 ^ a2) (r * 2 ^ a2) = loc_Exact ↔ r = 0) as Hloc
    by (by rewrite new_location_exact).
  set (loc := new_location (n * 2 ^ a2) (r * 2 ^ a2)) in *. clearbody loc.
  destruct q as [|qp|qp] eqn:Hqp; [lia| |lia].
  destruct (Z.lt_ge_cases (Zpos qp) (2 ^ 53)) as [H53|H54].
  - rewrite round_aux_53 by lia. cbv zeta.
    pose proof (round_nearest_even_cases (Zpos qp) loc) as [Hm Hex]. cbv zeta in Hm, Hex.
    set (m := round_nearest_even (Zpos qp) loc) in *. clearbody m.
    change ((SF_isInteger (normal false m (a2 - a1 - 53)) = true ↔ (n | l))
            ∧ ((n | l) → SF_toLength (normal false m (a2 - a1 - 53)) = Z.to_nat (l / n))).
    destruct (rounded_quotient_53 l n t (Zpos qp) r m) as [Hiff Hval];
      [lia|done|done|done|done|done|tauto|].
    replace (2 ^ t) with (2 ^ (- (a2 - a1 - 53))) in Hiff, Hval by (f_equal; lia).
    split.
    + rewrite normal_integral by lia. done.
    + intros Hnl. rewrite normal_toLength by (lia || tauto). f_equal. tauto.
  - rewrite round_aux_54 by lia. cbv zeta.
    pose proof (shifted_round_cases qp loc) as (Hm & Hup & Hdown). cbv zeta in Hm, Hup, Hdown.
    set (m := round_nearest_even _ _) in *. clearbody m.
    replace (a2 - a1 - 53 + 2) with (a2 - a1 - 53 + 1 + 1) by lia.
    change ((SF_isInteger (normal false m (a2 - a1 - 53 + 1)) = true ↔ (n | l))
            ∧ ((n | l) → SF_toLength (normal false m (a2 - a1 - 53 + 1)) = Z.to_nat (l / n))).
    destruct (rounded_quotient_54 l n t (Zpos qp) r m) as [Hiff Hval];
      [lia|done|done|done|done|done|intros; apply Hup; tauto|done|].
    replace (2 ^ (t - 1)) with (2 ^ (- (a2 - a1 - 53 + 1))) in Hiff, Hval by (f_equal; lia).
    assert (2 ^ 52 <= Zpos qp / 2 < 2 ^ 53) as Hhalf.
    { replace (2 ^ 54) with (2 ^ 53 * 2) in Hq by reflexivity.
      split; [apply Z.div_le_lower_bound; lia|apply Z.div_lt_upper_bound; lia]. }
    split.
    + rewrite normal_integral by lia. done.
    + intros Hnl. rewrite normal_toLength by (lia || tauto). f_equal. tauto.
Qed.

Lemma float_quotient (l n : nat) :
  (0 < n)%nat → Z.of_nat l < 2 ^ 53 → Z.of_nat n < 2 ^ 53 →
  let x := (Z2F (Z.of_nat l) / Z2F (Z.of_nat n))%float in
  (F_isInteger x = true ↔ ∃ d, l = (n * d)%nat)
  ∧ (∀ d, l = (n * d)%nat → F_toLength x = d).
Proof.
  intros Hn Hl53 Hn53. cbv zeta.
  rewrite SF_isInteger_spec, SF_toLength_spec, FloatAxioms.div_spec.
  unfold SF64div.
  assert ((Z.of_nat n | Z.of_nat l) ↔ ∃ d, l = (n * d)%nat) as Hdiv.
  { split.
    - intros [k Hk]. exists (Z.to_nat k). nia.
    - intros [d ->]. exists (Z.of_nat d). lia. }
  assert (∀ d, l = (n * d)%nat → Z.to_nat (Z.of_nat l / Z.of_nat n) = d) as Hval.
  { intros d ->. rewrite Nat2Z.inj_mul, Z.mul_comm, Z.div_mul by lia. lia. }
  destruct (Nat.eq_dec l 0%nat) as [->|Hl0].
  - destruct (Z2F_finite (Z.of_nat n)) as (m & a & -> & _); [lia|].
    change (Prim2SF (Z2F (Z.of_nat 0))) with (S754_zero false).
    cbn [SFdiv SF_isInteger SF_toLength xorb]. split.
    + split; [intros _; by exists 0%nat|done].
    + intros d Hd. symmetry in Hd. apply Nat.eq_mul_0 in Hd as [?|?]; lia.
  - destruct (SF_quotient (Z.of_nat l) (Z.of_nat n)) as [Hiff Hq]; [lia|lia|].
    cbv zeta in Hiff, Hq. split.
    + by rewrite Hiff.
    + intros d Hd. rewrite Hq by (apply Hdiv; eauto). by apply Hval.
Qed.

End BinaryQuotient.

(** ** Exact arithmetic *)

Lemma R_ltb_true (a b : R) : R_ltb a b = true ↔ (a < b)%R.
Proof. unfold R_ltb. destruct (Rlt_dec a b); split; (done || congruence). Qed.

Lemma R_ltb_false (a b : R) : R_ltb a b = false ↔ (b <= a)%R.
Proof. unfold R_ltb. destruct (Rlt_dec a b); split; try done; lra. Qed.

Lemma R_eqb_true (a b : R) : R_eqb a b = true ↔ a = b.
Proof. unfold R_eqb. destruct (Req_dec_T a b); split; (done || congruence). Qed.

Lemma R_eqb_false (a b : R) : R_eqb a b = false ↔ a ≠ b.
Proof. unfold R_eqb. destruct (Req_dec_T a b); split; (done || congruence). Qed.

Lemma Int_part_IZR (z : Z) : Int_part (IZR z) = z.
Proof. symmetry. apply Int_part_spec. lra. Qed.

Lemma R_isInteger_spec (r : R) : R_isInteger r = true ↔ ∃ z : Z, r = IZR z.
Proof.
  unfold R_isInteger. rewrite R_eqb_true. split; [by eexists|].
  intros [z ->]. by rewrite Int_part_IZR.
Qed.

(** The quotient of two lengths is an integer exactly when the division
    is exact. *)
Lemma exact_quotient (l n : nat) :
  n ≠ 0%nat →
  R_isInteger (IZR (Z.of_nat l) / IZR (Z.of_nat n)) = true ↔ ∃ d, l = (n * d)%nat.
Proof.
  intros Hn.
  assert (IZR (Z.of_nat n) ≠ 0%R) as Hn' by (apply not_0_IZR; lia).
  rewrite R_isInteger_spec. split.
  - intros [z Hz].
    assert (IZR (Z.of_nat l) = IZR (z * Z.of_nat n)) as Heq.
    { rewrite mult_IZR, <- Hz. by field. }
    apply eq_IZR in Heq. exists (Z.to_nat z). nia.
  - intros [d ->]. exists (Z.of_nat d).
    rewrite Nat2Z.inj_mul, mult_IZR. by field.
Qed.

(** C4, as amended.  On binary64 numbers, for lengths below 2^53 (as all
    JavaScript lengths are): with a vocabulary of at least one word,
    loading fails with the dimension error when the number of floats is
    not a multiple of the number of words, and succeeds with [dims = D]
    when it is [N * D]; with no word, loading fails whatever the number
    of floats. *)
Theorem loadVocabulary_divisibility (ws : list string) (vs : list float) :
  ws ≠ [] →
  (Z.of_nat (length ws) < 2 ^ 53)%Z → (Z.of_nat (length vs) < 2 ^ 53)%Z →
  ((¬ ∃ d, length vs = (length ws * d)%nat) →
     loadVocabulary {| ok := true; body := ws |} {| ok := true; body := vs |}
     = inl (DimensionMismatch (length vs) (length ws)))
  ∧ (∀ d, length vs = (length ws * d)%nat →
     loadVocabulary {| ok := true; body := ws |} {| ok := true; body := vs |}
     = inr {| words := ws; vectors := vs; dims := d |})
  ∧ loadVocabulary {| ok := true; body := [] |} {| ok := true; body := vs |}
    = inl (DimensionMismatch (length vs) 0).
Proof.
  intros Hws Hn53 Hl53.
  assert (0 < length ws)%nat as Hn by (destruct ws; [done|simpl; lia]).
  destruct (float_quotient (length vs) (length ws) Hn Hl53 Hn53) as [Hiff Hval].
  cbv zeta in Hiff, Hval.
  split_and!; [| |apply loadVocabulary_no_word];
    unfold loadVocabulary; cbn [ok body negb isInteger toLength ndiv ofZ float_number].
  - intros Hnd. destruct (F_isInteger _); [|done].
    exfalso. by apply Hnd, Hiff.
  - intros d Hd. rewrite (proj2 Hiff) by eauto.
    cbn [negb]. do 2 f_equal. by apply Hval.
Qed.

Lemma loadVocabulary_divisibility_witness :
  ["up"; "down"] ≠ []
  ∧ loadVocabulary {| ok := true; body := ["up"; "down"] |}
                   {| ok := true; body := [1; 0; 2; 0; 1; 3]%float |}
    = inr {| words := ["up"; "down"]; vectors := [1; 0; 2; 0; 1; 3]%float; dims := 3 |}.
Proof.
  assert (["up"; "down"] ≠ ([] : list string)) as H by discriminate.
  split; [exact H|].
  apply (proj1 (proj2 (loadVocabulary_divisibility ["up"; "down"] [1; 0; 2; 0; 1; 3]%float
                         H eq_refl eq_refl)) 3%nat).
  reflexivity.
Defined.

(** C4, as stated, fails on an empty vocabulary: no float is a multiple of
    no word ([0 = 0 * D] for every [D]), yet [0 / 0] is NaN, not an
    integer, and loading fails. *)
Lemma loadVocabulary_divisibility_counterexample :
  length ([] : list float) = (length ([] : list string) * 3)%nat
  ∧ loadVocabulary {| ok := true; body := [] |} {| ok := true; body := ([] : list float) |}
    = inl (DimensionMismatch 0 0).
Proof. split; reflexivity. Qed.

(** ** The rows of the embedding buffer *)

Lemma getVector_length {num : Type} {N : Number num} (vectors : list num) (dims n index : nat) :
  length vectors = (n * dims)%nat → (index < n)%nat →
  length (getVector index vectors dims) = dims.
Proof.
  intros Hlen Hi. unfold getVector. rewrite length_take, length_drop, Hlen. nia.
Qed.

(** X1.  On a buffer of [n] rows of [dims] numbers, [getVector] at an index
    below [n] is the row of that index: [dims] numbers long, its entry [j]
    the entry [index * dims + j] of the buffer.  At an index from [n] on it
    is the empty array, not an error. *)
Theorem getVector_row {num : Type} {N : Number num} (vectors : list num) (dims n index : nat) :
  length vectors = (n * dims)%nat →
  ((index < n)%nat →
     length (getVector index vectors dims) = dims
     ∧ ∀ j, (j < dims)%nat →
         getVector index vectors dims !! j = vectors !! (index * dims + j)%nat)
  ∧ ((n ≤ index)%nat → getVector index vectors dims = []).
Proof.
  intros Hlen. split.
  - intros Hi. split; [by eapply getVector_length|].
    intros j Hj. unfold getVector. by rewrite lookup_take_lt, lookup_drop by done.
  - intros Hi. unfold getVector. rewrite drop_ge by nia. by rewrite take_nil.
Qed.

Lemma getVector_row_witness :
  length (vectors toyVocab) = (5 * 2)%nat
  ∧ getVector 4 (vectors toyVocab) 2 !! 1%nat = vectors toyVocab !! 9%nat
  ∧ getVector 5 (vectors toyVocab) 2 = [].
Proof.
  assert (length (vectors toyVocab) = (5 * 2)%nat) as H by reflexivity.
  split; [exact H|]. split.
  - apply (proj1 (getVector_row (vectors toyVocab) 2 5 4 H)); lia.
  - apply (proj2 (getVector_row (vectors toyVocab) 2 5 5 H)). lia.
Defined.

Lemma getVector_rows_take {num : Type} {N : Number num} (vectors : list num) (dims n : nat) :
  concat (map (λ index, getVector index vectors dims) (seq 0 n)) = take (n * dims) vectors.
Proof.
  induction n as [|n IH]; [done|].
  rewrite seq_S, map_app, concat_app, IH. simpl. rewrite app_nil_r.
  unfold getVector. rewrite take_take_drop. f_equal. lia.
Qed.

(** X2.  The rows tile the buffer: on a buffer of [n] rows of [dims]
    numbers, the rows [getVector] gives for the indices 0 to [n - 1], one
    after the other, are the buffer itself; no entry is read twice and
    none is skipped. *)
Theorem getVector_rows_tile {num : Type} {N : Number num} (vectors : list num) (dims n : nat) :
  length vectors = (n * dims)%nat →
  concat (map (λ index, getVector index vectors dims) (seq 0 n)) = vectors.
Proof.
  intros Hlen. rewrite getVector_rows_take. apply take_ge. lia.
Qed.

Lemma getVector_rows_tile_witness :
  length (vectors toyVocab) = (5 * 2)%nat
  ∧ concat (map (λ index, getVector index (vectors toyVocab) 2) (seq 0 5))
    = vectors toyVocab.
Proof.
  assert (length (vectors toyVocab) = (5 * 2)%nat) as H by reflexivity.
  split; [exact H|]. apply (getVector_rows_tile (vectors toyVocab) 2 5 H).
Defined.

(** ** Cosine similarity and the length of its arguments *)

Lemma read_take {num : Type} {N : Number num} (v : list num) (n i : nat) :
  (i < n)%nat → read (take n v) i = read v i.
Proof. intros Hi. unfold read. by rewrite lookup_take_lt. Qed.

Lemma foldl_ext_in {A B : Type} (f g : A → B → A) (a : A) (l : list B) :
  (∀ a b, b ∈ l → f a b = g a b) → foldl f a l = foldl g a l.
Proof.
  revert a. induction l as [|b l IH]; intros a Hfg; simpl; [done|].
  rewrite Hfg by (by left). apply IH. intros ???. apply Hfg. by right.
Qed.

(** X3.  The loop of [cosineSimilarity] runs over the indices of its
    first argument only: whatever the second argument holds past the
    length of the first is never read, and changes nothing. *)
Theorem cosineSimilarity_truncates {num : Type} {N : Number num} (a b : list num) :
  cosineSimilarity a b = cosineSimilarity a (take (length a) b).
Proof.
  unfold cosineSimilarity.
  assert (cosineSums a b = cosineSums a (take (length a) b)) as ->; [|done].
  unfold cosineSums. apply foldl_ext_in. intros s i Hi%elem_of_seq.
  unfold cosineStep. rewrite read_take by lia. done.
Qed.

(** ** Axis vectors shorter than the rows *)

Section ShortVectors.

Local Open Scope num_scope.

(** binary64 has one NaN. *)
Lemma float_nan_unique (x : float) : Prim2SF x = S754_nan → x = PrimFloat.nan.
Proof. intros H. rewrite <- (SF2Prim_Prim2SF x), H. reflexivity. Qed.

Lemma nan_add_l (x : float) : (PrimFloat.nan + x)%float = PrimFloat.nan.
Proof. apply float_nan_unique. rewrite FloatAxioms.add_spec. by destruct (Prim2SF x). Qed.

Lemma nan_add_r (x : float) : (x + PrimFloat.nan)%float = PrimFloat.nan.
Proof.
  apply float_nan_unique. rewrite FloatAxioms.add_spec.
  change (Prim2SF PrimFloat.nan) with S754_nan. by destruct (Prim2SF x).
Qed.

Lemma nan_mul_r (x : float) : (x * PrimFloat.nan)%float = PrimFloat.nan.
Proof.
  apply float_nan_unique. rewrite FloatAxioms.mul_spec.
  change (Prim2SF PrimFloat.nan) with S754_nan. by destruct (Prim2SF x).
Qed.

Lemma nan_div_l (x : float) : (PrimFloat.nan / x)%float = PrimFloat.nan.
Proof. apply float_nan_unique. rewrite FloatAxioms.div_spec. by destruct (Prim2SF x). Qed.

(** Past the end of [b] the loop adds NaN to the products and to the
    squares of [b], and NaN stays. *)
Lemma read_past {num : Type} {N : Number num} (v : list num) (i : nat) :
  (length v ≤ i)%nat → read v i = nan.
Proof. intros Hi. unfold read. by rewrite lookup_ge_None_2. Qed.

Lemma cosineSums_short (a b : list float) (n : nat) :
  (length b < n)%nat →
  let s := foldl (cosineStep a b) {| dot := num0; magA := num0; magB := num0 |} (seq 0 n) in
  dot s = PrimFloat.nan ∧ magB s = PrimFloat.nan.
Proof.
  intros Hn. cbv zeta. induction n as [|n IH]; [lia|].
  rewrite seq_S, foldl_app. cbn [foldl cosineStep dot magA magB Nat.add].
  destruct (decide (length b = n)) as [<-|Hne].
  - rewrite (read_past b (length b)) by lia.
    cbn [nan float_number nmul nadd].
    by rewrite !nan_mul_r, !nan_add_r.
  - destruct IH as [-> ->]; [lia|].
    cbn [nmul nadd float_number]. by rewrite !nan_add_l.
Qed.

Lemma cosineSums_magA (a b b' : list float) :
  magA (cosineSums a b) = magA (cosineSums a b').
Proof.
  unfold cosineSums. generalize (seq 0 (length a)) as l.
  assert (∀ (l : list nat) (s s' : CosSums float), magA s = magA s' →
            magA (foldl (cosineStep a b) s l) = magA (foldl (cosineStep a b') s' l)) as H.
  { induction l as [|i l IH]; intros s s' Hs; simpl; [done|].
    apply IH. simpl. by rewrite Hs. }
  intros l. by apply H.
Qed.

(** Against a shorter vector the similarity is 0 when the first vector
    has norm 0, and NaN otherwise. *)
Lemma cosineSimilarity_short (a b : list float) :
  (length b < length a)%nat →
  cosineSimilarity a b
  = if nsqrt (magA (cosineSums a [])) =? num0 then num0 else PrimFloat.nan.
Proof.
  intros Hlen. unfold cosineSimilarity.
  destruct (cosineSums_short a b (length a) Hlen) as [Hd Hb].
  fold (cosineSums a b) in Hd, Hb. rewrite Hd, Hb, (cosineSums_magA a b []).
  destruct (nsqrt (magA (cosineSums a [])) =? num0); [done|].
  cbn [orb ndiv float_number]. change (nsqrt PrimFloat.nan =? num0) with false.
  cbn iota. by rewrite nan_div_l.
Qed.

Lemma axisDiff_short (vec pos neg : list float) :
  (length pos < length vec)%nat → (length neg < length vec)%nat →
  axisDiff vec pos neg
  = if nsqrt (magA (cosineSums vec [])) =? num0 then num0 else PrimFloat.nan.
Proof.
  intros Hp Hn. unfold axisDiff. rewrite !cosineSimilarity_short by done.
  by destruct (nsqrt (magA (cosineSums vec [])) =? num0).
Qed.

Lemma relevance_short (vocabData : VocabData float) (axisVectors : SixAxes (list float))
    (axisWords : gset string) (i : nat) (w : string) :
  length (vectors vocabData) = (length (words vocabData) * dims vocabData)%nat →
  (i < length (words vocabData))%nat →
  Forall (λ v, (length v < dims vocabData)%nat) (axisList axisVectors) →
  (relevance vocabData axisVectors axisWords i w >? num0) = false.
Proof.
  intros Hlen Hi Hshort. unfold relevance.
  destruct (bool_decide (w ∈ axisWords) || negb (isQualityWord w)); [done|].
  pose proof (getVector_length (vectors vocabData) (dims vocabData) _ i Hlen Hi) as Hvec.
  unfold axisList in Hshort. rewrite !Forall_cons in Hshort.
  destruct Hshort as (H1 & H2 & H3 & H4 & H5 & H6 & _).
  cbv zeta. rewrite !axisDiff_short by (rewrite Hvec; done).
  by destruct (nsqrt (magA (cosineSums _ [])) =? num0).
Qed.

End ShortVectors.

(** X7.  On binary64 numbers, with a buffer of whole rows: when the six axis
    vectors are all shorter than the rows (the embeddings of the axis
    words come from a model of a smaller dimensionality than the
    vocabulary's), the reads past their end leave no word with a
    positive magnitude, and [selectWordsForAxes] selects no word at all,
    without an error. *)
Theorem short_axes_select_nothing (vocabData : VocabData float)
    (axisVectors : SixAxes (list float)) (axisWords : gset string) (topK : nat) :
  length (vectors vocabData) = (length (words vocabData) * dims vocabData)%nat →
  Forall (λ v, (length v < dims vocabData)%nat) (axisList axisVectors) →
  let r := selectWordsForAxes vocabData axisVectors axisWords topK in
  indices r = []
  ∧ ∀ i, (i < length (words vocabData))%nat →
      (read (magnitudes r) i >? num0)%num = false.
Proof.
  intros Hlen Hshort r.
  assert (∀ i, (i < length (words vocabData))%nat →
            (read (magnitudes r) i >? num0)%num = false) as Hmags.
  { intros i Hi. destruct (lookup_lt_is_Some_2 (words vocabData) i Hi) as [w Hw].
    subst r. unfold read. simpl. rewrite list_lookup_imap, Hw. simpl.
    apply (relevance_short _ _ _ _ _ Hlen Hi Hshort). }
  split; [|exact Hmags].
  destruct (selected_spec vocabData axisVectors axisWords topK) as (sorted & Hperm & Hsel).
  fold r in Hsel. rewrite Hsel.
  assert (filter (positiveAt (magnitudes r)) sorted = []) as ->; [|by rewrite take_nil].
  apply elem_of_nil_inv. intros i [Hpos Hi]%list_elem_of_filter.
  rewrite Hperm in Hi. apply elem_of_seq in Hi as [_ Hi]. simpl in Hi.
  unfold positiveAt, isPositive in Hpos. by rewrite (Hmags i Hi) in Hpos.
Qed.

Lemma short_axes_select_nothing_witness :
  length (vectors toyVocab) = (length (words toyVocab) * dims toyVocab)%nat
  ∧ Forall (λ v, (length v < dims toyVocab)%nat) (axisList shortAxes)
  ∧ indices (selectWordsForAxes toyVocab shortAxes ∅ 7000) = [].
Proof.
  assert (length (vectors toyVocab) = (length (words toyVocab) * dims toyVocab)%nat)
    as H1 by reflexivity.
  assert (Forall (λ v, (length v < dims toyVocab)%nat) (axisList shortAxes)) as H2.
  { unfold axisList, shortAxes. simpl. repeat constructor. }
  split; [exact H1|]. split; [exact H2|].
  apply (proj1 (short_axes_select_nothing toyVocab shortAxes ∅ 7000 H1 H2)).
Defined.
(** ** The model and its pipeline *)

(** X8.  [loadModel] tries all-mpnet-base-v2 and then all-MiniLM-L6-v2, and
    keeps the first pipeline that loads, without asking for the second
    model when the first loads.  When both fail it warns twice, throws
    the error that names the two models and leaves the module's pipeline
    as it was.  It returns without an error exactly when one of the two
    models loads. *)
Theorem loadModel_fallback {P : Type} (factory : string → string + P) (current : option P) :
  let mpnet := "Xenova/all-mpnet-base-v2"%string in
  let miniLM := "Xenova/all-MiniLM-L6-v2"%string in
  let r := loadModel factory current in
  (∀ p, factory mpnet = inr p →
     r = {| events := [Request mpnet; Loaded mpnet]; _pipeline := Some p; thrown := None |})
  ∧ (∀ p, ¬ loads factory mpnet → factory miniLM = inr p →
     r = {| events := [Request mpnet; Warn mpnet; Request miniLM; Loaded miniLM];
            _pipeline := Some p; thrown := None |})
  ∧ (¬ loads factory mpnet → ¬ loads factory miniLM →
     r = {| events := [Request mpnet; Warn mpnet; Request miniLM; Warn miniLM];
            _pipeline := current; thrown := Some (NoModel MODELS) |})
  ∧ (thrown r = None ↔ loads factory mpnet ∨ loads factory miniLM).
Proof.
  intros mpnet miniLM r. subst r. unfold loadModel, MODELS, loads. simpl.
  fold mpnet miniLM.
  destruct (factory mpnet) as [e1|p1] eqn:H1; destruct (factory miniLM) as [e2|p2] eqn:H2;
    simpl; split_and!; try (intros; simplify_eq; done); try (intros; exfalso; eauto; done).
  all: try (split; [done|]; intros [[? ?]|[? ?]]; done).
  all: try (split; [intros _|done]; eauto).
Qed.

Lemma embedWords_calls {num : Type} (model : string → string + list num)
    (ws : list string) :
  match embedWords model ws with
  | (log, inr vectors) =>
      log = map Embed ws ∧ Forall2 (λ w v, model w = inr v) ws vectors
  | (log, inl err) =>
      ∃ done w rest,
        ws = done ++ w :: rest
        ∧ Forall (λ w, ∃ v, model w = inr v) done
        ∧ model w = inl err
        ∧ log = map Embed (done ++ [w])
  end.
Proof.
  induction ws as [|w ws IH]; simpl; [by split; [|constructor]|].
  destruct (model w) as [err|v] eqn:Hw.
  - exists [], w, ws. split_and!; [done|constructor|done|done].
  - destruct (embedWords model ws) as [log [err|vs]].
    + destruct IH as (pre & w' & rest & -> & Hpre & Hw' & ->).
      exists (w :: pre), w', rest. split_and!; [done| |done|done].
      constructor; eauto.
    + destruct IH as [-> Hall]. split; [done|]. by constructor.
Qed.

(** X9.  Without a pipeline [embedWords] throws 'Model not loaded' before
    any call of a model, and this is what it does after a [loadModel]
    that failed on both models from a fresh module.  With a pipeline it
    calls the model on the words in order, one call per word; it returns
    one vector per word, in the order of the words, each the model's
    output for that word; when the model throws on a word, it stops
    there with the model's error, the later words are never embedded. *)
Theorem embedWords_in_order {num : Type} (model : string → string + list num)
    (factory : string → string + (string → string + list num)) (ws : list string) :
  embedWordsWith (None : option (string → string + list num)) ws
  = ([], inl "Model not loaded. Call loadModel() first."%string)
  ∧ (¬ loads factory "Xenova/all-mpnet-base-v2" →
     ¬ loads factory "Xenova/all-MiniLM-L6-v2" →
     embedWordsWith (_pipeline (loadModel factory None)) ws
     = ([], inl "Model not loaded. Call loadModel() first."%string))
  ∧ match embedWordsWith (Some model) ws with
    | (log, inr vectors) =>
        log = map Embed ws ∧ Forall2 (λ w v, model w = inr v) ws vectors
    | (log, inl err) =>
        ∃ done w rest,
          ws = done ++ w :: rest
          ∧ Forall (λ w, ∃ v, model w = inr v) done
          ∧ model w = inl err
          ∧ log = map Embed (done ++ [w])
    end.
Proof.
  split_and!.
  - reflexivity.
  - intros H1 H2. unfold loadModel, MODELS, loads in *. simpl.
    destruct (factory "Xenova/all-mpnet-base-v2") as [e1|p1]; [|exfalso; eauto].
    destruct (factory "Xenova/all-MiniLM-L6-v2") as [e2|p2]; [|exfalso; eauto].
    reflexivity.
  - unfold embedWordsWith. apply embedWords_calls.
Qed.

(** ** The nearest words *)

Section NearestFacts.
Context {num : Type} {N : Number num}.
Local Open Scope num_scope.

(** What [findNearbyWords] returns: the first [count] entries of a
    rearrangement of the entries of the visible sprites. *)
Lemma findNearbyWords_spec (wordGroup : list (Sprite.t num)) (position : Vector3 num)
    (count : nat) :
  ∃ sorted, sorted ≡ₚ map (entry position) (filter shown wordGroup)
    ∧ findNearbyWords wordGroup position count = take count sorted.
Proof. eexists. split; [apply sortBy_perm|done]. Qed.

Lemma findNearbyWords_entries (wordGroup : list (Sprite.t num)) (position : Vector3 num)
    (count : nat) :
  let found := findNearbyWords wordGroup position count in
  length found = count `min` length (filter shown wordGroup)
  ∧ ∀ e, e ∈ found →
      ∃ sprite, sprite ∈ wordGroup ∧ Sprite.visible sprite = true
        ∧ e = entry position sprite.
Proof.
  intros found.
  destruct (findNearbyWords_spec wordGroup position count) as (sorted & Hperm & Hfound).
  fold found in Hfound. rewrite Hfound. split.
  - by rewrite length_take, Hperm, length_map.
  - intros e He. apply elem_of_take in He as (i & He & _).
    apply list_elem_of_lookup_2 in He. rewrite Hperm in He.
    apply list_elem_of_fmap in He as (sprite & -> & [Hs Hin]%list_elem_of_filter).
    by exists sprite.
Qed.

Lemma classify_visible (o : LodOptions num) (dist : num) (sprite : Sprite.t num) :
  Sprite.visible (classify o dist sprite) = negb (dist >? cullDistance o).
Proof.
  unfold classify. destruct (dist >? cullDistance o); [done|].
  by destruct (dist >? farDistance o), (dist <? innerFade o), (dist <? nearDistance o).
Qed.

Lemma classify_keeps (o : LodOptions num) (dist : num) (sprite : Sprite.t num) :
  Sprite.position (classify o dist sprite) = Sprite.position sprite
  ∧ Sprite.word (classify o dist sprite) = Sprite.word sprite
  ∧ Sprite.baseOpacity (classify o dist sprite) = Sprite.baseOpacity sprite.
Proof.
  unfold classify.
  by destruct (dist >? cullDistance o), (dist >? farDistance o), (dist <? innerFade o),
    (dist <? nearDistance o).
Qed.

End NearestFacts.

Lemma filter_map_iff {A B : Type} (f : A → B) (P : B → Prop) (Q : A → Prop)
    `{!∀ x, Decision (P x)} `{!∀ x, Decision (Q x)} (l : list A) :
  (∀ x, P (f x) ↔ Q x) → filter P (map f l) = map f (filter Q l).
Proof.
  intros HPQ. induction l as [|a l IH]; [done|].
  cbn [map]. rewrite !filter_cons.
  destruct (decide (Q a)) as [Hq|Hq].
  - rewrite decide_True by (by apply HPQ). cbn [map]. by rewrite IH.
  - rewrite decide_False by (by rewrite HPQ). done.
Qed.

(** X13.  [findNearbyWords] returns at most [count] entries, and exactly
    [count] unless fewer sprites are visible, then one per visible
    sprite.  Each entry is the word of a visible sprite with its distance
    to the position, hidden sprites are never reported, and no sprite
    is reported more often than it occurs in the group. *)
Theorem findNearbyWords_visible {num : Type} {N : Number num}
    (wordGroup : list (Sprite.t num)) (position : Vector3 num) (count : nat) :
  let found := findNearbyWords wordGroup position count in
  length found = count `min` length (filter shown wordGroup)
  ∧ found ⊆+ map (entry position) (filter shown wordGroup)
  ∧ ∀ e, e ∈ found →
      ∃ sprite, sprite ∈ wordGroup ∧ Sprite.visible sprite = true
        ∧ Nearby.word e = Sprite.word sprite
        ∧ Nearby.distance e = distanceTo (Sprite.position sprite) position.
Proof.
  intros found.
  destruct (findNearbyWords_entries wordGroup position count) as [Hlen Hall].
  fold found in Hlen, Hall. split_and!.
  - exact Hlen.
  - destruct (findNearbyWords_spec wordGroup position count) as (sorted & Hperm & Hfound).
    fold found in Hfound. rewrite Hfound, <- Hperm.
    apply sublist_submseteq, sublist_take.
  - intros e He. destruct (Hall e He) as (sprite & Hin & Hvis & ->).
    by exists sprite.
Qed.

(** X14.  After a pass of [updateWordVisibility] from the camera, the words
    [findNearbyWords] reports near the camera are those of sprites that
    are not beyond the cull distance, whatever their visibility was
    before the pass: each reported distance is at most the cull distance,
    and [count] words are reported unless fewer sprites are within it. *)
Theorem nearby_after_visibility_pass {num : Type} {N : Number num}
    (wordGroup : list (Sprite.t num)) (cameraPosition : Vector3 num)
    (o : LodOptions num) (count : nat) :
  let passed := updateWordVisibility wordGroup cameraPosition o in
  let found := findNearbyWords passed cameraPosition count in
  let within := withinCull o cameraPosition in
  length found = count `min` length (filter within wordGroup)
  ∧ ∀ e, e ∈ found →
      (Nearby.distance e >? cullDistance o)%num = false
      ∧ ∃ sprite, sprite ∈ wordGroup ∧ within sprite
          ∧ Nearby.word e = Sprite.word sprite
          ∧ Nearby.distance e = distanceTo (Sprite.position sprite) cameraPosition.
Proof.
  intros passed found within.
  destruct (findNearbyWords_entries passed cameraPosition count) as (Hlen & Hall).
  fold found in Hlen, Hall.
  assert (∀ sprite, shown (classify o (distanceTo (Sprite.position sprite) cameraPosition)
                             sprite) ↔ within sprite) as Hshown.
  { intros sprite. unfold shown, within, withinCull. rewrite classify_visible.
    by destruct (_ >? _)%num. }
  split.
  - rewrite Hlen. f_equal. subst passed. unfold updateWordVisibility.
    by rewrite (filter_map_iff _ shown within _ Hshown), length_map.
  - intros e He. destruct (Hall e He) as (sprite' & Hin & Hvis & ->).
    subst passed. unfold updateWordVisibility in Hin.
    apply list_elem_of_fmap in Hin as (sprite & -> & Hin).
    destruct (classify_keeps o (distanceTo (Sprite.position sprite) cameraPosition) sprite)
      as (Hp & Hw & _).
    assert (within sprite) as Hwithin by (by apply Hshown).
    unfold entry. cbn [Nearby.word Nearby.distance]. rewrite Hp, Hw.
    split; [exact Hwithin|]. by exists sprite.
Qed.

(** ** The axis gauges *)

(** No binary64 number is below or above NaN. *)
Lemma float_ltb_nan (x : float) :
  (PrimFloat.nan <? x)%float = false ∧ (x <? PrimFloat.nan)%float = false.
Proof.
  rewrite !FloatAxioms.ltb_spec. change (Prim2SF PrimFloat.nan) with S754_nan.
  unfold SFltb. split; [done|]. simpl. by destruct (Prim2SF x) as [| | |[] ? ?].
Qed.

(** X16.  [clamp] on binary64 numbers, for bounds in order: the result is
    not below [lo] and not above [hi]; it is [lo] for a value below [lo],
    [hi] for a value above [hi], and the value itself otherwise, a NaN
    included, which no bound stops. *)
Theorem clamp_within (v lo hi : float) :
  (hi <? lo)%num = false →
  let r := Gauge.clamp v lo hi in
  (r <? lo)%num = false ∧ (r >? hi)%num = false
  ∧ ((v <? lo)%num = false → (v >? hi)%num = false → r = v)
  ∧ ((v <? lo)%num = true → r = lo)
  ∧ ((v >? hi)%num = true → r = hi)
  ∧ Gauge.clamp PrimFloat.nan lo hi = PrimFloat.nan.
Proof.
  intros Hord r. subst r.
  assert (Gauge.clamp PrimFloat.nan lo hi = PrimFloat.nan) as Hnan.
  { unfold Gauge.clamp. cbn [nltb float_number].
    rewrite (proj1 (float_ltb_nan lo)). by rewrite (proj2 (float_ltb_nan hi)). }
  unfold Gauge.clamp in *.
  destruct (v <? lo)%num eqn:Hlo.
  - split_and!; [apply float_ltb_irrefl|done|done|done| |done].
    intros Hhi. pose proof (float_ltb_trans _ _ _ Hhi Hlo) as Hc. congruence.
  - destruct (v >? hi)%num eqn:Hhi.
    + split_and!; [|apply float_ltb_irrefl|done|done|done|done].
      destruct (hi <? lo)%num eqn:Hc; [congruence|done].
    + by split_and!.
Qed.

Lemma clamp_within_witness :
  ((1%float <? 0%float)%num = false)
  ∧ Gauge.clamp 2%float 0%float 1%float = 1%float.
Proof.
  assert (((1 : float) <? (0 : float))%num = false) as H by reflexivity.
  split; [exact H|].
  apply (proj1 (proj2 (proj2 (proj2 (proj2 (clamp_within 2%float 0%float 1%float H)))))).
  reflexivity.
Defined.
(** ** The flight controller *)

Lemma _getDigitIndex_spec (code : string) :
  (∀ k, DIGITS !! k = Some code → _getDigitIndex code = Z.of_nat k)
  ∧ (code ∉ DIGITS → _getDigitIndex code = (-1)%Z).
Proof.
  split.
  - intros k Hk. do 6 (destruct k as [|k]; [injection Hk as <-; reflexivity|]).
    simpl in Hk. done.
  - intros Hout. unfold _getDigitIndex.
    repeat (case_bool_decide;
            [exfalso; apply Hout; subst code; unfold DIGITS; rewrite !elem_of_cons; auto 10|]).
    done.
Qed.

Section FlightFacts.
Context {num : Type} {N : Number num} {Quat : Type}.
Variable lookQuat : Vector3 num → Vector3 num → Quat.
Variable slerpQuaternions : Quat → Quat → num → Quat.
Variable getWorldDirection : Quat → Vector3 num.
Variable syncEuler : Quat → Quat.

(** With the beacons of [getBeaconPositions], and Shift not held, the
    k-th digit key turns the camera toward the beacon of the k-th input
    field. *)
Lemma digit_key_beacon (f : Flight.t num Quat) (axes : SixAxes string)
    (ws : list (ProjectedWord.t num)) (k : nat) (code : string) :
  Flight.beacons f = getBeaconPositions axes ws →
  Keys.boost (Flight.keys f) = false →
  DIGITS !! k = Some code →
  ∃ b, getBeaconPositions axes ws !! k = Some b
    ∧ axisEntries axes !! k = Some (Beacon.word b)
    ∧ _onKeyDown lookQuat code f
      = withOrient (Some (lookQuat (Flight.position f) (beaconPosition b)))
                   num0 (Some (Flight.quaternion f)) f.
Proof.
  intros Hb Hboost Hk.
  do 6 (destruct k as [|k];
        [injection Hk as <-; eexists; split; [reflexivity|]; split; [reflexivity|];
         unfold _onKeyDown; cbn [isShift bool_decide orb];
         destruct f as [? ? ? ? ? ? ? ? ? ? ? bs [? ? ? ? ? ? bo]]; cbn in *;
         subst bs bo; reflexivity|]).
  simpl in Hk. done.
Qed.

Lemma sumBeacons_returns (beacons : list (Beacon.t num)) (held : list nat)
    (target : Vector3 num) :
  Forall (λ i, (i < length beacons)%nat) held →
  ∃ total, sumBeacons beacons held target = Returns total.
Proof.
  revert target. induction held as [|i held IH]; intros target Hall; simpl; [by eexists|].
  apply Forall_cons in Hall as [Hi Hall].
  destruct (lookup_lt_is_Some_2 beacons i Hi) as [b ->]. by apply IH.
Qed.

Lemma setAdd_NoDup (i : nat) (s : list nat) : NoDup s → NoDup (setAdd i s).
Proof.
  intros Hs. unfold setAdd. case_bool_decide as Hi; [done|].
  apply NoDup_app. split_and!; [done| |apply NoDup_singleton].
  intros j Hj ->%list_elem_of_singleton. done.
Qed.

Lemma consistent_keyDown (code : string) (f : Flight.t num Quat) :
  consistent f → consistent (_onKeyDown lookQuat code f).
Proof.
  intros (Hnd & Hall & Ho & Ht). unfold _onKeyDown.
  destruct f as [p q l v ot op os tt ts tp held bs k]. cbn in *.
  destruct (isShift code); cbn.
  - destruct (0 <=? _getDigitIndex code)%Z; cbn; [|by split_and!; [constructor|constructor|..]].
    destruct (bs !! Z.to_nat (_getDigitIndex code)) as [b|] eqn:Hb; cbn;
      [|by split_and!; [constructor|constructor|..]].
    split_and!; cbn; [apply setAdd_NoDup; constructor| |done|done].
    unfold setAdd. cbn. repeat constructor. by eapply lookup_lt_Some.
  - destruct (0 <=? _getDigitIndex code)%Z; cbn; [|by split_and!].
    destruct (bs !! Z.to_nat (_getDigitIndex code)) as [b|] eqn:Hb; cbn; [|by split_and!].
    destruct (Keys.boost (setMoveKey code true k)); cbn.
    + split_and!; cbn; [by apply setAdd_NoDup| |done|done].
      unfold setAdd. case_bool_decide; [done|].
      apply Forall_app. split; [done|]. repeat constructor. by eapply lookup_lt_Some.
    + split_and!; cbn; [done|done|by eexists|done].
Qed.

Lemma consistent_keyUp (code : string) (f : Flight.t num Quat) :
  consistent f → ∃ f', _onKeyUp lookQuat code f = Returns f' ∧ consistent f'.
Proof.
  intros (Hnd & Hall & Ho & Ht). unfold _onKeyUp.
  destruct f as [p q l v ot op os tt ts tp held bs k]. cbn in *.
  destruct (isShift code); cbn; [|eexists; split; [reflexivity|by split_and!]].
  destruct held as [|d held]; cbn; [eexists; split; [reflexivity|by split_and!]|].
  destruct (sumBeacons_returns bs (d :: held) (vec num0 num0 num0) Hall) as [total Htotal].
  cbn in Htotal. rewrite Htotal.
  eexists. split; [reflexivity|]. split_and!; cbn; [constructor|constructor|by eexists|by eexists].
Qed.

Lemma consistent_update (delta : num) (f : Flight.t num Quat) :
  consistent f →
  ∃ f', update slerpQuaternions getWorldDirection syncEuler delta f = Returns f'
        ∧ consistent f'.
Proof.
  intros (Hnd & Hall & Ho & Ht). unfold update.
  destruct f as [p q l v ot op os tt ts tp held bs k]. cbn in *.
  destruct l; cbn; [|eexists; split; [reflexivity|by split_and!]].
  unfold stepOrient. cbn.
  destruct ot as [target|]; cbn.
  - destruct Ho as [start ->]; [by eexists|].
    destruct (geb _ _); cbn; unfold stepTeleport; cbn.
    all: destruct tt as [tele|]; cbn.
    all: try (destruct Ht as [tstart ->]; [by eexists|]; destruct (geb _ _); cbn).
    all: eexists; (split; [reflexivity|]); unfold consistent; cbn; split_and!; try done.
    all: try (intros [? [=]]); try (by eexists).
  - unfold stepTeleport; cbn.
    destruct tt as [tele|]; cbn.
    all: try (destruct Ht as [tstart ->]; [by eexists|]; destruct (geb _ _); cbn).
    all: eexists; (split; [reflexivity|]); unfold consistent; cbn; split_and!; try done.
    all: try (intros [? [=]]); try (by eexists).
Qed.

Lemma consistent_run (inputs : list Input) (f : Flight.t num Quat) :
  consistent f →
  ∃ f', run lookQuat slerpQuaternions getWorldDirection syncEuler inputs f = Returns f'
        ∧ consistent f'.
Proof.
  revert f. induction inputs as [|i inputs IH]; intros f Hf; simpl; [by eexists|].
  destruct i as [code|code|delta|locked]; cbn.
  - by apply IH, consistent_keyDown.
  - destruct (consistent_keyUp code f Hf) as (f' & -> & Hf'). by apply IH.
  - destruct (consistent_update delta f Hf) as (f' & -> & Hf'). by apply IH.
  - apply IH. by destruct f.
Qed.

End FlightFacts.

(** X18.  From a new controller given any beacons, no sequence of keys
    pressed and released, frames drawn and pointer locks and releases
    makes a handler throw: Shift released with digits held finds a beacon
    for each held digit, and a turn or a teleport under way has its
    start.  The digits held are always indices of beacons, none twice. *)
Theorem flight_never_throws {Quat : Type}
    (lookQuat : Vector3 float → Vector3 float → Quat)
    (slerpQuaternions : Quat → Quat → float → Quat)
    (getWorldDirection : Quat → Vector3 float) (syncEuler : Quat → Quat)
    (position : Vector3 float) (quaternion : Quat) (beacons : list (Beacon.t float))
    (inputs : list Input) :
  ∃ f, run lookQuat slerpQuaternions getWorldDirection syncEuler inputs
         (setBeacons beacons (create position quaternion)) = Returns f
       ∧ consistent f.
Proof.
  apply consistent_run. unfold consistent. cbn.
  split_and!; [constructor|constructor|by intros [? [=]]|by intros [? [=]]].
Qed.

(** X19.  With the beacons the application gives the controller, and Shift
    not held, the k-th digit key starts a turn of the camera, from its
    rotation now, toward the beacon that carries the word the handler
    read from the k-th input field (its value trimmed, then in lower
    case, whatever [trim] and [toLowerCase] compute), in the order left,
    right, up, down, forward, backward; a code that is not one of Digit1
    to Digit6 is no digit. *)
Theorem digit_keys_follow_the_fields {Quat : Type}
    (jsTrim jsToLowerCase : string → string)
    (lookQuat : Vector3 float → Vector3 float → Quat)
    (f : Flight.t float Quat) (inputs : Inputs.t) (ws : list (ProjectedWord.t float)) :
  let axes := readAxes jsTrim jsToLowerCase inputs in
  let fields := [Inputs.left inputs; Inputs.right inputs; Inputs.up inputs;
                 Inputs.down inputs; Inputs.forward inputs; Inputs.backward inputs] in
  Flight.beacons f = getBeaconPositions axes ws →
  Keys.boost (Flight.keys f) = false →
  (∀ k code, DIGITS !! k = Some code →
     ∃ b field, getBeaconPositions axes ws !! k = Some b
       ∧ fields !! k = Some field
       ∧ Beacon.word b = jsToLowerCase (jsTrim field)
       ∧ _onKeyDown lookQuat code f
         = withOrient (Some (lookQuat (Flight.position f) (beaconPosition b)))
                      num0 (Some (Flight.quaternion f)) f)
  ∧ (∀ code, code ∉ DIGITS → _getDigitIndex code = (-1)%Z).
Proof.
  intros axes fields Hb Hboost. split; [|intros code; apply _getDigitIndex_spec].
  intros k code Hk.
  destruct (digit_key_beacon lookQuat f axes ws k code Hb Hboost Hk) as (b & Hbk & Hw & Hdown).
  do 6 (destruct k as [|k];
        [eexists b, _; split; [done|]; split; [reflexivity|]; split; [|done];
         cbn in Hw; by injection Hw as <-|]).
  simpl in Hk. done.
Qed.

Lemma digit_keys_follow_the_fields_witness :
  Flight.beacons parkedFlight = getBeaconPositions (readAxes trim toLowerCase voidInputs) []
  ∧ Keys.boost (Flight.keys parkedFlight) = false
  ∧ ∃ b, getBeaconPositions (readAxes trim toLowerCase voidInputs)
           ([] : list (ProjectedWord.t float)) !! 0%nat
         = Some b
       ∧ Beacon.word b = "small"%string.
Proof.
  assert (Flight.beacons parkedFlight
          = getBeaconPositions (readAxes trim toLowerCase voidInputs) [])
    as H1 by reflexivity.
  assert (Keys.boost (Flight.keys parkedFlight) = false) as H2 by reflexivity.
  split; [exact H1|]. split; [exact H2|].
  destruct (proj1 (digit_keys_follow_the_fields trim toLowerCase (λ _ _, tt) parkedFlight
                     voidInputs [] H1 H2)
              0%nat "Digit1"%string eq_refl) as (b & field & Hb & Hf & Hw & _).
  exists b. split; [exact Hb|]. rewrite Hw. injection Hf as <-. reflexivity.
Defined.

(** ** The word filters of the scripts *)

Lemma length_chars (s : string) : length (list_ascii_of_string s) = String.length s.
Proof. induction s as [|c s IH]; simpl; [done|]. by rewrite IH. Qed.

Lemma between_same (a c : ascii) : between a a c ↔ c = a.
Proof.
  unfold between. split; [|by intros ->].
  intros H. assert (nat_of_ascii c = nat_of_ascii a) as Heq by lia.
  by rewrite <- (ascii_nat_embedding c), Heq, ascii_nat_embedding.
Qed.

Lemma testSome_spec (k : CharClass) (s : string) :
  testSome k s = true ↔ Exists (λ c, inClass k c = true) (list_ascii_of_string s).
Proof.
  unfold testSome. rewrite existsb_exists, Exists_exists.
  split; intros (c & Hc & ?); exists c; (split; [|done]);
    [by apply list_elem_of_In|by apply list_elem_of_In].
Qed.

Lemma testSome_false (k : CharClass) (s : string) :
  testSome k s = false ↔ Forall (λ c, inClass k c = false) (list_ascii_of_string s).
Proof.
  rewrite <- not_true_iff_false, testSome_spec, <- Forall_Exists_neg.
  apply Forall_iff. intros c. by rewrite not_true_iff_false.
Qed.

Lemma testAll_spec (k : CharClass) (s : string) :
  testAll k s = true ↔
  s ≠ EmptyString ∧ Forall (λ c, inClass k c = true) (list_ascii_of_string s).
Proof.
  unfold testAll. rewrite andb_true_iff, negb_true_iff, bool_decide_eq_false.
  rewrite forallb_forall, Forall_forall.
  split; intros [? H]; (split; [done|]); intros c Hc; apply H; by apply list_elem_of_In.
Qed.

Lemma inClass_digit c : inClass digit c = true ↔ isDigit c.
Proof.
  unfold isDigit, between. rewrite <- inRange_spec.
  unfold inClass, digit. cbn. by destruct (inRange "0" "9" c).
Qed.

Lemma inClass_notPrintable c : inClass notPrintable c = false ↔ printable c.
Proof.
  unfold printable, between. rewrite <- inRange_spec.
  unfold inClass, notPrintable. cbn. by destruct (inRange " " "~" c).
Qed.

Lemma inClass_letter c : inClass letter c = true ↔ isLetter c.
Proof.
  unfold isLetter, between. rewrite <- !inRange_spec.
  unfold inClass, letter. cbn.
  destruct (inRange "a" "z" c), (inRange "A" "Z" c); cbn; intuition congruence.
Qed.

Lemma inClass_notLower c : inClass notLower c = true ↔ ¬ lowercaseLetter c.
Proof.
  unfold lowercaseLetter. change (¬ between "a" "z" c) with (¬ between "a" "z" c).
  assert (lowercaseLetter c ↔ inRange "a" "z" c = true) as Hl
    by (symmetry; apply inRange_spec).
  unfold lowercaseLetter in Hl. rewrite Hl.
  unfold inClass, notLower. cbn. destruct (inRange "a" "z" c); cbn; intuition congruence.
Qed.

Lemma inClass_notWordChar c : inClass notWordChar c = false ↔ wordChar c.
Proof.
  unfold wordChar.
  assert (lowercaseLetter c ↔ inRange "a" "z" c = true) as ->
    by (symmetry; apply inRange_spec).
  rewrite <- (between_same "'" c), <- (between_same "-" c).
  unfold between. rewrite <- !inRange_spec.
  unfold inClass, notWordChar. cbn.
  destruct (inRange "a" "z" c), (inRange "'" "'" c), (inRange "-" "-" c); cbn;
    intuition congruence.
Qed.

Ltac codes :=
  change (nat_of_ascii "a") with 97%nat in *;
  change (nat_of_ascii "z") with 122%nat in *;
  change (nat_of_ascii "A") with 65%nat in *;
  change (nat_of_ascii "Z") with 90%nat in *;
  change (nat_of_ascii "0") with 48%nat in *;
  change (nat_of_ascii "9") with 57%nat in *;
  change (nat_of_ascii " ") with 32%nat in *;
  change (nat_of_ascii "~") with 126%nat in *;
  change (nat_of_ascii "'") with 39%nat in *;
  change (nat_of_ascii "-") with 45%nat in *.

Lemma letter_not_digit c : isLetter c → ¬ isDigit c.
Proof. unfold isLetter, isDigit, between. codes. lia. Qed.

Lemma lowercase_letter c : lowercaseLetter c → isLetter c.
Proof. intros H. by left. Qed.

Lemma wordChar_printable c : wordChar c → printable c.
Proof.
  unfold wordChar, lowercaseLetter, printable, between.
  intros [H|[->| ->]]; codes; lia.
Qed.

Lemma isCleanWord_sound (word : string) :
  isCleanWord word = true →
  (2 ≤ String.length word)%nat
  ∧ Forall printable (list_ascii_of_string word)
  ∧ Exists isLetter (list_ascii_of_string word).
Proof.
  unfold isCleanWord.
  destruct (Nat.leb_spec (String.length word) 1) as [Hshort|Hlong]; [done|].
  destruct (testAll digit word); [done|].
  destruct (testSome notPrintable word) eqn:Hprint; [done|].
  apply testSome_false in Hprint.
  destruct (testSome letter word) eqn:Hletter; cbn; [intros _|done].
  apply testSome_spec in Hletter.
  split_and!; [lia| |].
  - eapply Forall_impl; [exact Hprint|]. intros c. apply inClass_notPrintable.
  - eapply Exists_impl; [exact Hletter|]. intros c. apply inClass_letter.
Qed.

Lemma isCleanWord_complete (word : string) :
  (2 ≤ String.length word)%nat →
  Forall printable (list_ascii_of_string word) →
  Exists isLetter (list_ascii_of_string word) →
  isCleanWord word = true.
Proof.
  intros Hlen Hall Hlet. unfold isCleanWord.
  destruct (Nat.leb_spec (String.length word) 1) as [Hshort|Hlong]; [lia|].
  destruct (testAll digit word) eqn:Hdigits.
  { exfalso. apply testAll_spec in Hdigits as [_ Hd].
    apply Exists_exists in Hlet as (c & Hc & Hl).
    eapply Forall_forall in Hd; [|exact Hc].
    apply inClass_digit in Hd. by apply (letter_not_digit c). }
  destruct (testSome notPrintable word) eqn:Hprint.
  { exfalso. apply testSome_spec, Exists_exists in Hprint as (c & Hc & Hnp).
    eapply Forall_forall in Hall; [|exact Hc].
    apply inClass_notPrintable in Hall. congruence. }
  destruct (testSome letter word) eqn:Hletter; cbn; [done|].
  exfalso. apply testSome_false in Hletter.
  apply Exists_exists in Hlet as (c & Hc & Hl).
  eapply Forall_forall in Hletter; [|exact Hc].
  apply inClass_letter in Hl. congruence.
Qed.

Lemma isGoodWord_sound (word : string) :
  isGoodWord word = true →
  (2 ≤ String.length word)%nat
  ∧ Forall wordChar (list_ascii_of_string word)
  ∧ Exists lowercaseLetter (list_ascii_of_string word).
Proof.
  unfold isGoodWord.
  destruct (Nat.ltb_spec (String.length word) 2) as [Hshort|Hlong]; [done|].
  assert (word ≠ EmptyString) as Hne by (intros ->; simpl in Hlong; lia).
  destruct (testAll digit word); [done|].
  destruct (testAll notLower word) eqn:Hnone; [done|].
  destruct (testSome notWordChar word) eqn:Hother; [done|].
  intros _. apply testSome_false in Hother.
  split_and!; [lia| |].
  - eapply Forall_impl; [exact Hother|]. intros c. apply inClass_notWordChar.
  - apply not_true_iff_false in Hnone. rewrite testAll_spec in Hnone.
    assert (∀ c, Decision (lowercaseLetter c)) as Hdec
      by (intros c; unfold lowercaseLetter; apply _).
    destruct (decide (Exists lowercaseLetter (list_ascii_of_string word))) as [|Hno];
      [done|].
    exfalso. apply Hnone. split; [done|]. apply Forall_Exists_neg in Hno.
    eapply Forall_impl; [exact Hno|]. intros c. apply inClass_notLower.
Qed.

Lemma isGoodWord_complete (word : string) :
  (2 ≤ String.length word)%nat →
  Forall wordChar (list_ascii_of_string word) →
  Exists lowercaseLetter (list_ascii_of_string word) →
  isGoodWord word = true.
Proof.
  intros Hlen Hall Hlet. unfold isGoodWord.
  destruct (Nat.ltb_spec (String.length word) 2) as [Hshort|Hlong]; [lia|].
  destruct (testAll digit word) eqn:Hdigits.
  { exfalso. apply testAll_spec in Hdigits as [_ Hd].
    apply Exists_exists in Hlet as (c & Hc & Hl).
    eapply Forall_forall in Hd; [|exact Hc].
    apply inClass_digit in Hd. exact (letter_not_digit c (lowercase_letter c Hl) Hd). }
  destruct (testAll notLower word) eqn:Hnone.
  { exfalso. apply testAll_spec in Hnone as [_ Hn].
    apply Exists_exists in Hlet as (c & Hc & Hl).
    eapply Forall_forall in Hn; [|exact Hc].
    by apply inClass_notLower in Hn. }
  destruct (testSome notWordChar word) eqn:Hother; [|done].
  exfalso. apply testSome_spec, Exists_exists in Hother as (c & Hc & Hnw).
  eapply Forall_forall in Hall; [|exact Hc].
  apply inClass_notWordChar in Hall. congruence.
Qed.

(** X23.  [isCleanWord] of curate-wordlist.js accepts a word exactly when
    it has two characters or more, all of them printable ASCII (from the
    space to the tilde), at least one of them a letter; so a word of
    digits only, or of punctuation only, is never clean. *)
Theorem isCleanWord_spec (word : string) :
  (isCleanWord word = true ↔
   (2 ≤ String.length word)%nat
   ∧ Forall printable (list_ascii_of_string word)
   ∧ Exists isLetter (list_ascii_of_string word))
  ∧ (Forall (λ c, ¬ isLetter c) (list_ascii_of_string word) → isCleanWord word = false).
Proof.
  split.
  - split; [apply isCleanWord_sound|].
    intros (Hlen & Hall & Hlet). by apply isCleanWord_complete.
  - intros Hnone. apply not_true_is_false.
    intros (_ & _ & Hlet)%isCleanWord_sound.
    apply Exists_exists in Hlet as (c & Hc & Hl).
    eapply Forall_forall in Hnone; [|exact Hc]. done.
Qed.

(** X24.  [isGoodWord] of process-glove.js accepts a word exactly when it
    has two characters or more, all of them lowercase letters,
    apostrophes or hyphens, at least one of them a letter; a word with
    an uppercase letter or a digit is never good. *)
Theorem isGoodWord_spec (word : string) :
  (isGoodWord word = true ↔
   (2 ≤ String.length word)%nat
   ∧ Forall wordChar (list_ascii_of_string word)
   ∧ Exists lowercaseLetter (list_ascii_of_string word))
  ∧ (Exists (λ c, between "A" "Z" c ∨ isDigit c) (list_ascii_of_string word) →
     isGoodWord word = false).
Proof.
  split.
  - split; [apply isGoodWord_sound|].
    intros (Hlen & Hall & Hlet). by apply isGoodWord_complete.
  - intros Hbad. apply not_true_is_false.
    intros (_ & Hall & _)%isGoodWord_sound.
    apply Exists_exists in Hbad as (c & Hc & Hbad).
    eapply Forall_forall in Hall; [|exact Hc].
    unfold wordChar, lowercaseLetter, isDigit, between in *.
    destruct Hall as [Hl|[->| ->]]; codes; destruct Hbad; lia.
Qed.

(** X25.  The three word filters nest: what the application's quality
    filter accepts (3 to 15 lowercase letters), process-glove.js accepts;
    what process-glove.js accepts, curate-wordlist.js accepts.  Neither
    inclusion is an equality. *)
Theorem filters_nest (word : string) :
  (isQualityWord word = true → isGoodWord word = true)
  ∧ (isGoodWord word = true → isCleanWord word = true)
  ∧ isGoodWord "it's" = true ∧ isQualityWord "it's" = false
  ∧ isCleanWord "U.S." = true ∧ isGoodWord "U.S." = false.
Proof.
  split_and!; try reflexivity.
  - intros [Hlen Hall]%isQualityWord_spec. apply isGoodWord_complete; [lia| |].
    + eapply Forall_impl; [exact Hall|]. intros c Hc. by left.
    + rewrite <- length_chars in Hlen.
      destruct (list_ascii_of_string word) as [|c l]; [simpl in Hlen; lia|].
      apply Forall_cons in Hall as [Hc _]. by left.
  - intros (Hlen & Hall & Hsome)%isGoodWord_sound. apply isCleanWord_complete; [done| |].
    + eapply Forall_impl; [exact Hall|]. apply wordChar_printable.
    + eapply Exists_impl; [exact Hsome|]. apply lowercase_letter.
Qed.

(** ** The first token and the collecting loop *)

Lemma indexOf_range (c : ascii) (s : string) :
  ((indexOf c s = -1)%Z ∧ (c ∉ list_ascii_of_string s))
  ∨ ((0 <= indexOf c s)%Z
     ∧ (c ∉ list_ascii_of_string (substring 0 (Z.to_nat (indexOf c s)) s))).
Proof.
  induction s as [|d s IH]; simpl.
  - left. split; [done|]. apply not_elem_of_nil.
  - case_bool_decide as Hd.
    + right. split; [lia|]. simpl. apply not_elem_of_nil.
    + destruct IH as [[-> Hout]|[Hpos Hout]].
      * left. split; [done|]. rewrite not_elem_of_cons. split; [congruence|done].
      * right. destruct (Z.eqb_spec (indexOf c s) (-1)); [lia|]. split; [lia|].
        replace (Z.to_nat (indexOf c s + 1)) with (S (Z.to_nat (indexOf c s))) by lia.
        simpl. rewrite not_elem_of_cons. split; [congruence|done].
Qed.

Lemma substring_chars (n : nat) (s : string) :
  list_ascii_of_string (substring 0 n s) = take n (list_ascii_of_string s).
Proof.
  revert n. induction s as [|c s IH]; intros [|n]; simpl; try done. by rewrite IH.
Qed.

(** The first token has no space, and is the line up to its first space. *)
Lemma firstToken_spec (line : string) :
  (" "%char ∉ list_ascii_of_string (firstToken line))
  ∧ ∃ n, list_ascii_of_string (firstToken line) = take n (list_ascii_of_string line).
Proof.
  unfold firstToken. destruct (indexOf_range " " line) as [[-> Hout]|[Hpos Hout]].
  - simpl. split; [done|]. exists (String.length line).
    by rewrite take_ge by (by rewrite length_chars).
  - destruct (Z.eqb_spec (indexOf " " line) (-1)); [lia|].
    split; [done|]. eexists. apply substring_chars.
Qed.

Lemma collect_spec (target : nat) (lines words : list string) (linesRead : nat) :
  let tokens := filter clean (map firstToken lines) in
  let r := collect target lines words linesRead in
  r.1 = words ++ take ((target - length words) `max` 1) tokens
  ∧ (linesRead ≤ r.2 ≤ linesRead + length lines)%nat
  ∧ ((length tokens < ((target - length words) `max` 1))%nat →
     r.2 = (linesRead + length lines)%nat).
Proof.
  cbv zeta. revert words linesRead.
  induction lines as [|line lines IH]; intros words linesRead; simpl.
  - rewrite filter_nil, take_nil, app_nil_r. split; [done|split; lia].
  - rewrite filter_cons. destruct (decide (clean (firstToken line))) as [Hclean|Hclean].
    + unfold clean in Hclean. rewrite Hclean.
      destruct (Nat.leb_spec target (length (words ++ [firstToken line]))) as [Hfull|Hmore];
        rewrite length_app in *; simpl in *.
      * replace ((target - length words) `max` 1)%nat with 1%nat by lia.
        simpl. rewrite take_0. split; [done|split; [lia|]]. intros Hlt. lia.
      * destruct (IH (words ++ [firstToken line]) (S linesRead)) as (-> & Hread & Hall).
        rewrite length_app in *. simpl in *.
        replace ((target - length words) `max` 1)%nat
          with (S ((target - (length words + 1)) `max` 1)) by lia.
        simpl. rewrite <- app_assoc. split; [done|split; [lia|]].
        intros Hlt. rewrite Hall by lia. lia.
    + unfold clean in Hclean. apply not_true_is_false in Hclean. rewrite Hclean.
      destruct (IH words (S linesRead)) as (-> & Hread & Hall).
      split; [done|split; [lia|]]. intros Hlt. rewrite Hall by lia. lia.
Qed.

Lemma TARGET_COUNT_pos : (1 ≤ TARGET_COUNT)%nat.
Proof. apply Nat.leb_le. by vm_compute. Qed.

Lemma collect_lines (target : nat) (lines words : list string) (linesRead : nat) :
  let r := collect target lines words linesRead in
  ∃ k, r.2 = (linesRead + k)%nat ∧ (k ≤ length lines)%nat
    ∧ (lines ≠ [] → (1 ≤ k)%nat)
    ∧ r.1 = words ++ filter clean (map firstToken (take k lines))
    ∧ ((k < length lines)%nat →
       (target ≤ length r.1)%nat
       ∧ ∃ line, lines !! (k - 1)%nat = Some line ∧ clean (firstToken line)).
Proof.
  cbv zeta. revert words linesRead.
  induction lines as [|line lines IH]; intros words linesRead; simpl.
  - exists 0%nat. rewrite app_nil_r. split_and!; [lia|lia|done|done|lia].
  - destruct (isCleanWord (firstToken line)) eqn:Hclean.
    + destruct (Nat.leb_spec target (length (words ++ [firstToken line]))) as [Hfull|Hmore].
      * exists 1%nat. cbn [take map fst snd]. rewrite take_0. cbn [map].
        rewrite filter_cons, decide_True by done. rewrite filter_nil.
        split_and!; [lia|simpl; lia|done|done|]. intros _. split; [done|]. by exists line.
      * destruct (IH (words ++ [firstToken line]) (S linesRead))
          as (k & Hread & Hk & Hpos & Hw & Hstop).
        exists (S k). cbn [take map]. rewrite filter_cons, decide_True by done.
        rewrite Hw, <- app_assoc. split_and!; [lia|simpl; lia|lia|done|].
        intros Hlt. simpl in Hlt.
        destruct Hstop as (Hfull & line' & Hline & Hc); [lia|].
        rewrite Hw, <- app_assoc in Hfull. split; [done|].
        exists line'. split; [|done].
        assert (1 ≤ k)%nat as Hk1 by (apply Hpos; intros ->; simpl in Hlt; lia).
        destruct k as [|k]; [lia|]. simpl in *. by rewrite Nat.sub_0_r in *.
    + destruct (IH words (S linesRead)) as (k & Hread & Hk & Hpos & Hw & Hstop).
      exists (S k). cbn [take map].
      rewrite filter_cons, decide_False by (unfold clean; congruence).
      split_and!; [lia|simpl; lia|lia|done|].
      intros Hlt. simpl in Hlt. destruct Hstop as (Hfull & line' & Hline & Hc); [lia|].
      split; [done|]. exists line'. split; [|done].
      assert (1 ≤ k)%nat as Hk1 by (apply Hpos; intros ->; simpl in Hlt; lia).
      destruct k as [|k]; [lia|]. simpl in *. by rewrite Nat.sub_0_r in *.
Qed.

Lemma curate_tokens (lines : list string) :
  let tokens := filter clean (map firstToken lines) in
  (curate lines).1 = take TARGET_COUNT tokens
  ∧ ((curate lines).2 ≤ length lines)%nat
  ∧ ((length tokens < TARGET_COUNT)%nat → (curate lines).2 = length lines).
Proof.
  intros tokens. unfold curate.
  generalize TARGET_COUNT_pos. generalize TARGET_COUNT as target. intros target Hpos.
  destruct (collect_spec target lines [] 0) as (Hw & Hread & Hall).
  cbv zeta in Hw, Hread, Hall. fold tokens in Hw, Hall.
  change (length ([] : list string)) with 0%nat in Hw, Hall.
  replace ((target - 0) `max` 1)%nat with target in Hw, Hall by lia.
  rewrite !app_nil_l in Hw. rewrite !Nat.add_0_l in Hread, Hall.
  split_and!; [done|lia|done].
Qed.

Lemma curate_lines (lines : list string) :
  (curate lines).1 = filter clean (map firstToken (take (curate lines).2 lines))
  ∧ (((curate lines).2 < length lines)%nat →
     (TARGET_COUNT ≤ length (curate lines).1)%nat
     ∧ ∃ line, lines !! ((curate lines).2 - 1)%nat = Some line ∧ clean (firstToken line)).
Proof.
  unfold curate. generalize TARGET_COUNT as target. intros target.
  destruct (collect_lines target lines [] 0) as (k & Hread & Hk & Hpos & Hw & Hstop).
  cbv zeta in *. rewrite Nat.add_0_l in Hread. rewrite Hread. rewrite app_nil_l in Hw.
  split; [done|]. intros Hlt. by apply Hstop.
Qed.

(** X26.  curate-wordlist.js keeps the first 50000 clean first tokens of
    the file, in the order of the file, repetitions included: the words
    it keeps are the clean first tokens of the lines it has read, all
    clean.  It reads all the lines when the file has fewer than 50000
    clean tokens, then keeping them all; when it stops before the end
    of the file it has 50000 words and the last line it read gave the
    last of them. *)
Theorem curate_first_clean_tokens (lines : list string) :
  let tokens := filter clean (map firstToken lines) in
  let kept := (curate lines).1 in
  let linesRead := (curate lines).2 in
  kept = take TARGET_COUNT tokens
  ∧ (length kept ≤ TARGET_COUNT)%nat
  ∧ Forall clean kept
  ∧ (linesRead ≤ length lines)%nat
  ∧ kept = filter clean (map firstToken (take linesRead lines))
  ∧ ((length tokens < TARGET_COUNT)%nat → kept = tokens ∧ linesRead = length lines)
  ∧ ((linesRead < length lines)%nat →
     length kept = TARGET_COUNT
     ∧ ∃ line, lines !! (linesRead - 1)%nat = Some line ∧ clean (firstToken line)).
Proof.
  intros tokens kept linesRead.
  destruct (curate_tokens lines) as (Hw & Hread & Hall).
  destruct (curate_lines lines) as (Hlines & Hstop).
  cbv zeta in Hw, Hall. fold tokens kept linesRead in Hw, Hall, Hread, Hlines, Hstop.
  assert (length kept ≤ TARGET_COUNT)%nat as Hlen by (rewrite Hw, length_take; lia).
  split_and!.
  - done.
  - done.
  - rewrite Hw. apply Forall_forall. intros w Hw'%elem_of_take.
    destruct Hw' as (i & Hw' & _).
    apply list_elem_of_lookup_2 in Hw'. by apply list_elem_of_filter in Hw' as [? _].
  - done.
  - done.
  - intros Hlt. split; [rewrite Hw; apply take_ge; lia|by apply Hall].
  - intros Hlt. destruct (Hstop Hlt) as [Hfull Hline]. split; [lia|done].
Qed.

(** ** The word list, written and read again *)

Lemma chars_app (s t : string) :
  list_ascii_of_string (s ++ t) = list_ascii_of_string s ++ list_ascii_of_string t.
Proof. induction s as [|c s IH]; simpl; [done|]. by rewrite IH. Qed.

Lemma append_cons (c : ascii) (s t : string) :
  (String c s ++ t)%string = String c (s ++ t).
Proof. reflexivity. Qed.

Lemma append_empty (s : string) : (s ++ EmptyString)%string = s.
Proof. induction s as [|c s IH]; [done|]. by rewrite append_cons, IH. Qed.

Lemma append_associative (s t u : string) : ((s ++ t) ++ u)%string = (s ++ (t ++ u))%string.
Proof. induction s as [|c s IH]; [done|]. by rewrite !append_cons, IH. Qed.

Lemma trimStart_solid (s t : string) : solid s → trimStart (s ++ t) = (s ++ t)%string.
Proof.
  intros [Hne Hall]. destruct s as [|c s]; [done|]. simpl in *.
  apply Forall_cons in Hall as [-> _]. done.
Qed.

Lemma trimEnd_whitespace (s : string) (c : ascii) :
  isWhiteSpace c = true → trimEnd (s ++ String c EmptyString) = trimEnd s.
Proof.
  intros Hc. induction s as [|d s IH]; simpl; [by rewrite Hc|]. by rewrite IH.
Qed.

Lemma trimEnd_solid (s : string) : solid s → trimEnd s = s.
Proof.
  intros [Hne Hall]. induction s as [|c s IH]; [done|]. simpl in *.
  apply Forall_cons in Hall as [Hc Hall].
  destruct s as [|d s]; [by simpl; rewrite Hc|].
  rewrite IH by done. done.
Qed.

Lemma trimEnd_app (s t : string) :
  trimEnd t ≠ EmptyString → trimEnd (s ++ t) = (s ++ trimEnd t)%string.
Proof.
  intros Ht. induction s as [|c s IH]; [done|].
  change (trimEnd (String c s ++ t))
    with (match trimEnd (s ++ t) with
          | EmptyString => if isWhiteSpace c then EmptyString else String c EmptyString
          | u => String c u
          end).
  rewrite IH. change (String c s ++ trimEnd t)%string with (String c (s ++ trimEnd t)).
  destruct (s ++ trimEnd t)%string eqn:Hs; [|done].
  destruct s; simpl in Hs; [done|discriminate].
Qed.

Lemma split_plain (c : ascii) (w : string) :
  c ∉ list_ascii_of_string w → split c w = [w].
Proof.
  induction w as [|d w IH]; [done|]. simpl.
  rewrite not_elem_of_cons. intros [Hd Hw].
  rewrite bool_decide_eq_false_2 by congruence. by rewrite IH.
Qed.

Lemma split_piece (c : ascii) (w rest : string) :
  c ∉ list_ascii_of_string w →
  split c (w ++ String c rest) = w :: split c rest.
Proof.
  induction w as [|d w IH]; simpl.
  - intros _. by rewrite bool_decide_eq_true_2.
  - rewrite not_elem_of_cons. intros [Hd Hw].
    rewrite bool_decide_eq_false_2 by congruence. by rewrite IH.
Qed.

Lemma split_join (c : ascii) (words : list string) :
  words ≠ [] → Forall (λ w, c ∉ list_ascii_of_string w) words →
  split c (join (String c EmptyString) words) = words.
Proof.
  intros Hne Hall. induction words as [|w words IH]; [done|].
  apply Forall_cons in Hall as [Hw Hall].
  destruct words as [|w' words]; [by apply split_plain|].
  change (join (String c EmptyString) (w :: w' :: words))
    with (w ++ String c (join (String c EmptyString) (w' :: words)))%string.
  rewrite split_piece by done. by rewrite IH.
Qed.

Lemma join_solid (sep : string) (words : list string) :
  words ≠ [] → Forall solid words →
  ∃ first rest last tail,
    join sep words = (first ++ rest)%string ∧ solid first
    ∧ join sep words = (tail ++ last)%string ∧ solid last.
Proof.
  intros Hne Hall. induction words as [|w words IH]; [done|].
  apply Forall_cons in Hall as [Hw Hall].
  destruct words as [|w' words].
  - exists w, EmptyString, w, EmptyString. simpl.
    split_and!; [|done|done|done]. by rewrite append_empty.
  - destruct (IH ltac:(done) Hall) as (_ & _ & last & tail & _ & _ & Hlast & Hsolid).
    change (join sep (w :: w' :: words)) with (w ++ sep ++ join sep (w' :: words))%string.
    exists w, (sep ++ join sep (w' :: words))%string, last, (w ++ sep ++ tail)%string.
    split_and!; [done|done| |done]. rewrite Hlast.
    by rewrite !append_associative.
Qed.

(** X27.  What build-embeddings.js reads of the word list (the text
    trimmed and split at the line feeds) is the list of words that
    curate-wordlist.js wrote (joined by line feeds, with one more at the
    end), as long as it wrote a word: no word is lost, split or merged. *)
Theorem wordlist_round_trip (lines : list string) :
  (curate lines).1 ≠ [] →
  readWordlist (wordlistText (curate lines).1) = (curate lines).1.
Proof.
  intros Hne.
  destruct (curate_tokens lines) as (Hwords & _).
  cbv zeta in Hwords.
  set (words := (curate lines).1) in *.
  assert (Forall solid words ∧ Forall (λ w, newline ∉ list_ascii_of_string w) words)
    as [Hsolid Hlines].
  { rewrite <- Forall_and. apply Forall_forall. intros w Hw.
    assert (clean w ∧ w ∈ map firstToken lines) as [Hc Hin].
    { rewrite Hwords in Hw. apply elem_of_take in Hw as (i & Hw & _).
      apply list_elem_of_lookup_2 in Hw. by apply list_elem_of_filter in Hw. }
    apply list_elem_of_fmap in Hin as (line & -> & _).
    destruct (firstToken_spec line) as [Hspace _].
    apply isCleanWord_sound in Hc as (Hlen & Hprint & _).
    assert (Forall (λ c, isWhiteSpace c = false ∧ c ≠ newline)
              (list_ascii_of_string (firstToken line))) as Hchars.
    { apply Forall_forall. intros c Hc.
      assert (c ≠ " "%char) as Hsp by (intros ->; done).
      eapply Forall_forall in Hprint; [|exact Hc].
      unfold printable, between in Hprint. codes.
      assert (nat_of_ascii c ≠ 32%nat) as Hn.
      { intros Heq. apply Hsp. rewrite <- (ascii_nat_embedding c), Heq. reflexivity. }
      split.
      - unfold isWhiteSpace. cbv zeta.
        destruct (Nat.leb_spec 9 (nat_of_ascii c)), (Nat.leb_spec (nat_of_ascii c) 13),
          (Nat.eqb_spec (nat_of_ascii c) 32); simpl; try done; lia.
      - intros ->. unfold newline in Hprint. rewrite nat_ascii_embedding in Hprint; lia. }
    split.
    - split; [intros Hempty; rewrite Hempty in Hlen; simpl in Hlen; lia|].
      eapply Forall_impl; [exact Hchars|]. by intros c [? _].
    - intros Hnl. eapply Forall_forall in Hchars; [|exact Hnl]. by destruct Hchars. }
  unfold readWordlist, wordlistText, trim.
  destruct (join_solid (String newline EmptyString) words Hne Hsolid)
    as (first & rest & last & tail & Hfirst & Hsf & Hlast & Hsl).
  assert (trimStart (join (String newline EmptyString) words ++ String newline EmptyString)
          = (join (String newline EmptyString) words ++ String newline EmptyString)%string)
    as ->.
  { rewrite Hfirst.
    replace ((first ++ rest) ++ String newline EmptyString)%string
      with (first ++ (rest ++ String newline EmptyString))%string.
    - by apply trimStart_solid.
    - by rewrite append_associative. }
  rewrite trimEnd_whitespace by reflexivity.
  assert (trimEnd (join (String newline EmptyString) words)
          = join (String newline EmptyString) words) as ->.
  { rewrite Hlast at 1. rewrite trimEnd_app; rewrite (trimEnd_solid last Hsl); [done|].
    by destruct Hsl. }
  by apply split_join.
Qed.

Lemma wordlist_round_trip_witness :
  (curate ["the 0.1 0.2"; "42 0.3"; "of 0.4"]%string).1 ≠ []
  ∧ readWordlist (wordlistText (curate ["the 0.1 0.2"; "42 0.3"; "of 0.4"]%string).1)
    = ["the"; "of"]%string.
Proof.
  assert ((curate ["the 0.1 0.2"; "42 0.3"; "of 0.4"]%string).1 ≠ []) as H.
  { assert ((curate ["the 0.1 0.2"; "42 0.3"; "of 0.4"]%string).1 = ["the"; "of"]%string)
      as -> by (vm_compute; reflexivity).
    discriminate. }
  split; [exact H|].
  rewrite (wordlist_round_trip ["the 0.1 0.2"; "42 0.3"; "of 0.4"]%string H).
  vm_compute. reflexivity.
Defined.
(** ** The embedding file, written and loaded *)

Section Built.
Context {num : Type} {N : Number num}.
Variable extractor : string → string + list num.
Variable dims : nat.
Variable words : list string.

Hypothesis extracted : ∀ w, w ∈ words → ∃ v, extractor w = inr v ∧ length v = dims.

Lemma rows_length (ws : list string) :
  ws ⊆ words → length (concat (map (row extractor) ws)) = (length ws * dims)%nat.
Proof.
  induction ws as [|w ws IH]; intros Hsub; [done|]. simpl.
  rewrite length_app, IH by set_solver. f_equal.
  unfold row. destruct (extracted w) as (v & -> & <-); [set_solver|]. apply length_map.
Qed.

Lemma take_subseteq (k : nat) : take k words ⊆ words.
Proof. intros w Hw. by apply elem_of_take in Hw as (i & ?%list_elem_of_lookup_2 & _). Qed.

Lemma partial_step (k : nat) (w : string) (v : list num) :
  words !! k = Some w → extractor w = inr v →
  typedSet (partial extractor dims words k) v (k * dims) = Some (partial extractor dims words (S k)).
Proof.
  intros Hk Hv. pose proof (lookup_lt_Some _ _ _ Hk) as Hlt.
  assert (length v = dims) as Hlen.
  { destruct (extracted w) as (v' & Hv' & <-); [by eapply list_elem_of_lookup_2|].
    congruence. }
  assert (length (concat (map (row extractor) (take k words))) = (k * dims)%nat) as Hdone.
  { rewrite rows_length by apply take_subseteq. rewrite length_take. f_equal. lia. }
  unfold typedSet, partial.
  rewrite length_app, Hdone, length_replicate, Hlen.
  destruct (Nat.leb_spec (k * dims + dims) (k * dims + (length words - k) * dims))
    as [_|Hover]; [|nia].
  f_equal.
  rewrite take_app_length' by done.
  rewrite drop_app_ge by lia. rewrite Hdone, drop_replicate.
  rewrite (take_S_r _ _ _ Hk), map_app, concat_app. simpl. rewrite app_nil_r.
  rewrite <- !app_assoc. f_equal. unfold row. rewrite Hv. f_equal.
  f_equal. nia.
Qed.

Lemma embedBatch_spec (i j : nat) (batch : list string) :
  batch = take (length batch) (drop (i + j) words) →
  embedBatch extractor dims i batch j (partial extractor dims words (i + j))
  = inr (partial extractor dims words (i + j + length batch)).
Proof.
  revert j. induction batch as [|w batch IH]; intros j Hbatch; simpl.
  - by rewrite Nat.add_0_r.
  - assert (words !! (i + j)%nat = Some w) as Hw.
    { destruct (drop (i + j) words) as [|w' rest] eqn:Hdrop; [done|].
      simpl in Hbatch. injection Hbatch as -> _.
      rewrite <- (Nat.add_0_r (i + j)), <- lookup_drop, Hdrop. done. }
    destruct (extracted w) as (v & Hv & Hlen); [by eapply list_elem_of_lookup_2|].
    rewrite Hv.
    rewrite (partial_step (i + j) w v Hw Hv).
    replace (S (i + j)) with (i + S j)%nat by lia.
    rewrite IH.
    + f_equal. f_equal. lia.
    + destruct (drop (i + j) words) as [|w' rest] eqn:Hdrop; [done|].
      simpl in Hbatch. injection Hbatch as _ Hrest.
      replace (drop (i + S j) words) with rest; [done|].
      replace (i + S j)%nat with ((i + j) + 1)%nat by lia.
      by rewrite <- drop_drop, Hdrop.
Qed.

Lemma partial_past (k : nat) :
  (length words ≤ k)%nat → partial extractor dims words k = partial extractor dims words (length words).
Proof.
  intros Hk. unfold partial. rewrite !take_ge by lia.
  by replace (length words - k)%nat with (length words - length words)%nat by lia.
Qed.

Lemma embedFrom_spec (turns : nat) (i : nat) :
  (length words ≤ i + turns * BATCH_SIZE)%nat →
  embedFrom extractor turns dims words i (partial extractor dims words i) = inr (partial extractor dims words (length words)).
Proof.
  revert i. induction turns as [|turns IH]; intros i Hfuel; simpl.
  - f_equal. apply partial_past. lia.
  - destruct (Nat.ltb_spec i (length words)) as [Hlt|Hge];
      [|f_equal; apply partial_past; lia].
    pose proof (embedBatch_spec i 0 (take BATCH_SIZE (drop i words))) as Hbatch.
    rewrite !Nat.add_0_r in Hbatch. rewrite Hbatch.
    + set (len := length (take BATCH_SIZE (drop i words))).
      assert (len = BATCH_SIZE `min` (length words - i))%nat as Hlen
        by (subst len; by rewrite length_take, length_drop).
      destruct (Nat.le_gt_cases (i + BATCH_SIZE) (length words)) as [Hfull|Hlast].
      * replace (i + len)%nat with (i + BATCH_SIZE)%nat by lia. apply IH.
        unfold BATCH_SIZE in *. lia.
      * rewrite (partial_past (i + len)) by lia.
        rewrite <- (partial_past (i + BATCH_SIZE)) at 1 by lia. apply IH.
        unfold BATCH_SIZE in *. lia.
    + rewrite length_take.
      destruct (Nat.le_gt_cases BATCH_SIZE (length (drop i words))) as [Hle|Hgt].
      * by rewrite Nat.min_l.
      * rewrite Nat.min_r by lia. by rewrite !take_ge by lia.
Qed.

Lemma buildEmbeddings_spec :
  buildEmbeddings extractor dims words = inr (concat (map (row extractor) words)).
Proof.
  unfold buildEmbeddings.
  pose proof (embedFrom_spec (length words) 0) as Hall.
  unfold partial in Hall at 1. rewrite take_0, Nat.sub_0_r in Hall. simpl in Hall.
  rewrite Hall by (unfold BATCH_SIZE; lia).
  unfold partial. rewrite take_ge, Nat.sub_diag by done. simpl. by rewrite app_nil_r.
Qed.

Lemma rows_getVector (i : nat) (w : string) :
  words !! i = Some w → getVector i (concat (map (row extractor) words)) dims = row extractor w.
Proof.
  intros Hw. unfold getVector.
  rewrite <- (take_drop_middle words i w Hw) at 1.
  rewrite map_app, concat_app. simpl.
  assert (length (concat (map (row extractor) (take i words))) = (i * dims)%nat) as Hdone.
  { rewrite rows_length by apply take_subseteq. rewrite length_take.
    apply lookup_lt_Some in Hw. f_equal. lia. }
  rewrite drop_app_length' by done.
  apply take_app_length'.
  unfold row. destruct (extracted w) as (v & -> & <-); [by eapply list_elem_of_lookup_2|].
  by rewrite length_map.
Qed.

End Built.

(** X28.  On binary64 numbers, for a vocabulary of at least one word and
    lengths below 2^53: when the extractor gives [dims] numbers for each
    word, build-embeddings.js ends without an error and writes a buffer
    of one row per word; [loadVocabulary] accepts the two files, with the
    dimensionality the buffer was built with; and [getVector] finds at
    each index the embedding of the word at that index, rounded to
    32-bit floats. *)
Theorem built_file_loads (extractor : string → string + list float) (dims : nat)
    (words : list string) :
  words ≠ [] →
  (∀ w, w ∈ words → ∃ v, extractor w = inr v ∧ length v = dims) →
  (Z.of_nat (length words) < 2 ^ 53)%Z →
  (Z.of_nat (length words * dims) < 2 ^ 53)%Z →
  ∃ embeddings,
    buildEmbeddings extractor dims words = inr embeddings
    ∧ length embeddings = (length words * dims)%nat
    ∧ loadVocabulary {| ok := true; body := words |} {| ok := true; body := embeddings |}
      = inr (Build_VocabData float words embeddings dims)
    ∧ ∀ i w v, words !! i = Some w → extractor w = inr v →
        getVector i embeddings dims = map fround v.
Proof.
  intros Hne Hex Hn Hl.
  exists (concat (map (row extractor) words)).
  assert (length (concat (map (row extractor) words)) = (length words * dims)%nat) as Hlen.
  { by apply (rows_length extractor dims words Hex words). }
  split_and!.
  - by apply (buildEmbeddings_spec extractor dims words Hex).
  - done.
  - unfold loadVocabulary. cbn [ok body negb isInteger toLength ndiv ofZ float_number].
    rewrite Hlen.
    assert (0 < length words)%nat as Hpos by (destruct words; [done|simpl; lia]).
    destruct (float_quotient (length words * dims) (length words) Hpos Hl Hn) as [Hint Hd].
    cbv zeta in Hint, Hd. rewrite (proj2 Hint) by eauto. cbn [negb].
    by rewrite (Hd dims).
  - intros i w v Hw Hv. rewrite (rows_getVector extractor dims words Hex i w Hw).
    unfold row. by rewrite Hv.
Qed.

Lemma built_file_loads_witness :
  ["up"; "down"]%string ≠ []
  ∧ (∀ w, w ∈ ["up"; "down"]%string → ∃ v, toyModel w = inr v ∧ length v = 2%nat)
  ∧ (Z.of_nat (length ["up"; "down"]%string) < 2 ^ 53)%Z
  ∧ (Z.of_nat (length ["up"; "down"]%string * 2) < 2 ^ 53)%Z
  ∧ ∃ embeddings,
      buildEmbeddings toyModel 2 ["up"; "down"]%string = inr embeddings
      ∧ length embeddings = 4%nat.
Proof.
  assert (["up"; "down"]%string ≠ []) as H1 by discriminate.
  assert (∀ w, w ∈ ["up"; "down"]%string → ∃ v, toyModel w = inr v ∧ length v = 2%nat) as H2.
  { intros w _. exists (toyEmbedding w). split; [reflexivity|].
    unfold toyEmbedding. by repeat case_bool_decide. }
  assert ((Z.of_nat (length ["up"; "down"]%string) < 2 ^ 53)%Z) as H3 by (simpl; lia).
  assert ((Z.of_nat (length ["up"; "down"]%string * 2) < 2 ^ 53)%Z) as H4 by (simpl; lia).
  split; [exact H1|]. split; [exact H2|]. split; [exact H3|]. split; [exact H4|].
  destruct (built_file_loads toyModel 2 ["up"; "down"]%string H1 H2 H3 H4)
    as (embeddings & Hbuilt & Hlen & _).
  exists embeddings. split; [exact Hbuilt|exact Hlen].
Defined.

(** ** Normalization, in exact arithmetic *)

Local Open Scope R_scope.















Lemma truthy_R (x : R) : truthy x = true ↔ x ≠ 0.
Proof.
  unfold truthy. simpl. rewrite andb_true_iff, negb_true_iff, R_eqb_false, R_eqb_true.
  tauto.
Qed.









(** ** Level of detail *)

Section BandsFloat.
Variable o : LodOptions float.
Variable sprite : Sprite.t float.

Lemma culled_float (d : float) :
  (d >? cullDistance o)%num = true →
  visibleAt o sprite d = false ∧ opacityAt o sprite d = Sprite.opacity sprite.
Proof using Type. intros Hd. unfold visibleAt, opacityAt, classify. by rewrite Hd. Qed.

Lemma shown_float (d : float) :
  (d >? cullDistance o)%num = false → visibleAt o sprite d = true.
Proof using Type.
  intros Hd. unfold visibleAt, classify. rewrite Hd.
  by repeat match goal with |- context [if ?c then _ else _] => destruct c end.
Qed.

Lemma sweet_spot_float (d : float) :
  (innerFade o <? nearDistance o)%num = true →
  (farDistance o <? cullDistance o)%num = true →
  (d <? nearDistance o)%num = false →
  (d >? farDistance o)%num = false →
  visibleAt o sprite d = true ∧ opacityAt o sprite d = effectiveBase sprite.
Proof using Type.
  intros Hin Hfc Hnear Hfar.
  assert ((d >? cullDistance o)%num = false) as Hcull.
  { apply not_true_is_false. intros H.
    by rewrite (float_ltb_trans _ _ _ Hfc H) in Hfar. }
  assert ((d <? innerFade o)%num = false) as Hinner.
  { apply not_true_is_false. intros H.
    by rewrite (float_ltb_trans _ _ _ H Hin) in Hnear. }
  unfold visibleAt, opacityAt, classify. by rewrite Hcull, Hfar, Hinner, Hnear.
Qed.
End BandsFloat.

(** ** Level of detail, in exact arithmetic *)

Lemma effectiveBase_positive (sprite : Sprite.t R) :
  0 <= Sprite.baseOpacity sprite → 0 < effectiveBase sprite.
Proof.
  intros Hb. unfold effectiveBase, orElse.
  destruct (truthy _) eqn:Ht.
  - apply truthy_R in Ht. lra.
  - unfold decimal. simpl. lra.
Qed.

Ltac lod_tests :=
  unfold opacityAt, visibleAt, classify; fold (effectiveBase (num:=R));
  cbn [nltb real_number cullDistance farDistance nearDistance innerFade];
  repeat match goal with
    | |- context [R_ltb ?a ?b] =>
        let H := fresh "H" in
        destruct (R_ltb a b) eqn:H;
        [apply R_ltb_true in H|apply R_ltb_false in H]; try lra
    end;
  cbn [Sprite.opacity Sprite.visible setOpacity setVisible nmul nadd nsub ndiv real_number].

Section Bands.
Variable o : LodOptions R.
Variable sprite : Sprite.t R.
Hypothesis inner_near_far : innerFade o < nearDistance o < farDistance o.
Hypothesis far_cull : farDistance o < cullDistance o.

Lemma culled (d : R) :
  cullDistance o < d →
  visibleAt o sprite d = false ∧ opacityAt o sprite d = Sprite.opacity sprite.
Proof using Type. intros Hd. split; lod_tests; reflexivity. Qed.

Lemma fading_out (d : R) :
  farDistance o < d <= cullDistance o →
  visibleAt o sprite d = true
  ∧ opacityAt o sprite d
    = effectiveBase sprite * (1 - (d - farDistance o) / (cullDistance o - farDistance o)).
Proof using Type. intros Hd. split; lod_tests; reflexivity. Qed.

Lemma too_close (d : R) :
  d < innerFade o →
  visibleAt o sprite d = true
  ∧ opacityAt o sprite d = effectiveBase sprite * (d / innerFade o) * (5 / 10).
Proof using inner_near_far far_cull. intros Hd. split; lod_tests; reflexivity. Qed.

Lemma fading_in (d : R) :
  innerFade o <= d < nearDistance o →
  visibleAt o sprite d = true
  ∧ opacityAt o sprite d
    = effectiveBase sprite
      * (5 / 10 + (d - innerFade o) / (nearDistance o - innerFade o) * (5 / 10)).
Proof using inner_near_far far_cull. intros Hd. split; lod_tests; reflexivity. Qed.

Lemma sweet_spot (d : R) :
  nearDistance o <= d <= farDistance o →
  visibleAt o sprite d = true ∧ opacityAt o sprite d = effectiveBase sprite.
Proof using inner_near_far far_cull. intros Hd. split; lod_tests; reflexivity. Qed.

Hypothesis base_nonneg : 0 <= Sprite.baseOpacity sprite.

(** Nearer is more opaque while the word fades out with distance. *)
Lemma fading_out_strict (d1 d2 : R) :
  farDistance o < d2 → d2 < d1 → d1 <= cullDistance o →
  opacityAt o sprite d1 < opacityAt o sprite d2.
Proof using inner_near_far far_cull base_nonneg.
  intros H2 H12 H1.
  rewrite (proj2 (fading_out d1 ltac:(lra))), (proj2 (fading_out d2 ltac:(lra))).
  pose proof (effectiveBase_positive sprite base_nonneg) as Hb.
  apply Rmult_lt_compat_l; [done|].
  apply Rplus_lt_compat_l, Ropp_lt_contravar.
  apply Rmult_lt_compat_r; [apply Rinv_0_lt_compat; lra|lra].
Qed.

(** Nearer is less opaque once the word is closer than [innerFade]. *)
Lemma too_close_strict (d1 d2 : R) :
  d2 < d1 → d1 < innerFade o → 0 < innerFade o →
  opacityAt o sprite d2 < opacityAt o sprite d1.
Proof using inner_near_far far_cull base_nonneg.
  intros H12 H1 Hi.
  rewrite (proj2 (too_close d1 ltac:(lra))), (proj2 (too_close d2 ltac:(lra))).
  pose proof (effectiveBase_positive sprite base_nonneg) as Hb.
  apply Rmult_lt_compat_r; [lra|].
  apply Rmult_lt_compat_l; [done|].
  apply Rmult_lt_compat_r; [apply Rinv_0_lt_compat; lra|lra].
Qed.

(** No distance gives more than the base opacity. *)
Lemma at_most_base (d : R) :
  0 <= d <= cullDistance o → opacityAt o sprite d <= effectiveBase sprite.
Proof using inner_near_far far_cull base_nonneg.
  intros Hd. pose proof (effectiveBase_positive sprite base_nonneg) as Hb.
  destruct (Rle_lt_dec d (farDistance o)) as [Hfar|Hfar].
  - destruct (Rlt_le_dec d (innerFade o)) as [Hin|Hin].
    + rewrite (proj2 (too_close d Hin)).
      assert (0 <= d / innerFade o < 1) as Hq.
      { split; [apply Rmult_le_pos; [lra|apply Rlt_le, Rinv_0_lt_compat; lra]|].
        apply (Rmult_lt_reg_r (innerFade o)); [lra|]. 
        replace (d / innerFade o * innerFade o) with d by (field; lra). lra. }
      rewrite Rmult_assoc. rewrite <- (Rmult_1_r (effectiveBase sprite)) at 2.
      apply Rmult_le_compat_l; lra.
    + destruct (Rlt_le_dec d (nearDistance o)) as [Hnear|Hnear].
      * rewrite (proj2 (fading_in d ltac:(lra))).
        assert ((d - innerFade o) / (nearDistance o - innerFade o) < 1) as Hq.
        { apply (Rmult_lt_reg_r (nearDistance o - innerFade o)); [lra|].
          replace ((d - innerFade o) / (nearDistance o - innerFade o)
                   * (nearDistance o - innerFade o)) with (d - innerFade o) by (field; lra).
          lra. }
        rewrite <- (Rmult_1_r (effectiveBase sprite)) at 2.
        apply Rmult_le_compat_l; lra.
      * rewrite (proj2 (sweet_spot d ltac:(lra))). lra.
  - rewrite (proj2 (fading_out d ltac:(lra))).
    assert (0 < (d - farDistance o) / (cullDistance o - farDistance o)) as Hq.
    { apply Rmult_lt_0_compat; [lra|apply Rinv_0_lt_compat; lra]. }
    rewrite <- (Rmult_1_r (effectiveBase sprite)) at 2.
    apply Rmult_le_compat_l; lra.
Qed.
End Bands.

(** C7, as amended.  The effective base opacity of a sprite is its stored
    base opacity, or 0.5 when that is 0.  In exact arithmetic, with
    ordered thresholds and a stored base opacity that is not negative:
    the opacity strictly increases as the distance decreases from
    [cullDistance] to [farDistance]; between [nearDistance] and
    [farDistance] it is the effective base opacity, which no distance
    exceeds; below [innerFade] it strictly decreases as the distance
    decreases; beyond [cullDistance] the sprite is hidden and its opacity
    is left as it was.  With the default thresholds a word at distance
    300 is hidden, at distance 100 it has its effective base opacity, and
    at distance 2 less than half of it.  [updateWordVisibility] does this
    to each sprite, at its distance to the camera.  On binary64 numbers,
    with ordered thresholds and any sprite: beyond [cullDistance] the
    sprite is hidden and its opacity left as it was, at any other
    distance it is shown, and at a distance neither below [nearDistance]
    nor above [farDistance] its opacity is the effective base opacity;
    so with the defaults it is hidden at 300 and has its effective base
    opacity at 100. *)
Theorem lod_opacity_profile (o : LodOptions R) (sprite : Sprite.t R) :
  innerFade o < nearDistance o < farDistance o →
  farDistance o < cullDistance o →
  0 <= Sprite.baseOpacity sprite →
  (∀ d1 d2, farDistance o < d2 → d2 < d1 → d1 <= cullDistance o →
     visibleAt o sprite d1 = true ∧ visibleAt o sprite d2 = true
     ∧ opacityAt o sprite d1 < opacityAt o sprite d2)
  ∧ (∀ d, nearDistance o <= d <= farDistance o →
     visibleAt o sprite d = true ∧ opacityAt o sprite d = effectiveBase sprite)
  ∧ (∀ d, 0 <= d <= cullDistance o → opacityAt o sprite d <= effectiveBase sprite)
  ∧ (∀ d1 d2, 0 <= d2 → d2 < d1 → d1 < innerFade o →
     visibleAt o sprite d1 = true ∧ visibleAt o sprite d2 = true
     ∧ opacityAt o sprite d2 < opacityAt o sprite d1)
  ∧ (∀ d, cullDistance o < d →
     visibleAt o sprite d = false ∧ opacityAt o sprite d = Sprite.opacity sprite)
  ∧ (visibleAt defaultLod sprite 300 = false
     ∧ opacityAt defaultLod sprite 100 = effectiveBase sprite
     ∧ opacityAt defaultLod sprite 2 < effectiveBase sprite * (5 / 10))
  ∧ (effectiveBase sprite
     = if Req_dec_T (Sprite.baseOpacity sprite) 0 then 5 / 10 else Sprite.baseOpacity sprite)
  ∧ (∀ camera, updateWordVisibility [sprite] camera o
               = [classify o (distanceTo (Sprite.position sprite) camera) sprite])
  ∧ (∀ (o : LodOptions float) (sprite : Sprite.t float) (d : float),
       (innerFade o <? nearDistance o)%float = true →
       (farDistance o <? cullDistance o)%float = true →
       ((cullDistance o <? d)%float = true →
        visibleAt o sprite d = false ∧ opacityAt o sprite d = Sprite.opacity sprite)
       ∧ ((cullDistance o <? d)%float = false → visibleAt o sprite d = true)
       ∧ ((d <? nearDistance o)%float = false → (farDistance o <? d)%float = false →
          visibleAt o sprite d = true ∧ opacityAt o sprite d = effectiveBase sprite))
  ∧ (∀ sprite : Sprite.t float,
       visibleAt defaultLod sprite 300%float = false
       ∧ opacityAt defaultLod sprite 300%float = Sprite.opacity sprite
       ∧ visibleAt defaultLod sprite 100%float = true
       ∧ opacityAt defaultLod sprite 100%float = effectiveBase sprite).
Proof.
  intros Hinf Hfc Hb.
  assert (innerFade defaultLod < nearDistance defaultLod < farDistance defaultLod) as Hd1
    by (simpl; lra).
  assert (farDistance defaultLod < cullDistance defaultLod) as Hd2 by (simpl; lra).
  split_and!.
  - intros d1 d2 H2 H12 H1. split_and!.
    + apply fading_out; lra.
    + apply fading_out; lra.
    + by apply fading_out_strict.
  - intros d Hd. by apply sweet_spot.
  - intros d Hd. by apply at_most_base.
  - intros d1 d2 H0 H12 H1. split_and!.
    + apply too_close; lra.
    + apply too_close; lra.
    + apply too_close_strict; try done; lra.
  - intros d Hd. by apply culled.
  - apply (culled defaultLod sprite 300). simpl. lra.
  - apply (sweet_spot defaultLod sprite Hd1 Hd2 100). simpl. lra.
  - rewrite (proj2 (too_close defaultLod sprite Hd1 Hd2 2 ltac:(simpl; lra))).
    pose proof (effectiveBase_positive sprite Hb) as Hpos. simpl.
    apply Rmult_lt_compat_r; [lra|].
    rewrite <- (Rmult_1_r (effectiveBase sprite)) at 2.
    apply Rmult_lt_compat_l; lra.
  - unfold effectiveBase, orElse.
    destruct (truthy _) eqn:Ht.
    + apply truthy_R in Ht. by destruct (Req_dec_T _ 0).
    + apply not_true_iff_false in Ht. rewrite truthy_R in Ht.
      destruct (Req_dec_T _ 0); [done|tauto].
  - reflexivity.
  - intros oF spriteF d Hin Hfar. split_and!.
    + apply culled_float.
    + apply shown_float.
    + by apply sweet_spot_float.
  - intros spriteF. split_and!.
    + by apply (culled_float defaultLod spriteF 300%float).
    + by apply (culled_float defaultLod spriteF 300%float).
    + by apply (sweet_spot_float defaultLod spriteF 100%float).
    + by apply (sweet_spot_float defaultLod spriteF 100%float).
Qed.

Lemma lod_opacity_profile_witness :
  (innerFade defaultLod < nearDistance defaultLod < farDistance defaultLod
   ∧ farDistance defaultLod < cullDistance defaultLod
   ∧ 0 <= Sprite.baseOpacity (createWordSprite "cat" 0 0 0))
  ∧ opacityAt defaultLod (createWordSprite "cat" 0 0 0) 240
    < opacityAt defaultLod (createWordSprite "cat" 0 0 0) 160.
Proof.
  assert (innerFade defaultLod < nearDistance defaultLod < farDistance defaultLod
          ∧ farDistance defaultLod < cullDistance defaultLod
          ∧ 0 <= Sprite.baseOpacity (createWordSprite "cat" 0 0 0)) as H.
  { unfold decimal. simpl. lra. }
  split; [exact H|].
  destruct H as (H1 & H2 & H3).
  apply (proj1 (lod_opacity_profile defaultLod (createWordSprite "cat" 0 0 0) H1 H2 H3));
    cbn [defaultLod farDistance cullDistance ofZ real_number]; lra.
Defined.

(** C7, as stated, fails on the numbers the program runs on.  A sprite
    300 away from the camera is hidden, but its opacity is the 0.8 it was
    created with, not 0; a sprite 50 away is no more opaque than one 100
    away, although both lie between [cullDistance] and [nearDistance];
    and a sprite whose stored base opacity is 0 has the opacity 0.5 at
    the distance 100, not its base opacity. *)
Lemma lod_opacity_profile_counterexample :
  let origin : Vector3 float := {| vx := 0%float; vy := 0%float; vz := 0%float |} in
  let at_distance (d : float) := createWordSprite "cat" d 0%float 0%float in
  let faint : Sprite.t float :=
    Sprite.mk {| vx := 100%float; vy := 0%float; vz := 0%float |} true 0%float "cat" 0%float in
  map (λ s, (Sprite.visible s, Sprite.opacity s))
      (updateWordVisibility [at_distance 300%float] origin defaultLod)
  = [(false, decimal 8 10)]
  ∧ (decimal 8 10 =? (num0 : float))%num = false
  ∧ map Sprite.opacity (updateWordVisibility [at_distance 50%float] origin defaultLod)
    = map Sprite.opacity (updateWordVisibility [at_distance 100%float] origin defaultLod)
  ∧ map (λ s, (Sprite.baseOpacity s, Sprite.opacity s))
        (updateWordVisibility [faint] origin defaultLod)
    = [(0%float, 0.5%float)].
Proof. vm_compute. done. Qed.

(** Below [innerFade] the decrease is strict in exact arithmetic only:
    on binary64 numbers the distance 2 and the next number above it
    give a new sprite the same opacity. *)
Example lod_rounding_float :
  let sprite : Sprite.t float := createWordSprite "cat" 0%float 0%float 0%float in
  (2 <? 0x1.0000000000001p+1)%float = true
  ∧ (0x1.0000000000001p+1 <? innerFade defaultLod)%float = true
  ∧ opacityAt defaultLod sprite 2%float
    = opacityAt defaultLod sprite 0x1.0000000000001p+1%float.
Proof. vm_compute. done. Qed.

(** The three distances of the specification, on binary64 numbers, for a
    sprite as [createWordSprite] makes it (base opacity 0.8). *)
Example lod_defaults_float :
  let sprite : Sprite.t float := createWordSprite "cat" 0%float 0%float 0%float in
  visibleAt defaultLod sprite 300%float = false
  ∧ opacityAt defaultLod sprite 100%float = effectiveBase sprite
  ∧ (opacityAt defaultLod sprite 2%float <? effectiveBase sprite * decimal 5 10)%num = true.
Proof. vm_compute. done. Qed.

(** ** Cosine similarity, in exact arithmetic *)

Lemma sums_S (a b : list R) (n : nat) :
  sums a b (S n) = cosineStep a b (sums a b n) n.
Proof. unfold sums. by rewrite seq_S, foldl_app. Qed.

Lemma cosineSums_R (a b : list R) : cosineSums a b = sums a b (length a).
Proof. reflexivity. Qed.

Lemma sums_nonneg (a b : list R) (n : nat) :
  0 <= magA (sums a b n) ∧ 0 <= magB (sums a b n).
Proof.
  induction n as [|n [IHa IHb]]; [simpl; lra|].
  rewrite sums_S. simpl.
  pose proof (Rle_0_sqr (read a n)) as Ha. pose proof (Rle_0_sqr (read b n)) as Hb.
  unfold Rsqr in *. lra.
Qed.

Lemma square_le (p q : R) : 0 <= q → p * p <= q * q → p <= q.
Proof.
  intros Hq Hpq. destruct (Rle_lt_dec p q) as [|Hlt]; [done|].
  assert (q * q < p * p) by nra. lra.
Qed.

(** Cauchy and Schwarz, along the loop. *)
Lemma sums_cauchy (a b : list R) (n : nat) :
  dot (sums a b n) * dot (sums a b n) <= magA (sums a b n) * magB (sums a b n).
Proof.
  induction n as [|n IH]; [simpl; lra|].
  destruct (sums_nonneg a b n) as [HA HB].
  rewrite sums_S. simpl.
  set (D := dot (sums a b n)) in *. set (A := magA (sums a b n)) in *.
  set (B := magB (sums a b n)) in *. set (x := read a n). set (y := read b n).
  clearbody D A B x y.
  assert (2 * (D * (x * y)) <= A * (y * y) + B * (x * x)) as Hmix.
  { apply square_le.
    - pose proof (Rle_0_sqr x). pose proof (Rle_0_sqr y). unfold Rsqr in *. nra.
    - assert (0 <= (A * (y * y) - B * (x * x)) * (A * (y * y) - B * (x * x)))
        by (apply Rle_0_sqr).
      assert ((D * D) * ((x * y) * (x * y)) <= (A * B) * ((x * y) * (x * y))).
      { apply Rmult_le_compat_r; [apply Rle_0_sqr|done]. }
      nra. }
  nra.
Qed.

Lemma cosine_cases (a b : list R) :
  let s := cosineSums a b in
  (cosineSimilarity a b = 0 ∧ (R_sqrt.sqrt (magA s) = 0 ∨ R_sqrt.sqrt (magB s) = 0))
  ∨ (cosineSimilarity a b = dot s / (R_sqrt.sqrt (magA s) * R_sqrt.sqrt (magB s))
     ∧ 0 < R_sqrt.sqrt (magA s) ∧ 0 < R_sqrt.sqrt (magB s)).
Proof.
  intros s. unfold cosineSimilarity. fold s.
  cbn [neqb nsqrt ndiv nmul real_number num0 ofZ].
  destruct (R_eqb (R_sqrt.sqrt (magA s)) 0) eqn:HA.
  { left. apply R_eqb_true in HA. auto. }
  destruct (R_eqb (R_sqrt.sqrt (magB s)) 0) eqn:HB.
  { left. apply R_eqb_true in HB. auto. }
  right. apply R_eqb_false in HA, HB.
  pose proof (sqrt_pos (magA s)). pose proof (sqrt_pos (magB s)).
  simpl. split_and!; [done|lra|lra].
Qed.

Lemma ratio_bounded (d p : R) : 0 < p → d * d <= p * p → -1 <= d / p <= 1.
Proof.
  intros Hp Hd.
  assert (d <= p) by (apply square_le; lra).
  assert (- d <= p) by (apply square_le; [lra|]; nra).
  pose proof (Rinv_0_lt_compat p Hp) as Hinv.
  assert (p * / p = 1) as Hone by (apply Rinv_r; lra).
  unfold Rdiv. split; nra.
Qed.

(** X4.  In exact arithmetic, for a second vector at least as long as the
    first (so that every entry read exists): the cosine similarity lies
    between -1 and 1, whatever the two vectors are, zero vectors
    included. *)
Theorem cosineSimilarity_bounded (a b : list R) :
  (length a ≤ length b)%nat → -1 <= cosineSimilarity a b <= 1.
Proof.
  intros _. destruct (cosine_cases a b) as [[-> _]|(-> & HA & HB)]; [lra|].
  rewrite cosineSums_R.
  destruct (sums_nonneg a b (length a)) as [HA0 HB0].
  pose proof (sums_cauchy a b (length a)) as HC.
  rewrite cosineSums_R in HA, HB.
  apply ratio_bounded; [nra|].
  replace (R_sqrt.sqrt (magA (sums a b (length a))) * R_sqrt.sqrt (magB (sums a b (length a)))
           * (R_sqrt.sqrt (magA (sums a b (length a))) * R_sqrt.sqrt (magB (sums a b (length a)))))
    with ((R_sqrt.sqrt (magA (sums a b (length a))) * R_sqrt.sqrt (magA (sums a b (length a))))
          * (R_sqrt.sqrt (magB (sums a b (length a))) * R_sqrt.sqrt (magB (sums a b (length a))))) by ring.
  by rewrite !sqrt_sqrt.
Qed.

Lemma cosineSimilarity_bounded_witness :
  (length [1; 0] ≤ length [0; 1])%nat
  ∧ -1 <= cosineSimilarity [1; 0] [0; 1] <= 1.
Proof.
  assert ((length [1; 0] ≤ length [0; 1])%nat) as H by (simpl; lia).
  split; [exact H|]. apply (cosineSimilarity_bounded [1; 0] [0; 1] H).
Defined.

Lemma sums_swap (a b : list R) (n : nat) :
  dot (sums b a n) = dot (sums a b n)
  ∧ magA (sums b a n) = magB (sums a b n)
  ∧ magB (sums b a n) = magA (sums a b n).
Proof.
  induction n as [|n (IHd & IHa & IHb)]; [done|].
  rewrite !sums_S. simpl. rewrite IHd, IHa, IHb. split_and!; [ring|done|done].
Qed.

Lemma sums_self (a : list R) (n : nat) :
  dot (sums a a n) = magA (sums a a n) ∧ magB (sums a a n) = magA (sums a a n).
Proof.
  induction n as [|n (IHd & IHb)]; [done|].
  rewrite !sums_S. simpl. by rewrite IHd, IHb.
Qed.

Lemma read_scaled (c : R) (a : list R) (i : nat) :
  read (map (Rmult c) a) i = c * read a i.
Proof.
  unfold read. rewrite list_lookup_fmap. destruct (a !! i); simpl; [done|ring].
Qed.

Lemma sums_scaled (c : R) (a b : list R) (n : nat) :
  dot (sums (map (Rmult c) a) b n) = c * dot (sums a b n)
  ∧ magA (sums (map (Rmult c) a) b n) = c * c * magA (sums a b n)
  ∧ magB (sums (map (Rmult c) a) b n) = magB (sums a b n).
Proof.
  induction n as [|n (IHd & IHa & IHb)]; [simpl; split_and!; ring|].
  rewrite !sums_S. simpl. rewrite IHd, IHa, IHb, !read_scaled.
  split_and!; ring.
Qed.

Lemma sums_zero (a b : list R) (n : nat) :
  Forall (λ x, x = 0) a → magA (sums a b n) = 0.
Proof.
  intros Hzero. induction n as [|n IH]; [done|].
  rewrite sums_S. simpl. rewrite IH.
  assert (read a n = 0) as ->; [|ring].
  unfold read. destruct (a !! n) as [x|] eqn:Hx; [|done].
  apply list_elem_of_lookup_2 in Hx. by eapply Forall_forall in Hzero.
Qed.

(** X5.  In exact arithmetic, the similarity of a vector to itself is 1
    unless all its entries are 0; then it is 0, as is its similarity to
    any other vector.  The similarity of two vectors of the same length
    does not depend on their order. *)
Theorem cosineSimilarity_self_symmetric (a b : list R) :
  ((∃ x, x ∈ a ∧ x ≠ 0) → cosineSimilarity a a = 1)
  ∧ (Forall (λ x, x = 0) a → cosineSimilarity a b = 0)
  ∧ (length a = length b → cosineSimilarity a b = cosineSimilarity b a).
Proof.
  split_and!.
  - intros Hnz.
    assert (0 < magA (cosineSums a a)) as Hpos.
    { rewrite cosineSums_R. destruct Hnz as (x & Hx & Hx0).
      apply list_elem_of_lookup_1 in Hx as [i Hi].
      pose proof (lookup_lt_Some _ _ _ Hi) as Hlt.
      assert (∀ n, (i < n)%nat → 0 < magA (sums a a n)) as Hind.
      { induction n as [|n IH]; [lia|]. intros Hn. rewrite sums_S. simpl.
        destruct (sums_nonneg a a n) as [Hge _].
        pose proof (Rle_0_sqr (read a n)) as Hsq. unfold Rsqr in Hsq.
        destruct (decide (i = n)) as [->|Hne].
        - unfold read in *. rewrite Hi in *. simpl in *.
          assert (0 < x * x) by nra. lra.
        - specialize (IH ltac:(lia)). lra. }
      by apply Hind. }
    destruct (cosine_cases a a) as [[_ Hz]|(-> & HA & HB)].
    + exfalso. rewrite cosineSums_R in *.
      destruct (sums_self a (length a)) as [_ HB]. rewrite HB in Hz.
      assert (R_sqrt.sqrt (magA (sums a a (length a))) = 0) as H0 by tauto.
      apply sqrt_eq_0 in H0; lra.
    + rewrite cosineSums_R in *. destruct (sums_self a (length a)) as [-> ->].
      rewrite sqrt_sqrt by lra. field. lra.
  - intros Hzero. destruct (cosine_cases a b) as [[-> _]|(_ & HA & _)]; [done|].
    rewrite cosineSums_R, (sums_zero a b _ Hzero), sqrt_0 in HA. lra.
  - intros Hlen. unfold cosineSimilarity.
    rewrite !cosineSums_R, <- Hlen.
    destruct (sums_swap a b (length a)) as (-> & -> & ->).
    cbn [neqb nsqrt ndiv nmul real_number num0 ofZ].
    rewrite orb_comm. destruct (_ || _); [done|]. simpl. f_equal. ring.
Qed.

(** X6.  In exact arithmetic, for a second vector at least as long as the
    first: the similarity depends on the direction of the first vector
    only, scaling it by a positive factor changes nothing. *)
Theorem cosineSimilarity_scale (c : R) (a b : list R) :
  0 < c → (length a ≤ length b)%nat →
  cosineSimilarity (map (Rmult c) a) b = cosineSimilarity a b.
Proof.
  intros Hc _. unfold cosineSimilarity.
  rewrite !cosineSums_R, length_map.
  destruct (sums_scaled c a b (length a)) as (-> & -> & ->).
  destruct (sums_nonneg a b (length a)) as [HA HB].
  set (D := dot _). set (A := magA _) in *. set (B := magB _) in *.
  cbn [neqb nsqrt ndiv nmul real_number num0 ofZ].
  assert (R_sqrt.sqrt (c * c * A) = c * R_sqrt.sqrt A) as ->.
  { rewrite sqrt_mult by nra. by rewrite sqrt_square by lra. }
  assert (R_eqb (c * R_sqrt.sqrt A) 0 = R_eqb (R_sqrt.sqrt A) 0) as ->.
  { destruct (R_eqb (R_sqrt.sqrt A) 0) eqn:H0.
    - apply R_eqb_true in H0. apply R_eqb_true. rewrite H0. ring.
    - apply R_eqb_false in H0. apply R_eqb_false. nra. }
  destruct (R_eqb (R_sqrt.sqrt A) 0) eqn:HA0; [done|].
  destruct (R_eqb (R_sqrt.sqrt B) 0) eqn:HB0; [done|].
  apply R_eqb_false in HA0, HB0. simpl. field. lra.
Qed.

Lemma cosineSimilarity_scale_witness :
  0 < 2 ∧ (length [1; 0] ≤ length [0; 1])%nat
  ∧ cosineSimilarity (map (Rmult 2) [1; 0]) [0; 1] = cosineSimilarity [1; 0] [0; 1].
Proof.
  assert (0 < 2) as H1 by lra.
  assert ((length [1; 0] ≤ length [0; 1])%nat) as H2 by (simpl; lia).
  split; [exact H1|]. split; [exact H2|].
  apply (cosineSimilarity_scale 2 [1; 0] [0; 1] H1 H2).
Defined.

(** ** Sorting, in exact arithmetic *)

Section SortedBy.
Context {A : Type} (key : A → R) (cmp : A → A → R).
Hypothesis cmp_key : ∀ a b, cmp a b < 0 ↔ key a < key b.

Lemma insertBy_ascending (a : A) (l : list A) :
  ascending key l → ascending key (insertBy cmp a l).
Proof.
  unfold ascending. induction l as [|b l IH]; intros Hl; simpl.
  - repeat constructor.
  - apply StronglySorted_inv in Hl as [Hl Hb].
    destruct (R_ltb (cmp a b) 0) eqn:Hab.
    + apply R_ltb_true in Hab. apply cmp_key in Hab.
      constructor; [by constructor|].
      constructor; [lra|]. eapply Forall_impl; [exact Hb|]. simpl. intros c Hc. lra.
    + apply R_ltb_false in Hab.
      assert (key b <= key a) as Hba.
      { destruct (Rle_lt_dec (key b) (key a)) as [|Hlt]; [done|].
        apply cmp_key in Hlt. simpl in Hab. lra. }
      constructor; [by apply IH|].
      rewrite (insertBy_perm cmp a l). by constructor.
Qed.

Lemma sortBy_ascending (l : list A) : ascending key (sortBy cmp l).
Proof.
  unfold sortBy.
  cut (∀ acc, ascending key acc →
         ascending key (foldl (λ sorted a, insertBy cmp a sorted) acc l)).
  { intros H. apply H. constructor. }
  induction l as [|a l IH]; intros acc Hacc; simpl; [done|].
  by apply IH, insertBy_ascending.
Qed.

Lemma ascending_filter (P : A → Prop) `{!∀ x, Decision (P x)} (l : list A) :
  ascending key l → ascending key (filter P l).
Proof.
  unfold ascending. induction l as [|a l IH]; intros Hl; [constructor|].
  apply StronglySorted_inv in Hl as [Hl Ha]. rewrite filter_cons.
  destruct (decide (P a)); [|by apply IH].
  constructor; [by apply IH|].
  apply Forall_forall. intros b [_ Hb]%list_elem_of_filter.
  by eapply Forall_forall in Ha.
Qed.

Lemma ascending_take (n : nat) (l : list A) : ascending key l → ascending key (take n l).
Proof.
  unfold ascending. intros Hl. rewrite <- (take_drop n l) in Hl.
  by apply StronglySorted_app_1_l in Hl.
Qed.

(** Whatever a sorted list keeps past its first [n] elements is no
    less than each of them. *)
Lemma ascending_take_drop (n : nat) (l : list A) (a b : A) :
  ascending key l → a ∈ take n l → b ∈ drop n l → key a <= key b.
Proof.
  unfold ascending. intros Hl Ha Hb. rewrite <- (take_drop n l) in Hl.
  exact (StronglySorted_app_1_elem_of _ _ _ a b Hl Ha Hb).
Qed.

End SortedBy.

Lemma StronglySorted_weaken {A : Type} (P Q : A → A → Prop) (l : list A) :
  (∀ a b, P a b → Q a b) → StronglySorted P l → StronglySorted Q l.
Proof.
  intros HPQ. induction 1 as [|a l Hl IH Ha]; constructor; [done|].
  eapply Forall_impl; [exact Ha|]. intros b. apply HPQ.
Qed.

(** ** The top K *)

Lemma read_imap_R (f : nat → string → R) (ws : list string) (i : nat) (w : string) :
  ws !! i = Some w → read (imap f ws) i = f i w.
Proof. intros Hw. unfold read. by rewrite list_lookup_imap, Hw. Qed.

(** X10.  In exact arithmetic the indices [selectWordsForAxes] returns are
    in decreasing order of magnitude, and they are the top ones: an index
    with a positive magnitude is left out only when [topK] indices were
    returned, each of a magnitude no less than its own. *)
Theorem selectWordsForAxes_top (vocabData : VocabData R)
    (axisVectors : SixAxes (list R)) (axisWords : gset string) (topK : nat) :
  let r := selectWordsForAxes vocabData axisVectors axisWords topK in
  let mag := read (magnitudes r) in
  StronglySorted (λ i j, mag j <= mag i) (indices r)
  ∧ ∀ k, (k < length (words vocabData))%nat → 0 < mag k → k ∉ indices r →
      length (indices r) = topK ∧ ∀ i, i ∈ indices r → mag k <= mag i.
Proof.
  intros r mag.
  set (cmp := λ a b : nat, mag b - mag a).
  set (key := λ i : nat, - mag i).
  assert (∀ a b, cmp a b < 0 ↔ key a < key b) as Hck.
  { intros a b. unfold cmp, key. lra. }
  set (sorted := sortBy cmp (seq 0 (length (words vocabData)))).
  assert (indices r = take topK (filter (positiveAt (magnitudes r)) sorted)) as Hsel.
  { subst r sorted. simpl. rewrite takeTop_spec. simpl. by rewrite Nat.sub_0_r. }
  assert (ascending key (filter (positiveAt (magnitudes r)) sorted)) as Hasc.
  { apply ascending_filter, (sortBy_ascending key cmp Hck). }
  split.
  - rewrite Hsel. apply (ascending_take key topK) in Hasc.
    unfold ascending in Hasc. eapply StronglySorted_weaken; [|exact Hasc].
    intros i j. unfold key. simpl. lra.
  - intros k Hk Hpos Hout.
    assert (k ∈ filter (positiveAt (magnitudes r)) sorted) as Hin.
    { apply list_elem_of_filter. split.
      - unfold positiveAt, isPositive. cbn [nltb real_number].
        apply R_ltb_true. exact Hpos.
      - subst sorted. rewrite sortBy_perm. apply elem_of_seq. lia. }
    rewrite <- (take_drop topK (filter _ sorted)), elem_of_app, <- Hsel in Hin.
    destruct Hin as [Hin|Hin]; [done|]. split.
    + rewrite Hsel, length_take. apply Nat.min_l.
      destruct (Nat.le_gt_cases topK (length (filter (positiveAt (magnitudes r)) sorted)))
        as [|Hlt]; [done|].
      rewrite drop_ge in Hin by lia. by apply elem_of_nil in Hin.
    + intros i Hi. rewrite Hsel in Hi.
      pose proof (ascending_take_drop key topK _ i k Hasc Hi Hin) as Hle.
      unfold key in Hle. lra.
Qed.

(** ** The projection keeps sides and order *)

Lemma stddev_pos (l : list R) : 0 < stddev l.
Proof.
  unfold stddev, orElse. destruct (truthy _) eqn:Ht.
  - apply truthy_R in Ht. cbn [nsqrt real_number] in *.
    pose proof (sqrt_pos (variance l)). lra.
  - unfold num1. simpl. lra.
Qed.

(** X11.  In exact arithmetic, for a positive scale: each final coordinate
    of [projectWords] is the raw one, the difference of the two
    similarities, times a positive factor that is the same for all the
    words of the selection, also when the words share a coordinate; so
    a word stays on the side of its stronger axis word and the order of
    the words along an axis is kept. *)
Theorem projectWords_positive_rescaling (vocabData : VocabData R)
    (axisVectors : SixAxes (list R)) (selectedIndices : list nat) (scale : R) :
  0 < scale →
  ∃ kx ky kz, 0 < kx ∧ 0 < ky ∧ 0 < kz ∧
    Forall2 (λ idx w,
        let v := getVector idx (vectors vocabData) (dims vocabData) in
        ProjectedWord.word w = words vocabData !! idx
        ∧ ProjectedWord.x w
          = kx * (cosineSimilarity v (xPos axisVectors) - cosineSimilarity v (xNeg axisVectors))
        ∧ ProjectedWord.y w
          = ky * (cosineSimilarity v (yPos axisVectors) - cosineSimilarity v (yNeg axisVectors))
        ∧ ProjectedWord.z w
          = kz * (cosineSimilarity v (zPos axisVectors) - cosineSimilarity v (zNeg axisVectors)))
      selectedIndices (projectWords vocabData axisVectors selectedIndices scale).
Proof.
  intros Hs. unfold projectWords.
  set (raw := map (rawPosition vocabData axisVectors) selectedIndices).
  pose proof (stddev_pos (map RawWord.x raw)) as Hx.
  pose proof (stddev_pos (map RawWord.y raw)) as Hy.
  pose proof (stddev_pos (map RawWord.z raw)) as Hz.
  set (sdX := stddev (map RawWord.x raw)) in *.
  set (sdY := stddev (map RawWord.y raw)) in *.
  set (sdZ := stddev (map RawWord.z raw)) in *.
  clearbody sdX sdY sdZ.
  exists (scale / sdX), (scale / sdY), (scale / sdZ).
  split_and!; try (apply Rdiv_lt_0_compat; lra).
  subst raw. rewrite map_map. apply Forall2_fmap_r, Forall_Forall2_diag, Forall_forall.
  intros idx _. cbn. unfold axisDiff. cbn [nsub ndiv nmul real_number].
  split_and!; [done|field; lra..].
Qed.

Lemma projectWords_positive_rescaling_witness :
  0 < 80
  ∧ ∃ kx ky kz, 0 < kx ∧ 0 < ky ∧ 0 < kz ∧
      Forall2 (λ idx w,
          let v := getVector idx (vectors lineVocab) (dims lineVocab) in
          ProjectedWord.word w = words lineVocab !! idx
          ∧ ProjectedWord.x w
            = kx * (cosineSimilarity v (xPos lineAxes) - cosineSimilarity v (xNeg lineAxes))
          ∧ ProjectedWord.y w
            = ky * (cosineSimilarity v (yPos lineAxes) - cosineSimilarity v (yNeg lineAxes))
          ∧ ProjectedWord.z w
            = kz * (cosineSimilarity v (zPos lineAxes) - cosineSimilarity v (zNeg lineAxes)))
        [0%nat; 1%nat] (projectWords lineVocab lineAxes [0%nat; 1%nat] 80).
Proof.
  assert (0 < 80) as H by lra.
  split; [exact H|].
  apply (projectWords_positive_rescaling lineVocab lineAxes [0%nat; 1%nat] 80 H).
Defined.

(** ** Words and beacons *)

Lemma R_ltb_irrefl (x : R) : (x <? x)%num = false.
Proof. apply R_ltb_false. lra. Qed.

Lemma R_ltb_trans (x y z : R) :
  (x <? y)%num = true → (y <? z)%num = true → (x <? z)%num = true.
Proof. cbn [nltb real_number]. rewrite !R_ltb_true. lra. Qed.

Lemma greatest_bounds (m : R) (xs : list R) :
  greatestFromZero m xs → 0 <= m ∧ ∀ v, v ∈ xs → v <= m * pad.
Proof.
  intros (_ & H0 & Hub & _). apply R_ltb_false in H0.
  unfold num0 in H0. simpl in H0. split; [lra|].
  intros v Hv. specialize (Hub v Hv). apply R_ltb_false in Hub.
  unfold pad, decimal. simpl. lra.
Qed.

Lemma least_bounds (m : R) (xs : list R) :
  leastFromZero m xs → m <= 0 ∧ ∀ v, v ∈ xs → m * pad <= v.
Proof.
  intros (_ & H0 & Hlb & _). apply R_ltb_false in H0.
  unfold num0 in H0. simpl in H0. split; [lra|].
  intros v Hv. specialize (Hlb v Hv). apply R_ltb_false in Hlb.
  unfold pad, decimal. simpl. lra.
Qed.

(** X12.  In exact arithmetic every projected word lies between the two
    beacons of each axis, whatever the words are, and the origin does
    too: the left, down and backward beacons are at or below 0, the
    right, up and forward ones at or above. *)
Theorem words_between_beacons (axes : SixAxes string) (ws : list (ProjectedWord.t R)) :
  ∃ left right up down forward backward,
    getBeaconPositions axes ws = [left; right; up; down; forward; backward]
    ∧ Beacon.x left <= 0 <= Beacon.x right
    ∧ Beacon.y down <= 0 <= Beacon.y up
    ∧ Beacon.z backward <= 0 <= Beacon.z forward
    ∧ ∀ w, w ∈ ws →
        Beacon.x left <= ProjectedWord.x w <= Beacon.x right
        ∧ Beacon.y down <= ProjectedWord.y w <= Beacon.y up
        ∧ Beacon.z backward <= ProjectedWord.z w <= Beacon.z forward.
Proof.
  unfold getBeaconPositions, extent. rewrite (extent_runs).
  cbn [maxX minX maxY minY maxZ minZ].
  do 6 eexists. split; [reflexivity|]. cbn [Beacon.x Beacon.y Beacon.z].
  pose proof (greatest_bounds _ _ (runningMax_spec R_ltb_irrefl R_ltb_trans (map ProjectedWord.x ws))) as [? HX].
  pose proof (greatest_bounds _ _ (runningMax_spec R_ltb_irrefl R_ltb_trans (map ProjectedWord.y ws))) as [? HY].
  pose proof (greatest_bounds _ _ (runningMax_spec R_ltb_irrefl R_ltb_trans (map ProjectedWord.z ws))) as [? HZ].
  pose proof (least_bounds _ _ (runningMin_spec R_ltb_irrefl R_ltb_trans (map ProjectedWord.x ws))) as [? Hx].
  pose proof (least_bounds _ _ (runningMin_spec R_ltb_irrefl R_ltb_trans (map ProjectedWord.y ws))) as [? Hy].
  pose proof (least_bounds _ _ (runningMin_spec R_ltb_irrefl R_ltb_trans (map ProjectedWord.z ws))) as [? Hz].
  assert (pad = 12 / 10) as Hpad by (unfold pad, decimal; simpl; lra).
  cbn [nmul real_number].
  split_and!; try (rewrite Hpad; lra).
  intros w Hw.
  split_and!; first [apply HX|apply HY|apply HZ|apply Hx|apply Hy|apply Hz];
    by apply list_elem_of_fmap_2.
Qed.

(** ** The nearest words, in exact arithmetic *)

(** X15.  In exact arithmetic the entries of [findNearbyWords] come nearest
    first, and they are the nearest: whatever visible sprite is left out
    is no nearer than any entry returned, and is left out only when
    [count] entries were returned. *)
Theorem findNearbyWords_nearest (wordGroup : list (Sprite.t R))
    (position : Vector3 R) (count : nat) :
  let found := findNearbyWords wordGroup position count in
  StronglySorted (λ a b, Nearby.distance a <= Nearby.distance b) found
  ∧ ∃ rest,
      found ++ rest ≡ₚ map (entry position) (filter shown wordGroup)
      ∧ (rest ≠ [] → length found = count)
      ∧ ∀ a b, a ∈ found → b ∈ rest → Nearby.distance a <= Nearby.distance b.
Proof.
  intros found.
  set (distances := map (entry position) (filter shown wordGroup)).
  set (cmp := λ a b : Nearby.t R, Nearby.distance a - Nearby.distance b).
  assert (∀ a b, cmp a b < 0 ↔ Nearby.distance a < Nearby.distance b) as Hck.
  { intros a b. unfold cmp. lra. }
  pose proof (sortBy_ascending Nearby.distance cmp Hck distances) as Hasc.
  assert (found = take count (sortBy cmp distances)) as -> by done.
  split; [by apply ascending_take|].
  exists (drop count (sortBy cmp distances)). split_and!.
  - rewrite take_drop. apply sortBy_perm.
  - intros Hrest. rewrite length_take. apply Nat.min_l.
    destruct (Nat.le_gt_cases count (length (sortBy cmp distances))) as [|Hlt]; [done|].
    by rewrite drop_ge in Hrest by lia.
  - intros a b Ha Hb. by eapply (ascending_take_drop Nearby.distance).
Qed.

(** ** The axis gauges, in exact arithmetic *)

Lemma clamp_R (v lo hi : R) :
  lo <= hi → Gauge.clamp v lo hi = Rmax lo (Rmin hi v).
Proof.
  intros Hord. unfold Gauge.clamp. cbn [nltb real_number].
  destruct (R_ltb v lo) eqn:Hlo.
  - apply R_ltb_true in Hlo. rewrite Rmin_right by lra. by rewrite Rmax_left by lra.
  - apply R_ltb_false in Hlo. destruct (R_ltb hi v) eqn:Hhi.
    + apply R_ltb_true in Hhi. rewrite Rmin_left by lra. by rewrite Rmax_right by lra.
    + apply R_ltb_false in Hhi. rewrite Rmin_right by lra. by rewrite Rmax_right by lra.
Qed.

Lemma clamp_unit (v : R) : 0 <= Gauge.clamp v num0 num1 <= 1.
Proof.
  unfold num0, num1. cbn [ofZ real_number]. rewrite clamp_R by lra.
  unfold Rmax, Rmin. destruct (Rle_dec 1 v), (Rle_dec 0 _); lra.
Qed.

Lemma clamp_unit_id (v : R) : 0 <= v <= 1 → Gauge.clamp v num0 num1 = v.
Proof.
  intros Hv. unfold num0, num1. cbn [ofZ real_number]. rewrite clamp_R by lra.
  rewrite Rmin_right by lra. by rewrite Rmax_right by lra.
Qed.

Lemma target_unit (val min max : R) (invert : bool) :
  0 <= Gauge.target val min max invert <= 1.
Proof. unfold Gauge.target. apply clamp_unit. Qed.

Lemma updateRow_step (current val min max : R) (invert : bool) :
  GaugeRow.currentT (Gauge.updateRow current val min max invert)
  = current + (Gauge.target val min max invert - current) * (15 / 100).
Proof. unfold Gauge.updateRow. cbn. unfold decimal. by simpl. Qed.

Lemma updateRow_unit (current val min max : R) (invert : bool) :
  0 <= current <= 1 →
  0 <= GaugeRow.currentT (Gauge.updateRow current val min max invert) <= 1.
Proof.
  intros Hc. rewrite updateRow_step.
  pose proof (target_unit val min max invert). lra.
Qed.

(** X17.  In exact arithmetic, from a smoothed position between 0 and 1:
    the target of a row is between 0 and 1 whatever the camera and the
    bounds are, the smoothed position stays between 0 and 1, so the dot
    stays between 0% and 100% and the second [clamp] changes nothing;
    each frame takes the dot 15% of the way to its target, [frames]
    frames leave 0.85^frames of the distance; and the opacities of the
    two labels stay between 0.35 and 1 and add up to 1.35.  The
    positions a new gauge starts with are between 0 and 1, and [update]
    keeps them there. *)
Theorem gauge_row_smoothing (current val min max : R) (invert : bool) :
  0 <= current <= 1 →
  let t := Gauge.target val min max invert in
  let row := Gauge.updateRow current val min max invert in
  0 <= t <= 1
  ∧ 0 <= GaugeRow.currentT row <= 1
  ∧ GaugeRow.blend row = GaugeRow.currentT row
  ∧ GaugeRow.dotLeft row = GaugeRow.currentT row * 100
  ∧ t - GaugeRow.currentT row = (85 / 100) * (t - current)
  ∧ 35 / 100 <= GaugeRow.leftOpacity row <= 1
  ∧ 35 / 100 <= GaugeRow.rightOpacity row <= 1
  ∧ GaugeRow.leftOpacity row + GaugeRow.rightOpacity row = 135 / 100
  ∧ (∀ frames, t - Gauge.settle val min max invert frames current
               = (85 / 100) ^ frames * (t - current))
  ∧ Forall (λ c, 0 <= c <= 1) Gauge.initialT
  ∧ ∀ currentT bounds cameraPosition,
      Forall (λ c, 0 <= c <= 1) currentT →
      Forall (λ c, 0 <= c <= 1)
             (map GaugeRow.currentT (Gauge.update currentT bounds cameraPosition)).
Proof.
  intros Hc t row. pose proof (target_unit val min max invert) as Ht. fold t in Ht.
  assert (∀ c, GaugeRow.currentT (Gauge.updateRow c val min max invert)
               = c + (t - c) * (15 / 100)) as Hstep.
  { intros c. apply updateRow_step. }
  assert (0 <= GaugeRow.currentT row <= 1) as Hrow.
  { subst row. by apply updateRow_unit. }
  assert (GaugeRow.blend row = GaugeRow.currentT row) as Hblend.
  { subst row. unfold Gauge.updateRow in *. cbn [GaugeRow.blend GaugeRow.currentT] in *.
    by apply clamp_unit_id. }
  assert (GaugeRow.dotLeft row = GaugeRow.blend row * 100
          ∧ GaugeRow.leftOpacity row = 35 / 100 + (1 - GaugeRow.blend row) * (65 / 100)
          ∧ GaugeRow.rightOpacity row = 35 / 100 + GaugeRow.blend row * (65 / 100))
    as (Hd & Hl & Hr).
  { subst row. unfold Gauge.updateRow, decimal, num1. by cbn. }
  rewrite Hd, Hl, Hr, Hblend.
  split_and!; try lra.
  - subst row. rewrite Hstep. lra.
  - intros frames. induction frames as [|n IH]; [simpl; lra|].
    change (Gauge.settle val min max invert (S n) current)
      with (GaugeRow.currentT
              (Gauge.updateRow (Gauge.settle val min max invert n current) val min max invert)).
    rewrite Hstep. simpl. lra.
  - unfold Gauge.initialT, decimal. cbn [ofZ ndiv real_number].
    repeat (constructor; [lra|]). constructor.
  - intros currentT bounds cameraPosition Hall. unfold Gauge.update, Gauge.AXIS_INVERT.
    destruct currentT as [|c1 [|c2 [|c3 rest]]]; cbn [zip zip_with map];
      rewrite ?Forall_cons in Hall;
      repeat (apply Forall_cons_2; [apply updateRow_unit; tauto|]);
      try (destruct rest; cbn [zip zip_with map]); apply Forall_nil_2.
Qed.

Lemma gauge_row_smoothing_witness :
  0 <= 1 / 2 <= 1
  ∧ 0 <= GaugeRow.currentT (Gauge.updateRow (1 / 2) 30 (-100) 100 false) <= 1.
Proof.
  assert (0 <= 1 / 2 <= 1) as H by lra.
  split; [exact H|].
  pose proof (gauge_row_smoothing (1 / 2) 30 (-100) 100 false H) as Hg.
  cbv zeta in Hg. exact (proj1 (proj2 Hg)).
Defined.

(** ** Flight, in exact arithmetic *)

Lemma vlength_nonneg (v : Vector3 R) : 0 <= vlength v.
Proof. unfold vlength. apply sqrt_pos. Qed.

Lemma vlength_scale (v : Vector3 R) (s : R) :
  vlength (multiplyScalar v s) = Rabs s * vlength v.
Proof.
  unfold vlength, multiplyScalar, vec. cbn.
  replace (vx v * s * (vx v * s) + vy v * s * (vy v * s) + vz v * s * (vz v * s))
    with ((s * s) * (vx v * vx v + vy v * vy v + vz v * vz v)) by ring.
  rewrite sqrt_mult_alt by (apply Rle_0_sqr).
  f_equal. change (s * s) with (Rsqr s). apply sqrt_Rsqr_abs.
Qed.

Lemma vlength_zero (v : Vector3 R) : vlength v = 0 → v = vec 0 0 0.
Proof.
  unfold vlength. cbn. intros H0.
  pose proof (Rle_0_sqr (vx v)) as Hx. pose proof (Rle_0_sqr (vy v)) as Hy.
  pose proof (Rle_0_sqr (vz v)) as Hz. unfold Rsqr in *.
  apply sqrt_eq_0 in H0; [|lra].
  assert (vx v * vx v = 0) as Hx0 by lra. assert (vy v * vy v = 0) as Hy0 by lra.
  assert (vz v * vz v = 0) as Hz0 by lra.
  apply Rmult_integral in Hx0, Hy0, Hz0.
  destruct v as [x y z]. cbn in *. unfold vec. f_equal; lra.
Qed.

Section Motion.
Context {Quat : Type}.
Variable lookQuat : Vector3 R → Vector3 R → Quat.
Variable slerpQuaternions : Quat → Quat → R → Quat.
Variable getWorldDirection : Quat → Vector3 R.
Variable syncEuler : Quat → Quat.

Lemma stepMove_speed (delta : R) (f : Flight.t R Quat) :
  let f' := stepMove getWorldDirection delta f in
  vlength (Flight.velocity f') <= speedLimit (Flight.keys f)
  ∧ Flight.keys f' = Flight.keys f
  ∧ Flight.position f'
    = addScaledVector (Flight.position f) (Flight.velocity f') (delta * 60).
Proof.
  cbv zeta. unfold stepMove.
  set (limit := (maxSpeed * (if Keys.boost (Flight.keys f) then boostMultiplier else num1))%num).
  set (u := pushIf _ _ _ _). clearbody u.
  cbn [Flight.velocity Flight.keys Flight.position withPosition withVelocity].
  split; [|by split].
  rewrite vlength_scale. change (speedLimit (Flight.keys f)) with (damping * limit).
  assert (6 <= limit) as Hlimit.
  { subst limit. unfold maxSpeed, boostMultiplier, num1. cbn.
    destruct (Keys.boost (Flight.keys f)); lra. }
  clearbody limit.
  assert (damping = 94 / 100) as Hd by (unfold damping, decimal; cbn; lra).
  rewrite Hd, (Rabs_pos_eq (94 / 100)) by lra.
  apply Rmult_le_compat_l; [lra|].
  pose proof (vlength_nonneg u) as Hu.
  cbn [nltb real_number]. destruct (R_ltb limit (vlength u)) eqn:Hover.
  - apply R_ltb_true in Hover. rewrite vlength_scale. cbn [ndiv real_number].
    assert (maxSpeed / vlength u = 6 / vlength u) as -> by (unfold maxSpeed; cbn; lra).
    rewrite Rabs_pos_eq by (apply Rlt_le, Rdiv_lt_0_compat; lra).
    replace (6 / vlength u * vlength u) with 6 by (field; lra). lra.
  - by apply R_ltb_false in Hover.
Qed.

Lemma stepOrient_keys (delta : R) (f f' : Flight.t R Quat) :
  stepOrient slerpQuaternions syncEuler delta f = Returns f' →
  Flight.keys f' = Flight.keys f ∧ Flight.velocity f' = Flight.velocity f
  ∧ Flight.position f' = Flight.position f.
Proof.
  unfold stepOrient. destruct (Flight._orientTarget f); [|by intros [= <-]].
  destruct (geb _ _); [by intros [= <-]|].
  destruct (Flight._orientStart f); [by intros [= <-]|done].
Qed.

Lemma stepTeleport_keys (delta : R) (f f' : Flight.t R Quat) :
  stepTeleport delta f = Returns f' →
  Flight.keys f' = Flight.keys f ∧ Flight.velocity f' = Flight.velocity f.
Proof.
  unfold stepTeleport. destruct (Flight._teleportTarget f); [|by intros [= <-]].
  destruct (geb _ _); [by intros [= <-]|].
  destruct (Flight._teleportStart f); [by intros [= <-]|done].
Qed.
End Motion.

(** X20.  In exact arithmetic, after every frame drawn while the pointer is
    locked the speed is at most 0.94 x 6, or 0.94 x 18 with the boost key
    down, whatever the speed was before, whatever keys are held and
    however long the frame took; the frame leaves the keys as they are. *)
Theorem speed_is_limited {Quat : Type}
    (slerpQuaternions : Quat → Quat → R → Quat)
    (getWorldDirection : Quat → Vector3 R) (syncEuler : Quat → Quat)
    (delta : R) (f f' : Flight.t R Quat) :
  Flight.isLocked f = true →
  update slerpQuaternions getWorldDirection syncEuler delta f = Returns f' →
  Flight.keys f' = Flight.keys f
  ∧ vlength (Flight.velocity f')
    <= (94 / 100) * (if Keys.boost (Flight.keys f) then 18 else 6).
Proof.
  intros Hlocked. unfold update. rewrite Hlocked. cbn [negb].
  destruct (stepOrient _ _ _ _) as [f1|] eqn:H1; [|done].
  destruct (stepTeleport _ _) as [f2|] eqn:H2; [|done].
  intros [= <-].
  apply stepOrient_keys in H1 as (Hk1 & _). apply stepTeleport_keys in H2 as (Hk2 & _).
  destruct (stepMove_speed getWorldDirection delta f2) as (Hspeed & Hkeys & _).
  rewrite Hkeys, Hk2, Hk1. split; [done|].
  etransitivity; [exact Hspeed|]. rewrite Hk2, Hk1. unfold speedLimit.
  unfold damping, maxSpeed, boostMultiplier, num1, decimal. cbn.
  destruct (Keys.boost (Flight.keys f)); lra.
Qed.

Lemma speed_is_limited_witness :
  Flight.isLocked lockedFlight = true
  ∧ update (λ (start : unit) _ _, start) (λ _, vec 0 0 (-1)) (λ q, q) (1 / 60) lockedFlight
    = Returns (stepMove (λ _ : unit, vec 0 0 (-1)) (1 / 60) lockedFlight)
  ∧ vlength (Flight.velocity (stepMove (λ _ : unit, vec 0 0 (-1)) (1 / 60) lockedFlight))
    <= 94 / 100 * 6.
Proof.
  assert (Flight.isLocked lockedFlight = true) as H1 by reflexivity.
  assert (update (λ (start : unit) _ _, start) (λ _, vec 0 0 (-1)) (λ q, q) (1 / 60) lockedFlight
          = Returns (stepMove (λ _ : unit, vec 0 0 (-1)) (1 / 60) lockedFlight)) as H2
    by reflexivity.
  split; [exact H1|]. split; [exact H2|].
  exact (proj2 (speed_is_limited _ _ _ _ _ _ H1 H2)).
Defined.

Lemma sumBeacons_total (beacons : list (Beacon.t R)) (held : list nat) (start : Vector3 R) :
  Forall (λ i, (i < length beacons)%nat) held →
  sumBeacons beacons held start
  = Returns (vec (vx start + total (map Beacon.x (chosen beacons held)))
                 (vy start + total (map Beacon.y (chosen beacons held)))
                 (vz start + total (map Beacon.z (chosen beacons held))))
  ∧ length (chosen beacons held) = length held.
Proof.
  revert start. induction held as [|i held IH]; intros start Hall.
  - destruct start. cbn. split; [|done]. unfold vec. do 2 f_equal; lra.
  - apply Forall_cons in Hall as [Hi Hall].
    destruct (lookup_lt_is_Some_2 beacons i Hi) as [b Hb].
    cbn. unfold chosen in *. cbn. rewrite Hb. cbn.
    destruct (IH (vec (vx start + Beacon.x b) (vy start + Beacon.y b) (vz start + Beacon.z b))
                 Hall) as [-> ->].
    split; [|done]. cbn. unfold vec. do 2 f_equal; unfold total; cbn; lra.
Qed.

(** X21.  In exact arithmetic, releasing Shift with digits held, each the
    index of a beacon, sends the camera toward the centroid of their
    beacons: it stops the camera, starts a turn to the centroid and a
    teleport from where the camera is to a point 20 away from the
    centroid on the side the camera is on (the centroid itself when the
    camera is there already); the digits are forgotten and the boost is
    off. *)
Theorem shift_release_teleports {Quat : Type} (lookQuat : Vector3 R → Vector3 R → Quat)
    (f : Flight.t R Quat) (code : string) :
  isShift code = true →
  Flight._heldDigits f ≠ [] →
  Forall (λ i, (i < length (Flight.beacons f))%nat) (Flight._heldDigits f) →
  let picked := chosen (Flight.beacons f) (Flight._heldDigits f) in
  let n := INR (length picked) in
  let centroid := vec (total (map Beacon.x picked) / n) (total (map Beacon.y picked) / n)
                      (total (map Beacon.z picked) / n) in
  ∃ f' arrival,
    _onKeyUp lookQuat code f = Returns f'
    ∧ length picked = length (Flight._heldDigits f)
    ∧ Flight._teleportTarget f' = Some arrival
    ∧ Flight._teleportStart f' = Some (Flight.position f)
    ∧ Flight._teleportProgress f' = 0
    ∧ Flight._orientTarget f' = Some (lookQuat (Flight.position f) centroid)
    ∧ Flight.velocity f' = vec 0 0 0
    ∧ Flight._heldDigits f' = []
    ∧ Keys.boost (Flight.keys f') = false
    ∧ (Flight.position f = centroid → arrival = centroid)
    ∧ (Flight.position f ≠ centroid →
       distanceTo arrival centroid = 20
       ∧ ∃ k, 0 < k ∧ subVectors arrival centroid
                      = multiplyScalar (subVectors (Flight.position f) centroid) k).
Proof.
  intros Hshift Hheld Hall picked n centroid.
  destruct (sumBeacons_total (Flight.beacons f) (Flight._heldDigits f) (vec 0 0 0) Hall)
    as [Hsum Hlen].
  fold picked in Hsum, Hlen.
  assert (0 < n) as Hn.
  { subst n. rewrite Hlen. apply lt_0_INR.
    destruct (Flight._heldDigits f); [done|simpl; lia]. }
  unfold _onKeyUp. rewrite Hshift.
  cbn [Flight._heldDigits withKeys Flight.beacons].
  destruct (Nat.ltb_spec 0 (length (Flight._heldDigits f))) as [_|Hz];
    [|destruct (Flight._heldDigits f); [done|simpl in Hz; lia]].
  change (vec num0 num0 num0) with (vec 0 0 0 : Vector3 R). rewrite Hsum.
  assert (divideScalar
            (vec (vx (vec 0 0 0) + total (map Beacon.x picked))
                 (vy (vec 0 0 0) + total (map Beacon.y picked))
                 (vz (vec 0 0 0) + total (map Beacon.z picked)))
            (ofZ (Z.of_nat (length (Flight._heldDigits f)))) = centroid) as ->.
  { unfold divideScalar, multiplyScalar, centroid, vec, num1. cbn.
    rewrite <- INR_IZR_INZ, <- Hlen. fold n. f_equal; field; lra. }
  set (cx := total (map Beacon.x picked) / n) in *.
  set (cy := total (map Beacon.y picked) / n) in *.
  set (cz := total (map Beacon.z picked) / n) in *.
  clearbody cx cy cz. subst centroid.
  set (centroid := vec cx cy cz).
  set (v := subVectors (Flight.position f) centroid).
  set (arrival := addVectors centroid (multiplyScalar (vnormalize v) 20)).
  exists (withHeldDigits [] (teleportTo lookQuat centroid
                               (withKeys (setBoost false (Flight.keys f)) f))), arrival.
  assert (subVectors arrival centroid = multiplyScalar (vnormalize v) 20) as Hdiff.
  { subst arrival. unfold subVectors, addVectors, multiplyScalar, vec. cbn. f_equal; ring. }
  assert (distanceTo arrival centroid = vlength (subVectors arrival centroid)) as Hdist.
  { reflexivity. }
  split_and!; try reflexivity; try done.
  - intros Hsame.
    assert (v = vec 0 0 0) as Hv.
    { subst v. rewrite Hsame. unfold subVectors, vec. cbn. f_equal; ring. }
    subst arrival centroid. rewrite Hv.
    unfold addVectors, multiplyScalar, vnormalize, divideScalar, vec. cbn. f_equal; ring.
  - intros Hdiffer.
    assert (0 < vlength v) as Hpos.
    { destruct (Rle_lt_or_eq_dec 0 (vlength v) (vlength_nonneg v)) as [|Hz0]; [done|].
      exfalso. apply Hdiffer. symmetry in Hz0. apply vlength_zero in Hz0.
      subst v centroid. destruct (Flight.position f) as [px py pz].
      unfold subVectors, vec in Hz0. cbn in Hz0. injection Hz0 as Hx Hy Hz.
      unfold vec. f_equal; lra. }
    assert (orElse (vlength v) num1 = vlength v) as Hor.
    { unfold orElse. destruct (truthy (vlength v)) eqn:Ht; [done|].
      apply not_true_iff_false in Ht. rewrite truthy_R in Ht. exfalso. apply Ht. lra. }
    assert (multiplyScalar (vnormalize v) 20 = multiplyScalar v (20 / vlength v)) as Hnorm.
    { unfold vnormalize. rewrite Hor. revert Hpos. generalize (vlength v) as L. intros L HL.
      unfold divideScalar, multiplyScalar, vec, num1. cbn. f_equal; field; lra. }
    split.
    + rewrite Hdist, Hdiff, Hnorm, vlength_scale.
      rewrite Rabs_pos_eq by (apply Rlt_le, Rdiv_lt_0_compat; lra). field. lra.
    + exists (20 / vlength v). split; [apply Rdiv_lt_0_compat; lra|].
      by rewrite Hdiff, Hnorm.
Qed.

Lemma shift_release_teleports_witness :
  isShift "ShiftLeft" = true
  ∧ Flight._heldDigits heldFlight ≠ []
  ∧ Forall (λ i, (i < length (Flight.beacons heldFlight))%nat) (Flight._heldDigits heldFlight)
  ∧ ∃ f', _onKeyUp (λ _ _, tt) "ShiftLeft" heldFlight = Returns f'
          ∧ Flight._heldDigits f' = []
          ∧ Keys.boost (Flight.keys f') = false.
Proof.
  assert (isShift "ShiftLeft" = true) as H1 by reflexivity.
  assert (Flight._heldDigits heldFlight ≠ []) as H2 by discriminate.
  assert (Forall (λ i, (i < length (Flight.beacons heldFlight))%nat)
            (Flight._heldDigits heldFlight)) as H3.
  { simpl. constructor; [lia|constructor]. }
  split; [exact H1|]. split; [exact H2|]. split; [exact H3|].
  pose proof (shift_release_teleports (λ _ _, tt) heldFlight "ShiftLeft" H1 H2 H3) as Ht.
  cbv zeta in Ht. destruct Ht as (f' & arrival & Hup & _ & _ & _ & _ & _ & _ & Hd & Hb & _).
  exists f'. split; [exact Hup|]. split; [exact Hd|exact Hb].
Defined.

Lemma easeInOut_R (t : R) :
  _easeInOut t = if Rlt_dec t (1 / 2) then 2 * t * t else 1 - (2 - 2 * t) * (2 - 2 * t) / 2.
Proof.
  unfold _easeInOut, square, decimal, num1. cbn. unfold R_ltb.
  replace (5 / 10) with (1 / 2) by lra.
  destruct (Rlt_dec t (1 / 2)); [done|]. f_equal. f_equal. ring.
Qed.

(** X22.  In exact arithmetic the easing of the turns and teleports starts
    at 0 and ends at 1, its two branches meet at 1/2 with the value 1/2,
    it never decreases on [0, 1] and stays between 0 and 1 there, and it
    is symmetric about the middle. *)
Theorem easeInOut_profile :
  _easeInOut 0 = 0 ∧ _easeInOut 1 = 1 ∧ _easeInOut (1 / 2) = 1 / 2
  ∧ 2 * (1 / 2) * (1 / 2) = _easeInOut (1 / 2)
  ∧ (∀ t, 0 <= t <= 1 → 0 <= _easeInOut t <= 1)
  ∧ (∀ s t, 0 <= s → s <= t → t <= 1 → _easeInOut s <= _easeInOut t)
  ∧ (∀ t, _easeInOut (1 - t) = 1 - _easeInOut t).
Proof.
  split_and!.
  - rewrite easeInOut_R. destruct (Rlt_dec 0 (1 / 2)); lra.
  - rewrite easeInOut_R. destruct (Rlt_dec 1 (1 / 2)); lra.
  - rewrite easeInOut_R. destruct (Rlt_dec (1 / 2) (1 / 2)); lra.
  - rewrite easeInOut_R. destruct (Rlt_dec (1 / 2) (1 / 2)); lra.
  - intros t Ht. rewrite easeInOut_R. destruct (Rlt_dec t (1 / 2)); nra.
  - intros s t Hs Hst Ht. rewrite !easeInOut_R.
    destruct (Rlt_dec s (1 / 2)), (Rlt_dec t (1 / 2)); nra.
  - intros t. rewrite !easeInOut_R.
    destruct (Rlt_dec (1 - t) (1 / 2)), (Rlt_dec t (1 / 2)); nra.
Qed.

(** ** The minimap, in exact arithmetic *)

Lemma R_eqb_refl (a : R) : R_eqb a a = true.
Proof. by apply R_eqb_true. Qed.

Lemma Math_max_R (a b : R) : Math_max a b = Rmax a b.
Proof.
  unfold Math_max. cbn [neqb nltb real_number]. rewrite !R_eqb_refl. cbn [negb].
  destruct (R_ltb a b) eqn:Hab.
  { apply R_ltb_true in Hab. by rewrite Rmax_right by lra. }
  apply R_ltb_false in Hab. destruct (R_ltb b a) eqn:Hba.
  { apply R_ltb_true in Hba. by rewrite Rmax_left by lra. }
  apply R_ltb_false in Hba. assert (a = b) as -> by lra.
  rewrite Rmax_left by lra. by destruct (isNegativeZero b).
Qed.

Lemma Math_min_R (a b : R) : Math_min a b = Rmin a b.
Proof.
  unfold Math_min. cbn [neqb nltb real_number]. rewrite !R_eqb_refl. cbn [negb].
  destruct (R_ltb a b) eqn:Hab.
  { apply R_ltb_true in Hab. by rewrite Rmin_left by lra. }
  apply R_ltb_false in Hab. destruct (R_ltb b a) eqn:Hba.
  { apply R_ltb_true in Hba. by rewrite Rmin_right by lra. }
  apply R_ltb_false in Hba. assert (a = b) as -> by lra.
  rewrite Rmin_left by lra. by destruct (isNegativeZero b).
Qed.

Lemma clamp_unit_R (x : R) :
  -1 <= Math_max (-1) (Math_min 1 x) <= 1
  ∧ (-1 <= x <= 1 → Math_max (-1) (Math_min 1 x) = x).
Proof.
  rewrite Math_max_R, Math_min_R. unfold Rmax, Rmin.
  destruct (Rle_dec 1 x), (Rle_dec (-1) _); split; lra.
Qed.

Lemma scaled_unit (lo hi x : R) :
  lo < hi → lo <= x <= hi → -1 <= (x - lo) / (hi - lo) * 2 - 1 <= 1.
Proof.
  intros Hlh Hx.
  pose proof (Rinv_0_lt_compat (hi - lo) ltac:(lra)) as Hinv.
  assert ((hi - lo) * / (hi - lo) = 1) as Hone by (apply Rinv_r; lra).
  unfold Rdiv. split; nra.
Qed.

(** X29.  In exact arithmetic, with bounds that have an extent on each
    axis: the dot of the minimap is in the cube from -1 to 1, wherever
    the camera is; the two corners of the bounds are shown at the two
    corners of the cube; and a camera within the bounds is shown where
    [worldToMinimap] puts it, without clamping. *)
Theorem minimap_dot_in_cube (axisColor : SixAxes (Color.t R))
    (boundsMin boundsMax cameraPosition : Vector3 R) :
  vx boundsMin < vx boundsMax →
  vy boundsMin < vy boundsMax →
  vz boundsMin < vz boundsMax →
  let dot := (Minimap.update axisColor boundsMin boundsMax cameraPosition).1 in
  inside (vec (-1) (-1) (-1)) (vec 1 1 1) dot
  ∧ Minimap.worldToMinimap boundsMin boundsMax boundsMin = vec (-1) (-1) (-1)
  ∧ Minimap.worldToMinimap boundsMin boundsMax boundsMax = vec 1 1 1
  ∧ (inside boundsMin boundsMax cameraPosition →
     dot = Minimap.worldToMinimap boundsMin boundsMax cameraPosition).
Proof.
  intros Hx Hy Hz dot. subst dot.
  unfold Minimap.update, clampScalar, inside, vec. cbn [fst vx vy vz].
  unfold num1. cbn [ofZ real_number].
  split; [|split; [|split]].
  - split_and!; apply clamp_unit_R.
  - unfold Minimap.worldToMinimap, vec, num1. cbn. f_equal; field; lra.
  - unfold Minimap.worldToMinimap, vec, num1. cbn. f_equal; field; lra.
  - intros (Hcx & Hcy & Hcz).
    unfold Minimap.worldToMinimap, vec, num1. cbn [vx vy vz ofZ real_number nsub ndiv nmul].
    f_equal; apply clamp_unit_R; by apply scaled_unit.
Qed.

Lemma minimap_dot_in_cube_witness :
  (vx (Minimap.initialMin (num:=R)) < vx (Minimap.initialMax (num:=R))
   ∧ vy (Minimap.initialMin (num:=R)) < vy (Minimap.initialMax (num:=R))
   ∧ vz (Minimap.initialMin (num:=R)) < vz (Minimap.initialMax (num:=R)))
  ∧ Minimap.worldToMinimap Minimap.initialMin Minimap.initialMax (Minimap.initialMax (num:=R))
    = vec 1 1 1.
Proof.
  assert (vx (Minimap.initialMin (num:=R)) < vx (Minimap.initialMax (num:=R))
          ∧ vy (Minimap.initialMin (num:=R)) < vy (Minimap.initialMax (num:=R))
          ∧ vz (Minimap.initialMin (num:=R)) < vz (Minimap.initialMax (num:=R))) as H.
  { simpl. lra. }
  split; [exact H|].
  destruct H as (Hx & Hy & Hz).
  exact (proj1 (proj2 (proj2
    (minimap_dot_in_cube
       {| xPos := white; xNeg := white; yPos := white; yNeg := white;
          zPos := white; zNeg := white |}
       Minimap.initialMin Minimap.initialMax (vec 0 0 0) Hx Hy Hz)))).
Defined.

(** On binary64 numbers bounds without extent give no position: the
    quotient is 0/0, and the clamping keeps the NaN. *)
Example minimap_no_extent_float :
  let p : Vector3 float := vec 0%float 0%float 0%float in
  let grey : Color.t float := Color.mk 0.5%float 0.5%float 0.5%float in
  let colors := {| xPos := grey; xNeg := grey; yPos := grey; yNeg := grey;
                   zPos := grey; zNeg := grey |} in
  (Minimap.update colors p p p).1 = vec PrimFloat.nan PrimFloat.nan PrimFloat.nan.
Proof. vm_compute. done. Qed.

Lemma getDotColor_R (axisColor : SixAxes (Color.t R)) (p : Vector3 R) :
  let cs := axisList axisColor in
  let ws := weights p in
  let sum := foldr Rplus 0 ws in
  Minimap.getDotColor axisColor p
  = if Rlt_dec 0 sum
    then Color.mk (weighted Color.r cs ws / sum) (weighted Color.g cs ws / sum)
                  (weighted Color.b cs ws / sum)
    else white.
Proof.
  cbv zeta. unfold Minimap.getDotColor, Minimap.colorEntries.
  cbn [foldl Minimap.blendStep]. rewrite !Math_max_R.
  unfold vdot, vec, num0, num1. cbn [vx vy vz ofZ real_number nmul nadd ndiv nltb Color.r Color.g Color.b].
  replace (vx p * 1 + vy p * 0 + vz p * 0) with (vx p) by ring.
  replace (vx p * -1 + vy p * 0 + vz p * 0) with (- vx p) by ring.
  replace (vx p * 0 + vy p * 1 + vz p * 0) with (vy p) by ring.
  replace (vx p * 0 + vy p * -1 + vz p * 0) with (- vy p) by ring.
  replace (vx p * 0 + vy p * 0 + vz p * 1) with (vz p) by ring.
  replace (vx p * 0 + vy p * 0 + vz p * -1) with (- vz p) by ring.
  unfold weighted, weights, axisList. cbn [zip_with foldr].
  set (a := Rmax 0 (vx p)). set (b := Rmax 0 (- vx p)). set (c := Rmax 0 (vy p)).
  set (d := Rmax 0 (- vy p)). set (e := Rmax 0 (vz p)). set (g := Rmax 0 (- vz p)).
  replace (0 + a + b + c + d + e + g) with (a + (b + (c + (d + (e + (g + 0)))))) by ring.
  unfold R_ltb. destruct (Rlt_dec 0 _); [|done].
  f_equal; f_equal; ring.
Qed.

Lemma weighted_bounds (channel : Color.t R → R) (cs : list (Color.t R)) (ws : list R) :
  Forall (λ c, 0 <= channel c <= 1) cs → Forall (λ w, 0 <= w) ws →
  length cs = length ws →
  0 <= weighted channel cs ws <= foldr Rplus 0 ws.
Proof.
  intros Hcs. revert ws. induction Hcs as [|c cs Hc Hcs IH]; intros ws Hws Hlen.
  - destruct ws; [|done]. unfold weighted. simpl. lra.
  - destruct ws as [|w ws]; [done|].
    apply Forall_cons in Hws as [Hw Hws]. injection Hlen as Hlen.
    specialize (IH ws Hws Hlen). unfold weighted in *. simpl. nra.
Qed.

(** X30.  In exact arithmetic the colour of the dot is white at the centre
    of the cube, the colour of an axis anywhere on the half of that axis,
    and otherwise a weighted mean of the colours of the axes: when the
    channels of the six colours are between 0 and 1, so are the channels
    of the dot. *)
Theorem dot_color_blend (axisColor : SixAxes (Color.t R)) :
  Minimap.getDotColor axisColor (vec 0 0 0) = white
  ∧ (∀ t, 0 < t →
       Minimap.getDotColor axisColor (vec t 0 0) = xPos axisColor
       ∧ Minimap.getDotColor axisColor (vec (- t) 0 0) = xNeg axisColor
       ∧ Minimap.getDotColor axisColor (vec 0 t 0) = yPos axisColor
       ∧ Minimap.getDotColor axisColor (vec 0 (- t) 0) = yNeg axisColor
       ∧ Minimap.getDotColor axisColor (vec 0 0 t) = zPos axisColor
       ∧ Minimap.getDotColor axisColor (vec 0 0 (- t)) = zNeg axisColor)
  ∧ (Forall unitColor (axisList axisColor) →
     ∀ p, unitColor (Minimap.getDotColor axisColor p)).
Proof.
  split_and!.
  - rewrite getDotColor_R. unfold weights, vec. cbn [vx vy vz foldr].
    rewrite Ropp_0, Rmax_left by lra.
    destruct (Rlt_dec 0 _); [lra|done].
  - intros t Ht.
    assert (Rmax 0 t = t) as Hp by (apply Rmax_right; lra).
    assert (Rmax 0 (- t) = 0) as Hn by (apply Rmax_left; lra).
    assert (Rmax 0 0 = 0) as H0 by (apply Rmax_left; lra).
    destruct axisColor as [[r1 g1 b1] [r2 g2 b2] [r3 g3 b3] [r4 g4 b4] [r5 g5 b5] [r6 g6 b6]].
    split_and!; rewrite getDotColor_R; unfold weights, weighted, axisList, vec;
      cbn [vx vy vz foldr zip_with xPos xNeg yPos yNeg zPos zNeg Color.r Color.g Color.b];
      rewrite ?Ropp_involutive, ?Ropp_0, ?Hp, ?Hn, ?H0;
      (destruct (Rlt_dec 0 _); [|lra]); f_equal; field; lra.
  - intros Hunit p. rewrite getDotColor_R.
    assert (Forall (λ w, 0 <= w) (weights p)) as Hws.
    { unfold weights. rewrite !Forall_cons. split_and!; try apply Rmax_l. constructor. }
    assert (length (axisList axisColor) = length (weights p)) as Hlen by done.
    destruct (Rlt_dec 0 _) as [Hpos|]; [|unfold unitColor, white; cbn; lra].
    pose proof (weighted_bounds Color.r _ _
      (Forall_impl _ _ _ Hunit (λ c H, proj1 H)) Hws Hlen) as Hr.
    pose proof (weighted_bounds Color.g _ _
      (Forall_impl _ _ _ Hunit (λ c H, proj1 (proj2 H))) Hws Hlen) as Hg.
    pose proof (weighted_bounds Color.b _ _
      (Forall_impl _ _ _ Hunit (λ c H, proj2 (proj2 H))) Hws Hlen) as Hb.
    set (sum := foldr Rplus 0 (weights p)) in *. clearbody sum.
    pose proof (Rinv_0_lt_compat sum Hpos) as Hinv.
    assert (sum * / sum = 1) as Hone by (apply Rinv_r; lra).
    unfold unitColor. cbn [Color.r Color.g Color.b]. unfold Rdiv. split_and!; nra.
Qed.
